(** * company-mapper: the entity-relationship graph engine

    A shallow embedding of [src/components/GraphCanvas.tsx]: the address
    formatter, the graph assembler ([fetchData]), the expansion engine
    ([expandSingleNode], [handleExpandNetwork]) and the connectivity
    highlighter (the [styledNodes]/[styledEdges] memo).

    Conventions.
    - JavaScript strings are modelled as [string]; a field that may be
      [undefined]/[null] is an [option]. A value is "truthy" when it is
      present and, for a string, not empty.
    - [Set<string>] is a [gset string], [Map<string, _>] a [gmap string _];
      arrays are lists, [push] appends at the end.
    - A network request either rejects or yields a payload, which may lack
      the data it was asked for, see [Fetched].
    - Presentational parts of nodes and edges ([type: 'businessCard'],
      [animated], label styles, [position], the raw [source] record, and the
      officer's [appointed_on], [occupation] and [country_of_residence]) are
      never read by the engine and are left out;
      [getLayoutedElements] only writes [position], so it is the identity on
      the modelled fields.
    - [String.prototype] functions are modelled on ASCII text. *)

From Stdlib Require Import Ascii String QArith.
From stdpp Require Import base list strings gmap pretty.

Open Scope string_scope.
Open Scope list_scope.
Open Scope nat_scope.

Set Warnings "-clear-no-such-hyp".

(** ** Data model *)

(** [data.type] of a node: ['company'], ['officer'], ['psc'], ['address']. *)
Module Kind.
Inductive t := company | officer | psc | address.
End Kind.
Abbreviation kind := Kind.t.

Global Instance kind_eq_dec : EqDecision kind.
Proof. solve_decision. Defined.

Record NodeStyle := {
  ns_opacity : Q;
  ns_transition : string
}.

Record NodeData := {
  label : option string;
  role : option string;
  type : kind;
  subtext : option string;
  status : option string;
  officer_id : option string;
  data_address : option string
}.

Record Node := {
  node_id : string;
  data : NodeData;
  node_style : option NodeStyle
}.

Record EdgeStyle := {
  stroke : string;
  strokeDasharray : option string;
  es_opacity : option Q;
  es_transition : option string
}.

Record Edge := {
  edge_id : string;
  source : string;
  target : string;
  edge_label : option string;
  edge_style : EdgeStyle
}.

(** Registry records, as the API routes return them. *)
Record Address := {
  address_line_1 : option string;
  address_line_2 : option string;
  locality : option string;
  region : option string;
  postal_code : option string;
  country : option string
}.

Record Company := {
  company_number : string;
  company_name : option string;
  company_status : option string;
  company_type : option string;
  date_of_creation : option string;
  registered_office_address : option Address
}.

Record Officer := {
  name : option string;
  officer_role : option string;
  off_officer_id : option string;
  nationality : option string;
  off_address : option Address
}.

Record Psc := {
  psc_name : option string;
  natures_of_control : option (list string);
  psc_nationality : option string
}.

Record AppointedTo := {
  at_company_number : string;
  at_company_name : option string
}.

Record Appointment := {
  appointed_to : AppointedTo;
  app_officer_role : option string;
  appointed_on : option string;
  app_address : option Address;
  app_company_status : option string
}.

(** ** JavaScript helpers *)

(** [Boolean(s)] for a possibly absent string. *)
Definition truthy (s : option string) : bool :=
  match s with
  | Some s => negb (String.eqb s "")
  | None => false
  end.

(** [a || b] on possibly absent strings. *)
Definition js_or (a b : option string) : option string :=
  if truthy a then a else b.

(** [parts.filter(Boolean)] *)
Definition filter_Boolean (parts : list (option string)) : list string :=
  omap (λ p, if truthy p then p else None) parts.

(** [parts.join(sep)] *)
Fixpoint join (sep : string) (parts : list string) : string :=
  match parts with
  | [] => ""
  | [p] => p
  | p :: rest => p +:+ sep +:+ join sep rest
  end.

(** [nodes.find(n => n.id === i)] *)
Definition find_node (i : string) (nodes : list Node) : option Node :=
  List.find (λ n, String.eqb (node_id n) i) nodes.

(** [edges.some(e => e.id === i)] *)
Definition some_edge (i : string) (edges : list Edge) : bool :=
  existsb (λ e, String.eqb (edge_id e) i) edges.

(** [nodes.some(n => n.id === i)] *)
Definition some_node (i : string) (nodes : list Node) : bool :=
  existsb (λ n, String.eqb (node_id n) i) nodes.

(** ** Address Formatter *)

(** [formatAddress]: [undefined] for an absent record. *)
Definition formatAddress (addr : option Address) : option string :=
  match addr with
  | None => None
  | Some a =>
      Some (join ", " (filter_Boolean
        [address_line_1 a; address_line_2 a; locality a; region a;
         postal_code a; country a]))
  end.

(** The two-field label
    [[a.address_line_1, a.locality].filter(Boolean).join(', ')] used for the
    root registered-office node and in officer expansion. *)
Definition shortAddressLabel (a : Address) : string :=
  join ", " (filter_Boolean [address_line_1 a; locality a]).

(** ** Connectivity Highlighter *)

Record Neighbor := {
  nodeId : string;
  edgeId : string
}.

(** One iteration of the [edges.forEach] that builds the adjacency map. *)
Definition adjacency_add (adjacency : gmap string (list Neighbor)) (edge : Edge)
    : gmap string (list Neighbor) :=
  let a1 := if decide (is_Some (adjacency !! source edge)) then adjacency
            else <[source edge := []]> adjacency in
  let a2 := if decide (is_Some (a1 !! target edge)) then a1
            else <[target edge := []]> a1 in
  let a3 := alter (λ l, l ++ [{| nodeId := target edge; edgeId := edge_id edge |}])
                  (source edge) a2 in
  alter (λ l, l ++ [{| nodeId := source edge; edgeId := edge_id edge |}])
        (target edge) a3.

Definition build_adjacency (edges : list Edge) : gmap string (list Neighbor) :=
  foldl adjacency_add ∅ edges.

(** The traversal state: [connectedNodeIds], [connectedEdgeIds], [queue]. *)
Record Bfs := {
  connectedNodeIds : gset string;
  connectedEdgeIds : gset string;
  queue : list string
}.

(** Body of [for (const { nodeId, edgeId } of neighbors)]. *)
Definition visit_neighbor (st : Bfs) (nb : Neighbor) : Bfs :=
  if decide (nodeId nb ∈ connectedNodeIds st) then
    {| connectedNodeIds := connectedNodeIds st;
       connectedEdgeIds := {[edgeId nb]} ∪ connectedEdgeIds st;
       queue := queue st |}
  else
    {| connectedNodeIds := {[nodeId nb]} ∪ connectedNodeIds st;
       connectedEdgeIds := {[edgeId nb]} ∪ connectedEdgeIds st;
       queue := queue st ++ [nodeId nb] |}.

(** [currNode?.data?.type === 'company' && currId !== activeNodeId] *)
Definition blocked (nodes : list Node) (activeNodeId currId : string) : bool :=
  match find_node currId nodes with
  | Some currNode =>
      bool_decide (type (data currNode) = Kind.company)
      && negb (String.eqb currId activeNodeId)
  | None => false
  end.

(** One iteration of [while (queue.length > 0)]. *)
Definition bfs_step (nodes : list Node) (adjacency : gmap string (list Neighbor))
    (activeNodeId : string) (st : Bfs) : Bfs :=
  match queue st with
  | [] => st
  | currId :: rest =>
      let st' := {| connectedNodeIds := connectedNodeIds st;
                    connectedEdgeIds := connectedEdgeIds st;
                    queue := rest |} in
      if blocked nodes activeNodeId currId then st'
      else foldl visit_neighbor st' (default [] (adjacency !! currId))
  end.

(** The [while] loop, run for at most [fuel] iterations. *)
Fixpoint bfs_loop (fuel : nat) (nodes : list Node)
    (adjacency : gmap string (list Neighbor)) (activeNodeId : string)
    (st : Bfs) : Bfs :=
  match fuel with
  | O => st
  | S fuel' =>
      match queue st with
      | [] => st
      | _ => bfs_loop fuel' nodes adjacency activeNodeId
               (bfs_step nodes adjacency activeNodeId st)
      end
  end.

(** Every node id enters the queue at most once, so the loop needs no more
    iterations than there are edge endpoints, plus one for the start node
    (see [bfs_drained]). *)
Definition bfs_fuel (edges : list Edge) : nat := S (2 * length edges).

(** The final [edges.forEach]: an edge between two connected nodes is
    connected. *)
Definition recover_edge (ns : gset string) (es : gset string) (edge : Edge)
    : gset string :=
  if decide (source edge ∈ ns ∧ target edge ∈ ns) then {[edge_id edge]} ∪ es
  else es.

(** The connected node ids and edge ids for an active node. *)
Definition connected (nodes : list Node) (edges : list Edge)
    (activeNodeId : string) : gset string * gset string :=
  let st := bfs_loop (bfs_fuel edges) nodes (build_adjacency edges) activeNodeId
              {| connectedNodeIds := {[activeNodeId]};
                 connectedEdgeIds := ∅;
                 queue := [activeNodeId] |} in
  (connectedNodeIds st,
   foldl (recover_edge (connectedNodeIds st)) (connectedEdgeIds st) edges).

Definition style_node (ns : gset string) (node : Node) : Node :=
  {| node_id := node_id node;
     data := data node;
     node_style := Some {| ns_opacity := if decide (node_id node ∈ ns) then 1%Q else 0.2%Q;
                           ns_transition := "opacity 0.2s ease-in-out" |} |}.

Definition style_edge (es : gset string) (edge : Edge) : Edge :=
  let isConnected := bool_decide (edge_id edge ∈ es) in
  {| edge_id := edge_id edge;
     source := source edge;
     target := target edge;
     edge_label := edge_label edge;
     edge_style :=
       {| stroke := if isConnected then "#94a3b8" else "#cbd5e1";
          strokeDasharray := strokeDasharray (edge_style edge);
          es_opacity := Some (if isConnected then 1%Q else 0.1%Q);
          es_transition := Some "opacity 0.2s ease-in-out" |} |}.

(** The [useMemo] that derives [{ styledNodes, styledEdges }] from the graph,
    the hovered node id and the selected node. *)
Definition styledNodesEdges (nodes : list Node) (edges : list Edge)
    (hoveredNodeId : option string) (selectedNode : option Node)
    : list Node * list Edge :=
  let activeNodeId := js_or hoveredNodeId (node_id <$> selectedNode) in
  if truthy activeNodeId then
    match activeNodeId with
    | Some a =>
        let '(ns, es) := connected nodes edges a in
        (style_node ns <$> nodes, style_edge es <$> edges)
    | None => (nodes, edges)
    end
  else (nodes, edges).

(** A node or edge is emphasised when it is drawn at full opacity. *)
Definition node_emphasised (n : Node) : Prop :=
  ns_opacity <$> node_style n = Some 1%Q.

Definition edge_emphasised (e : Edge) : Prop :=
  es_opacity (edge_style e) = Some 1%Q.

Definition node_dimmed (n : Node) : Prop :=
  ns_opacity <$> node_style n = Some 0.2%Q.

Definition edge_dimmed (e : Edge) : Prop :=
  es_opacity (edge_style e) = Some 0.1%Q.

(** ** Edge Factory *)

(** The edge literal [{ id: `e-${source}-${target}`, source, target, label,
    style: { stroke, strokeDasharray } }] that every producer writes out. *)
Definition mkEdge (src tgt : string) (lbl : option string) (strk : string)
    (dash : option string) : Edge :=
  {| edge_id := "e-" +:+ src +:+ "-" +:+ tgt;
     source := src;
     target := tgt;
     edge_label := lbl;
     edge_style := {| stroke := strk; strokeDasharray := dash;
                      es_opacity := None; es_transition := None |} |}.

Definition slate : string := "#94a3b8".
Definition amber : string := "#f59e0b".

(** [deduplicateEdges]: keep the first edge of every id. The [Map] that
    [fetchData] fills with [if (!uniqueEdges.has(edge.id)) uniqueEdges.set(...)]
    and reads back with [values()] keeps insertion order and computes the
    same list. *)
Definition dedupe_edge (acc : gset string * list Edge) (edge : Edge)
    : gset string * list Edge :=
  if decide (edge_id edge ∈ acc.1) then acc
  else ({[edge_id edge]} ∪ acc.1, acc.2 ++ [edge]).

Definition deduplicateEdges (edges : list Edge) : list Edge :=
  (foldl dedupe_edge (∅, []) edges).2.

(** ** Graph Assembler ([fetchData]) *)

Section Engine.

(** [formatDate] of [lib/utils] goes through the host's [Date] and locale
    and is taken as given. *)
Variable formatDate : option string → string.

(** [`officer-${officer.officer_id || index}`] *)
Definition assemblyOfficerId (officer : Officer) (index : nat) : string :=
  "officer-" +:+ default (pretty index) (js_or (off_officer_id officer) None).

Definition officerNode (id : string) (officer : Officer) : Node :=
  {| node_id := id;
     data := {| label := name officer;
                role := officer_role officer;
                type := Kind.officer;
                subtext := nationality officer;
                status := None;
                officer_id := off_officer_id officer;
                data_address := formatAddress (off_address officer) |};
     node_style := None |}.

(** Body of the first [officers.forEach]: dedup by computed id. *)
Definition addOfficerNode (acc : gset string * list Node) (io : nat * Officer)
    : gset string * list Node :=
  let id := assemblyOfficerId io.2 io.1 in
  if decide (id ∈ acc.1) then acc
  else ({[id]} ∪ acc.1, acc.2 ++ [officerNode id io.2]).

Definition addressNode (id label : string) : Node :=
  {| node_id := id;
     data := {| label := Some label;
                role := Some "Correspondence Address";
                type := Kind.address;
                subtext := None; status := None; officer_id := None;
                data_address := None |};
     node_style := None |}.

Definition correspondenceEdge (officerId addressNodeId : string) : Edge :=
  mkEdge officerId addressNodeId (Some "Correspondence") slate (Some "5,5").

(** [officerAddressNodes.find(n => n.data.label === addressLabel)] *)
Definition find_label (lbl : string) (nodes : list Node) : option Node :=
  List.find (λ n, bool_decide (label (data n) = Some lbl)) nodes.

(** The value of [addressNodeId] when the second [officers.forEach] reaches
    the [officerAddressEdges.push]: the node found by label, else
    ['address-1'] when the label is the company's formatted registered
    office, else a fresh id. The slug-based id computed first in the source
    is overwritten on every path and does not appear. *)
Definition officerAddressNodeId (company : Company)
    (officerAddressNodes : list Node) (index : nat) (officer : Officer)
    (addressLabel : string) : string :=
  match find_label addressLabel officerAddressNodes with
  | Some foundNode => node_id foundNode
  | None =>
      if bool_decide (Some addressLabel
                      = formatAddress (registered_office_address company))
      then "address-1"
      else "address-" +:+ pretty index +:+ "-"
           +:+ default (pretty index) (js_or (off_officer_id officer) None)
  end.

(** Body of the second [officers.forEach]: the address node and the
    correspondence edge of one officer. A node is pushed on the last path
    only. *)
Definition addOfficerAddress (company : Company)
    (acc : list Node * list Edge) (io : nat * Officer) : list Node * list Edge :=
  let '(index, officer) := io in
  match off_address officer with
  | None => acc
  | Some _ =>
      match formatAddress (off_address officer) with
      | None => acc
      | Some addressLabel =>
          if String.eqb addressLabel "" then acc else
          let officerId := assemblyOfficerId officer index in
          let addressNodeId :=
            officerAddressNodeId company acc.1 index officer addressLabel in
          let pushed :=
            match find_label addressLabel acc.1 with
            | Some _ => []
            | None =>
                if bool_decide (Some addressLabel
                                = formatAddress (registered_office_address company))
                then []
                else [addressNode addressNodeId addressLabel]
            end in
          (acc.1 ++ pushed,
           acc.2 ++ [correspondenceEdge officerId addressNodeId])
      end
  end.

(** [s.split('-').join(' ')] *)
Fixpoint dashes_to_spaces (s : string) : string :=
  match s with
  | EmptyString => EmptyString
  | String c s' =>
      String (if Ascii.eqb c "-"%char then " "%char else c) (dashes_to_spaces s')
  end.

(** [psc.natures_of_control?.[0]?.split('-').join(' ') || 'Significant Control'] *)
Definition pscRole (p : Psc) : option string :=
  match js_or (dashes_to_spaces <$> (natures_of_control p ≫= head)) None with
  | Some r => Some r
  | None => Some "Significant Control"
  end.

Definition pscNode (index : nat) (p : Psc) : Node :=
  {| node_id := "psc-" +:+ pretty index;
     data := {| label := psc_name p;
                role := pscRole p;
                type := Kind.psc;
                subtext := psc_nationality p;
                status := None; officer_id := None; data_address := None |};
     node_style := None |}.

Definition addPscNode (acc : gset string * list Node) (ip : nat * Psc)
    : gset string * list Node :=
  let id := "psc-" +:+ pretty ip.1 in
  if decide (id ∈ acc.1) then acc
  else ({[id]} ∪ acc.1, acc.2 ++ [pscNode ip.1 ip.2]).

Definition indexed {A} (l : list A) : list (nat * A) := imap pair l.

(** The graph built by the [try] block of [fetchData] from the payload
    [{ company, officers, pscs }]; [None] when the block throws (the
    registered office is read without a guard). *)
Definition assemble (company : Company) (officers : list Officer)
    (pscs : option (list Psc)) : option (list Node * list Edge) :=
  match registered_office_address company with
  | None => None
  | Some roa =>
      let companyNode :=
        {| node_id := company_number company;
           data := {| label := company_name company;
                      role := Some "Target Company";
                      type := Kind.company;
                      subtext := Some ("Inc: " +:+ formatDate (date_of_creation company));
                      status := company_status company;
                      officer_id := None;
                      data_address := formatAddress (registered_office_address company) |};
           node_style := None |} in
      let officerNodes := (foldl addOfficerNode (∅, []) (indexed officers)).2 in
      let '(officerAddressNodes, officerAddressEdges) :=
        foldl (addOfficerAddress company) ([], []) (indexed officers) in
      let pscNodes := (foldl addPscNode (∅, []) (indexed (default [] pscs))).2 in
      let rootAddressNode :=
        {| node_id := "address-1";
           data := {| label := Some (shortAddressLabel roa);
                      role := Some "Registered Address";
                      type := Kind.address;
                      subtext := None; status := None; officer_id := None;
                      data_address := None |};
           node_style := None |} in
      let newNodes :=
        [companyNode] ++ officerNodes ++ pscNodes ++ [rootAddressNode]
        ++ officerAddressNodes in
      let rawEdges :=
        ((λ node, mkEdge (node_id companyNode) (node_id node) (role (data node))
                         slate None) <$> officerNodes)
        ++ ((λ node, mkEdge (node_id companyNode) (node_id node) (Some "PSC")
                            amber None) <$> pscNodes)
        ++ [mkEdge (node_id companyNode) "address-1" (Some "Registered Office")
                   slate None]
        ++ officerAddressEdges in
      Some (newNodes, deduplicateEdges rawEdges)
  end.

(** ** Expansion Engine *)

(** Outcome of [await fetch(url)] followed by [await res.json()]: the
    promise rejects ([Threw]: network failure, body that is not JSON) or
    yields the decoded payload. The API routes answer a failed registry call
    with [{ error }], a payload in which every data field is absent. *)
Inductive Fetched (A : Type) :=
  | Threw
  | Returned (a : A).
Global Arguments Threw {A}.
Global Arguments Returned {A} a.

(** Payload of [/api/company/<number>]. *)
Record CompanyPayload := {
  cp_company : option Company;
  cp_officers : option (list Officer);
  cp_pscs : option (list Psc)
}.

(** The three endpoints the expansion calls; each returns the payload's
    [items] (or the whole payload for a company). *)
Record Registry := {
  fetch_appointments : string → Fetched (option (list Appointment));
  fetch_company : string → Fetched CompanyPayload;
  search_address : option string → Fetched (option (list Company))
}.

(** What [expandSingleNode] returns. *)
Record Expansion := {
  newNodes : list Node;
  newEdges : list Edge;
  allNeighbors : list Node
}.

Definition noExpansion : Expansion :=
  {| newNodes := []; newEdges := []; allNeighbors := [] |}.

(** [c === ' '], tab, line feed, vertical tab, form feed, carriage return:
    the ASCII part of the regular expression class [\s]. *)
Definition is_space (c : ascii) : bool :=
  let n := nat_of_ascii c in
  Nat.eqb n 32 || (Nat.leb 9 n && Nat.leb n 13).

(** [s.replace(/\s+/g, '-')]; [in_run] tells that the previous character was
    white space. *)
Fixpoint replace_spaces (in_run : bool) (s : string) : string :=
  match s with
  | EmptyString => EmptyString
  | String c s' =>
      if is_space c then
        if in_run then replace_spaces true s'
        else String "-"%char (replace_spaces true s')
      else String c (replace_spaces false s')
  end.

(** [s.toLowerCase()] on ASCII letters. *)
Fixpoint toLowerCase (s : string) : string :=
  match s with
  | EmptyString => EmptyString
  | String c s' =>
      let n := nat_of_ascii c in
      String (if Nat.leb 65 n && Nat.leb n 90 then ascii_of_nat (n + 32) else c)
             (toLowerCase s')
  end.

(** [`address-${addressLabel.replace(/\s+/g, '-').toLowerCase().slice(0, 20)}-${index}`] *)
Definition slugAddressId (addressLabel : string) (index : nat) : string :=
  "address-"
  +:+ String.substring 0 20 (toLowerCase (replace_spaces false addressLabel))
  +:+ "-" +:+ pretty index.

(** [currentNodes.find(n => n.data.type === 'address' && n.data.label === l)] *)
Definition find_address (lbl : string) (nodes : list Node) : option Node :=
  List.find (λ n, bool_decide (type (data n) = Kind.address)
                  && bool_decide (label (data n) = Some lbl)) nodes.

(** *** Officer branch *)

(** What one [appointmentPromises] entry resolves to. A failing company
    fetch is caught there and leaves [company: null]. For a company that is
    already a node the source passes the node's stored record as [company];
    [results.forEach] returns before reading it, so it is left [None]. *)
Record AppointmentResult := {
  ar_item : Appointment;
  ar_company : option Company;
  ar_existingNode : option Node
}.

Definition resolveAppointment (registry : Registry) (currentNodes : list Node)
    (item : Appointment) : AppointmentResult :=
  let nodeId := at_company_number (appointed_to item) in
  match find_node nodeId currentNodes with
  | Some existingNode =>
      {| ar_item := item; ar_company := None; ar_existingNode := Some existingNode |}
  | None =>
      match fetch_company registry nodeId with
      | Returned companyData =>
          {| ar_item := item; ar_company := cp_company companyData;
             ar_existingNode := None |}
      | Threw =>
          {| ar_item := item; ar_company := None; ar_existingNode := None |}
      end
  end.

(** Push the edge [e-<src>-<tgt>] unless an edge of that id is in
    [currentEdges] or already in [newEdges]. *)
Definition pushEdgeIfAbsent (currentEdges : list Edge) (acc : Expansion)
    (existingNode : Node) (e : Edge) : Expansion :=
  {| newNodes := newNodes acc;
     newEdges := if some_edge (edge_id e) currentEdges
                    || some_edge (edge_id e) (newEdges acc)
                 then newEdges acc else newEdges acc ++ [e];
     allNeighbors := allNeighbors acc ++ [existingNode] |}.

(** Body of [results.forEach] in the officer branch. *)
Definition addAppointment (nodeToExpand : Node) (currentNodes : list Node)
    (currentEdges : list Edge) (acc : Expansion) (result : AppointmentResult)
    : Expansion :=
  let item := ar_item result in
  let company := ar_company result in
  let nodeId := at_company_number (appointed_to item) in
  match ar_existingNode result with
  | Some existingNode =>
      pushEdgeIfAbsent currentEdges acc existingNode
        (mkEdge (node_id nodeToExpand) nodeId (app_officer_role item) slate None)
  | None =>
      if some_node nodeId (newNodes acc) then acc else
      let addressEdge :=
        match app_address item with
        | None => []
        | Some itemAddress =>
            match find_address (shortAddressLabel itemAddress) currentNodes with
            | Some existingAddressNode =>
                [mkEdge nodeId (node_id existingAddressNode)
                        (Some "Registered Office") slate None]
            | None => []
            end
        end in
      let newNode :=
        {| node_id := nodeId;
           data :=
             {| label := at_company_name (appointed_to item);
                role := js_or (company ≫= company_type) (Some "Limited Company");
                type := Kind.company;
                subtext :=
                  Some (match company with
                        | Some c => "Inc: " +:+ formatDate (date_of_creation c)
                        | None => "Appointed: " +:+ formatDate (appointed_on item)
                        end);
                status := js_or (company ≫= company_status) (app_company_status item);
                officer_id := None;
                data_address :=
                  match company with
                  | Some c => formatAddress (registered_office_address c)
                  | None => shortAddressLabel <$> app_address item
                  end |};
           node_style := None |} in
      {| newNodes := newNodes acc ++ [newNode];
         newEdges := newEdges acc
                     ++ [mkEdge (node_id nodeToExpand) nodeId (app_officer_role item)
                                slate None]
                     ++ addressEdge;
         allNeighbors := allNeighbors acc ++ [newNode] |}
  end.

(** *** Company branch *)

(** [officer.officer_id ? `officer-${officer.officer_id}`
                        : `officer-${nodeToExpand.id}-${index}`] *)
Definition expansionOfficerId (nodeToExpand : Node) (officer : Officer)
    (index : nat) : string :=
  match js_or (off_officer_id officer) None with
  | Some oid => "officer-" +:+ oid
  | None => "officer-" +:+ node_id nodeToExpand +:+ "-" +:+ pretty index
  end.

(** The address node and correspondence edge of a newly created officer;
    [acc] already holds the officer's node and role edge. *)
Definition addNewOfficerAddress (currentNodes : list Node) (officerId : string)
    (index : nat) (officer : Officer) (acc : Expansion) : Expansion :=
  match off_address officer with
  | None => acc
  | Some _ =>
      match formatAddress (off_address officer) with
      | None => acc
      | Some addressLabel =>
          if String.eqb addressLabel "" then acc else
          match find_address addressLabel currentNodes with
          | Some existingAddress =>
              {| newNodes := newNodes acc;
                 newEdges := newEdges acc
                             ++ [correspondenceEdge officerId (node_id existingAddress)];
                 allNeighbors := allNeighbors acc |}
          | None =>
              match find_address addressLabel (newNodes acc) with
              | Some newAddress =>
                  {| newNodes := newNodes acc;
                     newEdges := newEdges acc
                                 ++ [correspondenceEdge officerId (node_id newAddress)];
                     allNeighbors := allNeighbors acc |}
              | None =>
                  let addressNodeId := slugAddressId addressLabel index in
                  let newAddressNode := addressNode addressNodeId addressLabel in
                  {| newNodes := newNodes acc ++ [newAddressNode];
                     newEdges := newEdges acc
                                 ++ [correspondenceEdge officerId addressNodeId];
                     allNeighbors := allNeighbors acc ++ [newAddressNode] |}
              end
          end
      end
  end.

(** Body of [data.officers.forEach] in the company branch. *)
Definition addCompanyOfficer (nodeToExpand : Node) (currentNodes : list Node)
    (currentEdges : list Edge) (acc : Expansion) (io : nat * Officer) : Expansion :=
  let '(index, officer) := io in
  let officerId := expansionOfficerId nodeToExpand officer index in
  match find_node officerId currentNodes with
  | Some existingNode =>
      pushEdgeIfAbsent currentEdges acc existingNode
        (mkEdge (node_id nodeToExpand) officerId (officer_role officer) slate None)
  | None =>
      if some_node officerId (newNodes acc) then acc else
      let newNode := officerNode officerId officer in
      addNewOfficerAddress currentNodes officerId index officer
        {| newNodes := newNodes acc ++ [newNode];
           newEdges := newEdges acc
                       ++ [mkEdge (node_id nodeToExpand) officerId
                                  (officer_role officer) slate None];
           allNeighbors := allNeighbors acc ++ [newNode] |}
  end.

(** *** Address branch *)

(** Body of [data.items.forEach] in the address branch. *)
Definition addLocatedCompany (nodeToExpand : Node) (currentNodes : list Node)
    (acc : Expansion) (company : Company) : Expansion :=
  let nodeId := company_number company in
  match find_node nodeId currentNodes with
  | Some existingNode =>
      {| newNodes := newNodes acc;
         newEdges := newEdges acc;
         allNeighbors := allNeighbors acc ++ [existingNode] |}
  | None =>
      if some_node nodeId (newNodes acc) then acc else
      let newNode :=
        {| node_id := nodeId;
           data := {| label := company_name company;
                      role := js_or (company_status company) (Some "Company");
                      type := Kind.company;
                      subtext := Some ("Inc: " +:+ formatDate (date_of_creation company));
                      status := company_status company;
                      officer_id := None;
                      data_address := label (data nodeToExpand) |};
           node_style := None |} in
      {| newNodes := newNodes acc ++ [newNode];
         newEdges := newEdges acc
                     ++ [mkEdge (node_id nodeToExpand) nodeId (Some "Registered At")
                                slate None];
         allNeighbors := allNeighbors acc ++ [newNode] |}
  end.

(** [expandSingleNode]: the one-hop neighbours of a node, by kind. Only the
    per-appointment company fetch sits in a [try]/[catch]; the first fetch of
    each branch is awaited bare, so its rejection rejects the call. *)
Definition expandSingleNode (registry : Registry) (nodeToExpand : Node)
    (currentNodes : list Node) (currentEdges : list Edge) : Fetched Expansion :=
  match type (data nodeToExpand), js_or (officer_id (data nodeToExpand)) None with
  | Kind.officer, Some oid =>
      match fetch_appointments registry oid with
      | Threw => Threw
      | Returned None => Returned noExpansion
      | Returned (Some items) =>
          Returned (foldl (addAppointment nodeToExpand currentNodes currentEdges)
                          noExpansion
                          (resolveAppointment registry currentNodes <$> items))
      end
  | Kind.company, _ =>
      match fetch_company registry (node_id nodeToExpand) with
      | Threw => Threw
      | Returned companyData =>
          match cp_officers companyData with
          | None => Returned noExpansion
          | Some officers =>
              Returned (foldl (addCompanyOfficer nodeToExpand currentNodes currentEdges)
                              noExpansion (indexed officers))
          end
      end
  | Kind.address, _ =>
      match search_address registry (label (data nodeToExpand)) with
      | Threw => Threw
      | Returned None => Returned noExpansion
      | Returned (Some items) =>
          Returned (foldl (addLocatedCompany nodeToExpand currentNodes)
                          noExpansion items)
      end
  | _, _ => Returned noExpansion
  end.

(** *** Levels *)

(** [Promise.all]: rejects as soon as one of the promises rejects. *)
Fixpoint promiseAll {A} (ps : list (Fetched A)) : Fetched (list A) :=
  match ps with
  | [] => Returned []
  | Threw :: _ => Threw
  | Returned a :: ps' =>
      match promiseAll ps' with
      | Threw => Threw
      | Returned l => Returned (a :: l)
      end
  end.

(** Body of [result.newNodes.forEach]: a node enters [nextLevelNodes] unless
    its id is in [currentNodes] or already in [nextLevelNodes]. *)
Definition mergeNode (currentNodes : list Node) (nextLevelNodes : list Node)
    (node : Node) : list Node :=
  if some_node (node_id node) currentNodes
     || some_node (node_id node) nextLevelNodes
  then nextLevelNodes else nextLevelNodes ++ [node].

Definition mergeResult (currentNodes : list Node) (nextLevelNodes : list Node)
    (result : Expansion) : list Node :=
  foldl (mergeNode currentNodes) nextLevelNodes (newNodes result).

(** The "filter duplicates" loop over [potentialNextNodes]. *)
Definition uniqueNode (acc : gset string * list Node) (n : Node)
    : gset string * list Node :=
  if decide (node_id n ∈ acc.1) then acc
  else ({[node_id n]} ∪ acc.1, acc.2 ++ [n]).

Definition uniqueNodes (potentialNextNodes : list Node) : list Node :=
  (foldl uniqueNode (∅, []) potentialNextNodes).2.

(** The [for (let i = 0; i < expansionLevel; i++)] loop; [levels] counts the
    iterations that remain. All frontier nodes are expanded against the same
    [currentNodes]/[currentEdges]; their results are merged in frontier
    order. *)
Fixpoint expandLevels (registry : Registry) (levels : nat)
    (currentNodes : list Node) (currentEdges : list Edge)
    (nodesToExpand : list Node) : Fetched (list Node * list Edge) :=
  match levels with
  | O => Returned (currentNodes, currentEdges)
  | S levels' =>
      match promiseAll ((λ node, expandSingleNode registry node currentNodes currentEdges)
                        <$> nodesToExpand) with
      | Threw => Threw
      | Returned expansionResults =>
          let nextLevelNodes := foldl (mergeResult currentNodes) [] expansionResults in
          let currentEdges' := currentEdges ++ concat (newEdges <$> expansionResults) in
          let uniqueNextNodes := uniqueNodes (concat (allNeighbors <$> expansionResults)) in
          let currentNodes' := currentNodes ++ nextLevelNodes in
          match uniqueNextNodes with
          | [] => Returned (currentNodes', currentEdges')
          | _ => expandLevels registry levels' currentNodes' currentEdges' uniqueNextNodes
          end
      end
  end.

(** [getLayoutedElements] hands the graph to the layout library and writes
    each node's [position]; ids, data and edges pass through. *)
Definition getLayoutedElements (nodes : list Node) (edges : list Edge)
    : list Node * list Edge := (nodes, edges).

(** The component state that [handleExpandNetwork] reads and writes;
    [console] collects the messages of [console.error]. *)
Record State := {
  nodes : list Node;
  edges : list Edge;
  selectedNode : option Node;
  expansionLevel : nat;
  loading : bool;
  isDialogOpen : bool;
  error : option string;
  console : list string
}.

(** [handleExpandNetwork]. Every exception of the [try] block is caught, so
    the handler itself always completes; [finally] resets [loading]. *)
Definition handleExpandNetwork (registry : Registry) (st : State) : State :=
  match selectedNode st with
  | None => st
  | Some selected =>
      match expandLevels registry (expansionLevel st) (nodes st) (edges st)
                         [selected] with
      | Returned (currentNodes, currentEdges) =>
          let '(layoutedNodes, layoutedEdges) :=
            getLayoutedElements currentNodes (deduplicateEdges currentEdges) in
          {| nodes := layoutedNodes;
             edges := layoutedEdges;
             selectedNode := selectedNode st;
             expansionLevel := expansionLevel st;
             loading := false;
             isDialogOpen := false;
             error := error st;
             console := console st |}
      | Threw =>
          {| nodes := nodes st;
             edges := edges st;
             selectedNode := selectedNode st;
             expansionLevel := expansionLevel st;
             loading := false;
             isDialogOpen := false;
             error := error st;
             console := console st ++ ["Failed to expand"] |}
      end
  end.

End Engine.

(** * Specification vocabulary *)

(** ** Highlighter *)

Definition links (e : Edge) (x y : string) : Prop :=
  (source e = x ∧ target e = y) ∨ (source e = y ∧ target e = x).

Definition touches (e : Edge) (x : string) : Prop :=
  source e = x ∨ target e = x.

Definition is_kind (nodes : list Node) (i : string) (k : kind) : Prop :=
  type ∘ data <$> find_node i nodes = Some k.

Record bfs_inv (nodes : list Node) (adjacency : gmap string (list Neighbor))
    (a : string) (st : Bfs) : Prop := {
  inv_active : a ∈ connectedNodeIds st;
  inv_queue : ∀ v, v ∈ queue st → v ∈ connectedNodeIds st;
  inv_complete : ∀ v, v ∈ connectedNodeIds st →
    v ∈ queue st ∨ blocked nodes a v = true
    ∨ ∀ nb, nb ∈ default [] (adjacency !! v) →
        nodeId nb ∈ connectedNodeIds st ∧ edgeId nb ∈ connectedEdgeIds st;
  inv_edges : ∀ i, i ∈ connectedEdgeIds st →
    ∃ v nb, v ∈ connectedNodeIds st ∧ blocked nodes a v = false
            ∧ nb ∈ default [] (adjacency !! v) ∧ edgeId nb = i
}.

Definition closed (nodes : list Node) (adjacency : gmap string (list Neighbor))
    (a : string) (S : string → Prop) : Prop :=
  S a ∧ ∀ v nb, S v → blocked nodes a v = false →
                nb ∈ default [] (adjacency !! v) → S (nodeId nb).

(** A set of node ids that the traversal cannot leave. *)
Definition closed_under_edges (nodes : list Node) (edges : list Edge) (a : string)
    (S : string → Prop) : Prop :=
  S a ∧ ∀ e, e ∈ edges →
    (S (source e) → blocked nodes a (source e) = false → S (target e))
    ∧ (S (target e) → blocked nodes a (target e) = false → S (source e)).

(** ** Identities *)

(** The "keep the first of every key" loop, in one shape for
    [deduplicateEdges], [uniqueNodes] and the officer and PSC passes. *)
Definition keep_first {A} (key : A → string) (acc : gset string * list A) (x : A)
    : gset string * list A :=
  if decide (key x ∈ acc.1) then acc else ({[key x]} ∪ acc.1, acc.2 ++ [x]).

(** An id that looks like one the engine makes up for officers, PSCs and
    addresses. *)
Definition synthetic_id (i : string) : bool :=
  String.prefix "officer-" i || String.prefix "psc-" i
  || String.prefix "address-" i.


(** A company number as the registry issues it: eight letters or digits. *)
Definition is_alnum (c : ascii) : bool :=
  let n := nat_of_ascii c in
  (Nat.leb 48 n && Nat.leb n 57) || (Nat.leb 65 n && Nat.leb n 90)
  || (Nat.leb 97 n && Nat.leb n 122).

Fixpoint all_alnum (s : string) : bool :=
  match s with
  | EmptyString => true
  | String c s' => is_alnum c && all_alnum s'
  end.

Definition registry_number (n : string) : bool :=
  (String.length n =? 8) && all_alnum n.

Definition is_digit (c : ascii) : bool :=
  let n := nat_of_ascii c in Nat.leb 48 n && Nat.leb n 57.

Fixpoint all_digits (s : string) : bool :=
  match s with
  | EmptyString => true
  | String c s' => is_digit c && all_digits s'
  end.

(** ** Assembler *)

(** [officerAddressNodes] once the first [k] officers have been processed. *)
Definition addressNodesAfter (company : Company) (officers : list Officer)
    (k : nat) : list Node :=
  (foldl (addOfficerAddress company) ([], []) (indexed (take k officers))).1.

(** The formatted address of an officer, when the address pass handles it:
    the record is present and its projection is not empty. *)
Definition officerAddressLabel (officer : Officer) : option string :=
  match off_address officer with
  | None => None
  | Some _ =>
      match formatAddress (off_address officer) with
      | Some addressLabel =>
          if String.eqb addressLabel "" then None else Some addressLabel
      | None => None
      end
  end.

(** The address-node identity that the assembler gives to the officer at
    position [i]: the value of [addressNodeId] in that iteration. *)
Definition assemblyAddressId (company : Company) (officers : list Officer)
    (i : nat) : option string :=
  officer ← officers !! i;
  addressLabel ← officerAddressLabel officer;
  Some (officerAddressNodeId company (addressNodesAfter company officers i)
                             i officer addressLabel).

(** ** Expansion *)

(** The dedup invariant of a graph. *)
Definition graph_ok (nodes : list Node) (edges : list Edge) : Prop :=
  NoDup (node_id <$> nodes) ∧ NoDup (edge_id <$> edges).

(** The graphs the engine produces: the assembly of a seed payload, and
    what [handleExpandNetwork] turns such a graph into, for any registry,
    selected node and depth. The payload's company number is a registry
    number (see [registry_number]); the assembly rule asks only for what it
    needs of that, a number that is not shaped like a made-up id. *)
Inductive produced (formatDate : option string → string)
    : list Node → list Edge → Prop :=
  | produced_assemble company officers pscs nodes edges :
      synthetic_id (company_number company) = false →
      assemble formatDate company officers pscs = Some (nodes, edges) →
      produced formatDate nodes edges
  | produced_expand registry st :
      produced formatDate (nodes st) (edges st) →
      produced formatDate
        (nodes (handleExpandNetwork formatDate registry st))
        (edges (handleExpandNetwork formatDate registry st)).

(** How the first fetch of [expandSingleNode] ends for a node: its kind
    fetches nothing, the request rejects, the payload comes without the list
    ([items], [officers]) that the branch reads, or with it. *)
Inductive FetchOutcome := NoFetch | FetchThrew | FetchNoData | FetchData.

Definition neighborFetch (registry : Registry) (node : Node) : FetchOutcome :=
  match type (data node), js_or (officer_id (data node)) None with
  | Kind.officer, Some oid =>
      match fetch_appointments registry oid with
      | Threw => FetchThrew
      | Returned None => FetchNoData
      | Returned (Some _) => FetchData
      end
  | Kind.company, _ =>
      match fetch_company registry (node_id node) with
      | Threw => FetchThrew
      | Returned companyData =>
          match cp_officers companyData with
          | None => FetchNoData
          | Some _ => FetchData
          end
      end
  | Kind.address, _ =>
      match search_address registry (label (data node)) with
      | Threw => FetchThrew
      | Returned None => FetchNoData
      | Returned (Some _) => FetchData
      end
  | _, _ => NoFetch
  end.

(** * Example data *)

(** A stand-in for [formatDate]: ['N/A'] for an absent date, as in the
    source; a present date is passed through. *)
Definition exampleFormatDate (d : option string) : string := default "N/A" d.

Definition exampleNode (i : string) (k : kind) : Node :=
  {| node_id := i;
     data := {| label := Some i; role := None; type := k; subtext := None;
                status := None; officer_id := None; data_address := None |};
     node_style := None |}.

Definition exampleEdge (s t : string) : Edge := mkEdge s t None slate None.

(** A company with two officers and nothing else. *)
Definition blockingNodes : list Node :=
  [exampleNode "C" Kind.company; exampleNode "O1" Kind.officer;
   exampleNode "O2" Kind.officer].

Definition blockingEdges : list Edge :=
  [exampleEdge "C" "O1"; exampleEdge "C" "O2"].







Definition mkAddress (line1 town postcode : string) : Address :=
  {| address_line_1 := Some line1; address_line_2 := None;
     locality := Some town; region := None;
     postal_code := Some postcode; country := None |}.

Definition highStreet : Address := mkAddress "1 High St" "London" "AB1 2CD".
Definition highStreetOtherPostcode : Address :=
  mkAddress "1 High St" "London" "ZZ9 9ZZ".
Definition millLane : Address := mkAddress "7 Mill Lane" "Leeds" "LS1 1AA".

Definition mkCompany (number : string) (office : Address) : Company :=
  {| company_number := number; company_name := Some ("Company " +:+ number);
     company_status := Some "active"; company_type := Some "ltd";
     date_of_creation := Some "2001-02-03";
     registered_office_address := Some office |}.

Definition mkOfficer (nm : string) (oid : option string)
    (addr : option Address) : Officer :=
  {| name := Some nm; officer_role := Some "director"; off_officer_id := oid;
     nationality := None; off_address := addr |}.

Definition mkAppointment (number : string) (addr : option Address) : Appointment :=
  {| appointed_to := {| at_company_number := number;
                        at_company_name := Some ("Company " +:+ number) |};
     app_officer_role := Some "director"; appointed_on := None;
     app_address := addr; app_company_status := None |}.

Definition seedCompany : Company := mkCompany "00000006" highStreet.

Definition noData : CompanyPayload :=
  {| cp_company := None; cp_officers := None; cp_pscs := None |}.

(** The seed graph of [seedCompany] with one director, Jane Doe, whose
    registry id is [abc], and the state in which she is selected. *)
Definition janeDoe : Officer := mkOfficer "Jane Doe" (Some "abc") None.

Definition seedGraph : list Node * list Edge :=
  default ([], []) (assemble exampleFormatDate seedCompany [janeDoe] None).

Definition janeNode : Node := officerNode "officer-abc" janeDoe.

Definition seedState (depth : nat) : State :=
  {| nodes := seedGraph.1; edges := seedGraph.2;
     selectedNode := Some janeNode; expansionLevel := depth;
     loading := false; isDialogOpen := true; error := None; console := [] |}.

(** Jane Doe sits on the boards of companies 11111111 and 22222222. The
    registry answers for the first; every request about the second fails. *)
Definition flakyRegistry : Registry :=
  {| fetch_appointments := λ oid,
       if String.eqb oid "abc"
       then Returned (Some [mkAppointment "11111111" None;
                            mkAppointment "22222222" None])
       else Returned None;
     fetch_company := λ number,
       if String.eqb number "11111111"
       then Returned {| cp_company := Some (mkCompany "11111111" millLane);
                        cp_officers := Some [mkOfficer "Ann Lee" (Some "ann") None];
                        cp_pscs := None |}
       else if String.eqb number "22222222" then Threw
       else Returned noData;
     search_address := λ _, Returned None |}.

(** The same boards, where the registry answers for both companies: each
    has a director living at 7 Mill Lane, listed first at 11111111 and
    second at 22222222. *)
Definition sharedAddressRegistry : Registry :=
  {| fetch_appointments := λ oid,
       if String.eqb oid "abc"
       then Returned (Some [mkAppointment "11111111" None;
                            mkAppointment "22222222" None])
       else Returned None;
     fetch_company := λ number,
       if String.eqb number "11111111"
       then Returned {| cp_company := Some (mkCompany "11111111" highStreet);
                        cp_officers := Some [mkOfficer "Ann Lee" (Some "ann")
                                                       (Some millLane)];
                        cp_pscs := None |}
       else if String.eqb number "22222222"
       then Returned {| cp_company := Some (mkCompany "22222222" highStreet);
                        cp_officers := Some [mkOfficer "Bob Ray" (Some "bob") None;
                                             mkOfficer "Cy Dow" (Some "cy")
                                                       (Some millLane)];
                        cp_pscs := None |}
       else Returned noData;
     search_address := λ _, Returned None |}.

(** Jane Doe is also appointed at 33333333, whose appointment record gives
    the seed company's street and town under another postcode. *)
Definition otherPostcodeRegistry : Registry :=
  {| fetch_appointments := λ oid,
       if String.eqb oid "abc"
       then Returned (Some [mkAppointment "33333333" (Some highStreetOtherPostcode)])
       else Returned None;
     fetch_company := λ _, Returned noData;
     search_address := λ _, Returned None |}.

(** A seed payload whose only officer has no resolvable registry id. *)
Definition unnamedOfficer : Officer := mkOfficer "John Roe" None None.

Definition seedRootNode : Node :=
  {| node_id := "00000006";
     data := {| label := company_name seedCompany; role := Some "Target Company";
                type := Kind.company;
                subtext := Some ("Inc: " +:+ exampleFormatDate (date_of_creation seedCompany));
                status := company_status seedCompany; officer_id := None;
                data_address := formatAddress (registered_office_address seedCompany) |};
     node_style := None |}.

Definition seedRegistry : Registry :=
  {| fetch_appointments := λ _, Returned None;
     fetch_company := λ number,
       if String.eqb number "00000006"
       then Returned {| cp_company := Some seedCompany;
                        cp_officers := Some [unnamedOfficer];
                        cp_pscs := None |}
       else Returned noData;
     search_address := λ _, Returned None |}.

(** A payload whose company number collides with the root address slot. *)
Definition collidingCompany : Company := mkCompany "address-1" highStreet.

(** Two directors at the same address and a third elsewhere. *)
Definition threeDirectors : list Officer :=
  [mkOfficer "Ann Lee" (Some "ann") (Some millLane);
   mkOfficer "Bob Ray" None (Some highStreet);
   mkOfficer "Cy Dow" (Some "cy") (Some millLane)].

(** A registry that has a board for 11111111 but whose location search
    finds 00000006, already in the seed graph, next to a new company. *)
Definition locationRegistry : Registry :=
  {| fetch_appointments := λ _, Returned None;
     fetch_company := λ _, Returned noData;
     search_address := λ _,
       Returned (Some [seedCompany; mkCompany "44444444" highStreet]) |}.

Definition rootAddressNode : Node :=
  {| node_id := "address-1";
     data := {| label := Some "1 High St, London";
                role := Some "Registered Address"; type := Kind.address;
                subtext := None; status := None; officer_id := None;
                data_address := None |};
     node_style := None |}.

Definition company1Node : Node := exampleNode "11111111" Kind.company.
Definition company2Node : Node := exampleNode "22222222" Kind.company.

(** * Server side, seed fetch and detail refresh *)

(** ** Exceptions *)

(** A computation that returns, or throws an [Error] whose [error.message]
    is [message]. *)
Inductive Thrown (A : Type) :=
  | Throw (message : string)
  | Ok (a : A).
Global Arguments Throw {A} message.
Global Arguments Ok {A} a.

#[global] Instance Thrown_ret : MRet Thrown := λ A a, Ok a.
#[global] Instance Thrown_bind : MBind Thrown :=
  λ A B f m, match m with Throw message => Throw message | Ok a => f a end.

(** ** Registry client ([fetchFromCompaniesHouse]) *)

(** What one request to the registry does: [fetch] or [response.json()]
    rejects, or the response is not [ok], or the body decodes. *)
Inductive Upstream (A : Type) :=
  | Rejects (message : string)
  | NotOk (code : nat) (statusText : string)
  | Body (body : A).
Global Arguments Rejects {A} message.
Global Arguments NotOk {A} code statusText.
Global Arguments Body {A} body.

(** [apiKey] is the constant of that name,
    [process.env.COMPANIES_HOUSE_API_KEY?.trim()]; [response] is what the
    registry does with the request for the endpoint. *)
Definition fetchFromCompaniesHouse {A} (apiKey : option string)
    (response : Upstream A) : Thrown A :=
  if truthy apiKey then
    match response with
    | Rejects message => Throw message
    | NotOk code statusText =>
        Throw ("Companies House API Error: " +:+ pretty code +:+ " " +:+ statusText)
    | Body body => Ok body
    end
  else Throw "API Key missing".

(** ** Route handlers *)

(** [NextResponse.json(data)] or [NextResponse.json({ error }, { status })]. *)
Inductive RouteResponse (A : Type) :=
  | Json (body : A)
  | JsonError (message : string) (code : nat).
Global Arguments Json {A} body.
Global Arguments JsonError {A} message code.

(** The [try]/[catch] of every handler:
    [{ error: error.message || fallback }] with status 500. *)
Definition catchAll {A} (fallback : string) (m : Thrown A) : RouteResponse A :=
  match m with
  | Ok body => Json body
  | Throw message =>
      JsonError (default fallback (js_or (Some message) None)) 500
  end.

(** An officer as the registry lists it; [ro_appointments] is
    [officer.links?.officer?.appointments]. *)
Record RegistryOfficer := {
  ro_name : option string;
  ro_officer_role : option string;
  ro_nationality : option string;
  ro_address : option Address;
  ro_appointments : option string
}.

(** The registry endpoints the handlers call; a list endpoint is given by
    the [items] of its body. *)
Record CompaniesHouse := {
  ch_company : string → Upstream Company;
  ch_officers : string → Upstream (option (list RegistryOfficer));
  ch_pscs : string → Upstream (option (list Psc));
  ch_search : string → Upstream (option (list Company));
  ch_advanced_search : string → Upstream (option (list Company));
  ch_appointments : string → Upstream (option (list Appointment))
}.

(** [s.split(sep)] for a one-character separator. *)
Fixpoint split (sep : ascii) (s : string) : list string :=
  match s with
  | EmptyString => [""]
  | String c s' =>
      if Ascii.eqb c sep then "" :: split sep s'
      else match split sep s' with
           | [] => [String c ""]
           | part :: parts => String c part :: parts
           end
  end.

(** [appointmentsLink ? appointmentsLink.split('/')[2] : null] *)
Definition officerIdOfLink (appointmentsLink : option string) : option string :=
  if truthy appointmentsLink then
    appointmentsLink ≫= (λ link, split "/" link !! 2)
  else None.

(** The callback of [(officersData.items || []).map(...)]. *)
Definition routeOfficer (officer : RegistryOfficer) : Officer :=
  {| name := ro_name officer;
     officer_role := ro_officer_role officer;
     off_officer_id := officerIdOfLink (ro_appointments officer);
     nationality := ro_nationality officer;
     off_address := ro_address officer |}.

(** [GET /api/company/[id]] *)
Definition companyRoute (apiKey : option string) (ch : CompaniesHouse)
    (id : string) : RouteResponse CompanyPayload :=
  catchAll "Internal Server Error"
    (companyProfile ← fetchFromCompaniesHouse apiKey (ch_company ch id);
     officersData ← fetchFromCompaniesHouse apiKey (ch_officers ch id);
     let officers := routeOfficer <$> default [] officersData in
     pscData ← fetchFromCompaniesHouse apiKey (ch_pscs ch id);
     mret {| cp_company := Some companyProfile;
             cp_officers := Some officers;
             cp_pscs := Some (default [] pscData) |}).

(** [GET /api/search?q=...] *)
Definition searchRoute (apiKey : option string) (ch : CompaniesHouse)
    (q : option string) : RouteResponse (option (list Company)) :=
  match js_or q None with
  | None => JsonError "Query parameter 'q' is required" 400
  | Some q => catchAll "Internal Server Error"
                (fetchFromCompaniesHouse apiKey (ch_search ch q))
  end.

(** [GET /api/search/address?location=...] *)
Definition addressRoute (apiKey : option string) (ch : CompaniesHouse)
    (location : option string) : RouteResponse (option (list Company)) :=
  match js_or location None with
  | None => JsonError "Location parameter is required" 400
  | Some location => catchAll "Failed to search address"
                       (fetchFromCompaniesHouse apiKey
                          (ch_advanced_search ch location))
  end.

(** [GET /api/officer/[id]/appointments] *)
Definition appointmentsRoute (apiKey : option string) (ch : CompaniesHouse)
    (id : string) : RouteResponse (option (list Appointment)) :=
  catchAll "Internal Server Error"
    (fetchFromCompaniesHouse apiKey (ch_appointments ch id)).

(** ** Seed fetch ([fetchData]) *)

(** The decoded answers of [/api/search] and [/api/company/<number>]. *)
Record SearchPayload := {
  sp_error : option string;
  sp_items : option (list Company)
}.

Record SeedPayload := {
  seed_error : option string;
  seed_company : option Company;
  seed_officers : option (list Officer);
  seed_pscs : option (list Psc)
}.

(** [await fetch(url)] followed by [await res.json()], for the two urls of
    [fetchData]; either may reject. *)
Record SeedApi := {
  api_search : string → Thrown SearchPayload;
  api_company : string → Thrown SeedPayload
}.

(** The [companyNode] literal of [fetchData]. *)
Definition companyNode (formatDate : option string → string)
    (company : Company) : Node :=
  {| node_id := company_number company;
     data := {| label := company_name company;
                role := Some "Target Company";
                type := Kind.company;
                subtext := Some ("Inc: " +:+ formatDate (date_of_creation company));
                status := company_status company;
                officer_id := None;
                data_address := formatAddress (registered_office_address company) |};
     node_style := None |}.

Section SeedFetch.

Variable formatDate : option string → string.

(** [isNaN(Number(query))] *)
Variable isNaN_Number : string → bool.

(** The message of the [TypeError] that reading the named property of
    [undefined] raises. *)
Variable typeErrorMessage : string → string.

(** The first part of the [try] block: the company number to load. The
    query has one byte per UTF-16 code unit. *)
Definition resolveCompanyNumber (api : SeedApi) (query : string) : Thrown string :=
  if negb (String.length query =? 8) || isNaN_Number query then
    searchData ← api_search api query;
    match js_or (sp_error searchData) None with
    | Some message => Throw message
    | None =>
        match sp_items searchData with
        | Some (first :: _) => Ok (company_number first)
        | _ => Throw "No company found"
        end
    end
  else Ok query.

(** The rest of the [try] block up to the layout: the root node and the
    graph, or the error thrown on the way. *)
Definition buildGraph (payload : SeedPayload)
    : Thrown (Node * (list Node * list Edge)) :=
  match js_or (seed_error payload) None with
  | Some message => Throw message
  | None =>
      match seed_company payload with
      | None => Throw (typeErrorMessage "company_number")
      | Some company =>
          match seed_officers payload with
          | None => Throw (typeErrorMessage "forEach")
          | Some officers =>
              match assemble formatDate company officers (seed_pscs payload) with
              | None => Throw (typeErrorMessage "address_line_1")
              | Some graph => Ok (companyNode formatDate company, graph)
              end
          end
      end
  end.

(** The effect on [query]: nothing for an empty query, else [fetchData]. *)
Definition fetchData (api : SeedApi) (query : string) (st : State) : State :=
  if String.eqb query "" then st else
  match companyNumber ← resolveCompanyNumber api query;
        payload ← api_company api companyNumber;
        buildGraph payload with
  | Ok (root, (assembledNodes, assembledEdges)) =>
      let '(layoutedNodes, layoutedEdges) :=
        getLayoutedElements assembledNodes assembledEdges in
      {| nodes := layoutedNodes;
         edges := layoutedEdges;
         selectedNode := Some root;
         expansionLevel := expansionLevel st;
         loading := false;
         isDialogOpen := isDialogOpen st;
         error := None;
         console := console st |}
  | Throw message =>
      {| nodes := nodes st;
         edges := edges st;
         selectedNode := selectedNode st;
         expansionLevel := expansionLevel st;
         loading := false;
         isDialogOpen := isDialogOpen st;
         error := js_or (Some message) (Some "Failed to load data");
         console := console st ++ ["Failed to fetch graph data"] |}
  end.

End SeedFetch.

(** ** Detail refresh ([onNodeUpdate]) *)

(** The object that [NodeDetailsPanel] passes to [onNodeUpdate]:
    [{ source, subtext, status, address }]. *)
Record NodeUpdate := {
  upd_subtext : string;
  upd_status : option string;
  upd_address : string
}.

(** [{ ...data, ...updatedData }] *)
Definition mergeData (d : NodeData) (updatedData : NodeUpdate) : NodeData :=
  {| label := label d;
     role := role d;
     type := type d;
     subtext := Some (upd_subtext updatedData);
     status := upd_status updatedData;
     officer_id := officer_id d;
     data_address := Some (upd_address updatedData) |}.

Definition updateNode (updatedData : NodeUpdate) (node : Node) : Node :=
  {| node_id := node_id node;
     data := mergeData (data node) updatedData;
     node_style := node_style node |}.

(** The [onNodeUpdate] callback of [GraphCanvas]. *)
Definition onNodeUpdate (updatedData : NodeUpdate) (st : State) : State :=
  {| nodes := (λ node,
                 match selectedNode st with
                 | Some selected =>
                     if String.eqb (node_id node) (node_id selected)
                     then updateNode updatedData node else node
                 | None => node
                 end) <$> nodes st;
     edges := edges st;
     selectedNode := updateNode updatedData <$> selectedNode st;
     expansionLevel := expansionLevel st;
     loading := loading st;
     isDialogOpen := isDialogOpen st;
     error := error st;
     console := console st |}.

(** ** From a route to its caller *)

(** The body of a [/api/company] response as [res.json()] decodes it in
    the browser: the payload, or [{ error }]. *)
Definition seedPayloadOf (response : RouteResponse CompanyPayload) : SeedPayload :=
  match response with
  | Json payload =>
      {| seed_error := None;
         seed_company := cp_company payload;
         seed_officers := cp_officers payload;
         seed_pscs := cp_pscs payload |}
  | JsonError message _ =>
      {| seed_error := Some message;
         seed_company := None;
         seed_officers := None;
         seed_pscs := None |}
  end.

(** Example registries. *)
Definition silentRegistry : CompaniesHouse :=
  {| ch_company := λ _, Rejects "";
     ch_officers := λ _, Rejects "";
     ch_pscs := λ _, Rejects "";
     ch_search := λ _, Rejects "";
     ch_advanced_search := λ _, Rejects "";
     ch_appointments := λ _, Rejects "" |}.

Definition annLee : RegistryOfficer :=
  {| ro_name := Some "Ann Lee"; ro_officer_role := Some "director";
     ro_nationality := None; ro_address := None;
     ro_appointments := Some "/officers/ann/appointments" |}.

(** A registry that knows [seedCompany] and its director Ann Lee. *)
Definition seedCompaniesHouse : CompaniesHouse :=
  {| ch_company := λ id,
       if String.eqb id "00000006" then Body seedCompany
       else NotOk 404 "Not Found";
     ch_officers := λ id,
       if String.eqb id "00000006" then Body (Some [annLee])
       else NotOk 404 "Not Found";
     ch_pscs := λ id,
       if String.eqb id "00000006" then Body None
       else NotOk 404 "Not Found";
     ch_search := λ _, Body None;
     ch_advanced_search := λ _, Body None;
     ch_appointments := λ _, Body None |}.

(** A browser in front of the routes of a server with the given key. *)
Definition exampleApi (apiKey : option string) (ch : CompaniesHouse) : SeedApi :=
  {| api_search := λ _, Throw "offline";
     api_company := λ number, Ok (seedPayloadOf (companyRoute apiKey ch number)) |}.

Definition exampleIsNaN (query : string) : bool := negb (all_digits query).

Definition exampleTypeError (property : string) : string :=
  "Cannot read properties of undefined (reading '" +:+ property +:+ "')".

Definition emptyState : State :=
  {| nodes := []; edges := []; selectedNode := None; expansionLevel := 1;
     loading := true; isDialogOpen := false; error := None; console := [] |}.

Definition seedState0 : State := seedState 1.

(** * Further vocabulary *)

(** The traversal rule of the highlighter, as a relation: a node is reached
    from the active node [a] by following edges in either direction, never
    continuing from a company node other than [a]. *)
Inductive reach (nodes : list Node) (edges : list Edge) (a : string)
    : string → Prop :=
  | reach_active : reach nodes edges a a
  | reach_step v w e :
      reach nodes edges a v → blocked nodes a v = false →
      e ∈ edges → links e v w → reach nodes edges a w.

(** An edge with its two ends exchanged. *)
Definition flipEdge (e : Edge) : Edge :=
  {| edge_id := edge_id e; source := target e; target := source e;
     edge_label := edge_label e; edge_style := edge_style e |}.

(** [edges.find(e => e.id === i)]: the edge that a lookup by id returns. *)
Definition find_edge (i : string) (edges : list Edge) : option Edge :=
  List.find (λ e, String.eqb (edge_id e) i) edges.

(** No component of the address record is a non-empty string. *)
Definition blankAddress (a : Address) : Prop :=
  truthy (address_line_1 a) = false ∧ truthy (address_line_2 a) = false
  ∧ truthy (locality a) = false ∧ truthy (region a) = false
  ∧ truthy (postal_code a) = false ∧ truthy (country a) = false.

(** No dangling edge: both ends of every edge are ids of nodes. *)
Definition endpoints_exist (nodes : list Node) (edges : list Edge) : Prop :=
  ∀ e, e ∈ edges →
    source e ∈ node_id <$> nodes ∧ target e ∈ node_id <$> nodes.

(** The officer nodes the first [officers.forEach] would make without its
    duplicate check, one per officer. *)
Definition allOfficerNodes (officers : list Officer) : list Node :=
  imap (λ index officer, officerNode (assemblyOfficerId officer index) officer)
       officers.

(** The character does not occur in the string. *)
Fixpoint lacks (c : ascii) (s : string) : bool :=
  match s with
  | EmptyString => true
  | String d s' => negb (Ascii.eqb c d) && lacks c s'
  end.

(** The kinds of node that expanding a node of a given kind may create. *)
Definition allowedNew (expanded created : kind) : Prop :=
  match expanded with
  | Kind.officer => created = Kind.company
  | Kind.company => created = Kind.officer ∨ created = Kind.address
  | Kind.address => created = Kind.company
  | Kind.psc => False
  end.

(** The result of expanding [nodeToExpand] against [currentNodes] hangs
    together: every new edge starts at the expanded node or at a known or
    new node and ends at a known or new node, and every neighbour is a known
    or new node. *)
Definition wellLinked (nodeToExpand : Node) (currentNodes : list Node)
    (r : Expansion) : Prop :=
  (∀ e, e ∈ newEdges r →
     (source e = node_id nodeToExpand
      ∨ source e ∈ node_id <$> currentNodes ++ newNodes r)
     ∧ target e ∈ node_id <$> currentNodes ++ newNodes r)
  ∧ (∀ n, n ∈ allNeighbors r →
       node_id n ∈ node_id <$> currentNodes ++ newNodes r).

(** What every step of the three branches keeps. *)
Definition branch_inv (nodeToExpand : Node) (currentNodes : list Node)
    (acc : Expansion) : Prop :=
  (∀ n, n ∈ newNodes acc →
     allowedNew (type (data nodeToExpand)) (type (data n)))
  ∧ wellLinked nodeToExpand currentNodes acc.


(** [r] is [acc] with more nodes, edges and neighbours pushed. *)
Definition extends (acc r : Expansion) : Prop :=
  (∃ more, newNodes r = newNodes acc ++ more)
  ∧ (∃ more, newEdges r = newEdges acc ++ more).

(** The neighbour with id [key] and the edge with id [edgeKey] are known,
    in the graph or in the expansion so far. *)
Definition covered (currentNodes : list Node) (currentEdges : list Edge)
    (acc : Expansion) (key edgeKey : string) : Prop :=
  key ∈ node_id <$> currentNodes ++ newNodes acc
  ∧ edgeKey ∈ edge_id <$> currentEdges ++ newEdges acc.

(** Every new node whose id satisfies [p] has its edge from the expanded
    node among the new edges. *)
Definition edged (p : string → bool) (nodeToExpand : Node) (acc : Expansion)
    : Prop :=
  ∀ n, n ∈ newNodes acc → p (node_id n) = true →
    "e-" +:+ node_id nodeToExpand +:+ "-" +:+ node_id n
    ∈ edge_id <$> newEdges acc.

(** An expansion that found nothing to add to the graph. *)
Definition nothingNew (r : Expansion) : Prop :=
  newNodes r = [] ∧ newEdges r = [].

(** The seed company with two persons with significant control. *)
Definition examplePscs : list Psc :=
  [{| psc_name := Some "Eve Fox";
      natures_of_control := Some ["ownership-of-shares-75-to-100-percent"];
      psc_nationality := Some "British" |};
   {| psc_name := Some "Eve Fox";
      natures_of_control := None;
      psc_nationality := Some "British" |}].

Definition pscGraph : list Node * list Edge :=
  default ([], [])
    (assemble exampleFormatDate seedCompany [janeDoe] (Some examplePscs)).

(** * Lookups by identity *)

Lemma find_node_Some i (nodes : list Node) n :
  find_node i nodes = Some n → n ∈ nodes ∧ node_id n = i.
Proof.
  unfold find_node. intros H. apply find_some in H as [Hin Heq].
  split; [by apply list_elem_of_In | by apply String.eqb_eq].
Qed.

Lemma find_node_None i (nodes : list Node) :
  find_node i nodes = None ↔ i ∉ node_id <$> nodes.
Proof.
  unfold find_node. split.
  - intros H (n & -> & Hn)%list_elem_of_fmap.
    apply list_elem_of_In in Hn.
    pose proof (find_none _ _ H n Hn) as Hf. cbn in Hf.
    by rewrite String.eqb_refl in Hf.
  - intros H. destruct (find _ nodes) as [n|] eqn:E; [|done].
    apply find_some in E as [Hin Heq]. destruct H.
    apply list_elem_of_fmap. exists n.
    split; [symmetry; by apply String.eqb_eq | by apply list_elem_of_In].
Qed.

Lemma some_node_true i (nodes : list Node) :
  some_node i nodes = true ↔ i ∈ node_id <$> nodes.
Proof.
  unfold some_node. rewrite existsb_exists, list_elem_of_fmap.
  split; intros (n & H1 & H2).
  - exists n. split; [symmetry; by apply String.eqb_eq | by apply list_elem_of_In].
  - exists n. split; [by apply list_elem_of_In | apply String.eqb_eq; by symmetry].
Qed.

Lemma some_node_false i (nodes : list Node) :
  some_node i nodes = false ↔ i ∉ node_id <$> nodes.
Proof.
  rewrite <- some_node_true. destruct (some_node i nodes); split; congruence.
Qed.

Lemma some_edge_true i (edges : list Edge) :
  some_edge i edges = true ↔ i ∈ edge_id <$> edges.
Proof.
  unfold some_edge. rewrite existsb_exists, list_elem_of_fmap.
  split; intros (n & H1 & H2).
  - exists n. split; [symmetry; by apply String.eqb_eq | by apply list_elem_of_In].
  - exists n. split; [by apply list_elem_of_In | apply String.eqb_eq; by symmetry].
Qed.

Lemma NoDup_fmap_inj_on {A B} (f : A → B) (l : list A) x y :
  NoDup (f <$> l) → x ∈ l → y ∈ l → f x = f y → x = y.
Proof.
  induction l as [|z l IH]; cbn; intros Hnd Hx Hy Heq.
  - by apply elem_of_nil in Hx.
  - apply NoDup_cons in Hnd as [Hz Hnd].
    apply elem_of_cons in Hx as [-> | Hx], Hy as [-> | Hy]; [done|..|by apply IH].
    + destruct Hz. rewrite Heq. apply list_elem_of_fmap. eauto.
    + destruct Hz. rewrite <- Heq. apply list_elem_of_fmap. eauto.
Qed.

(** The "keep the first of every key" loop, shared by [deduplicateEdges],
    [uniqueNodes] and the officer and PSC passes of the assembler. *)
Section KeepFirst.

Context {A : Type} (key : A → string).

Lemma keep_first_fold (l : list A) : ∀ acc,
  (∀ k, k ∈ acc.1 ↔ k ∈ key <$> acc.2) →
  NoDup (key <$> acc.2) →
  let r := foldl (keep_first key) acc l in
  (∀ k, k ∈ r.1 ↔ k ∈ key <$> r.2)
  ∧ NoDup (key <$> r.2)
  ∧ (∀ x, x ∈ r.2 → x ∈ acc.2 ∨ x ∈ l)
  ∧ (∀ k, k ∈ key <$> r.2 ↔ k ∈ key <$> acc.2 ∨ k ∈ key <$> l).
Proof.
  induction l as [|x l IH]; intros acc Hseen Hnd; cbn.
  - split; [done|]. split; [done|]. split; [by left|].
    intros k. split; [by left|]. intros [?|H]; [done|]. by apply elem_of_nil in H.
  - destruct (IH (keep_first key acc x)) as (H1 & H2 & H3 & H4).
    + unfold keep_first. case_decide; [done|]. cbn. intros k.
      rewrite fmap_app, elem_of_app, elem_of_union, elem_of_singleton, Hseen. cbn.
      rewrite list_elem_of_singleton. tauto.
    + unfold keep_first. case_decide as Hd; [done|]. cbn.
      rewrite fmap_app. apply NoDup_app. split; [done|]. split.
      * intros k Hk ->%list_elem_of_singleton. apply Hd. by apply Hseen.
      * cbn. apply NoDup_singleton.
    + split; [done|]. split; [done|]. split.
      * intros y Hy. destruct (H3 y Hy) as [Hacc|?]; [|right; by right].
        unfold keep_first in Hacc. case_decide; [by left|]. cbn in Hacc.
        apply elem_of_app in Hacc as [? | ->%list_elem_of_singleton]; [by left|].
        right; left.
      * intros k. rewrite H4. unfold keep_first. rewrite elem_of_cons.
        case_decide as Hd; cbn.
        -- split; [tauto|]. intros [? | [-> | ?]]; auto. left. by apply Hseen.
        -- rewrite fmap_app, elem_of_app. cbn. rewrite list_elem_of_singleton. tauto.
Qed.

Lemma keep_first_NoDup (l : list A) :
  NoDup (key <$> (foldl (keep_first key) (∅, []) l).2).
Proof.
  apply (keep_first_fold l (∅, [])); cbn; [|constructor].
  intros k. split; [set_solver|]. intros H. by apply elem_of_nil in H.
Qed.

Lemma keep_first_keys (l : list A) k :
  k ∈ key <$> (foldl (keep_first key) (∅, []) l).2 ↔ k ∈ key <$> l.
Proof.
  destruct (keep_first_fold l (∅, [])) as (_ & _ & _ & H); cbn.
  - intros k'. split; [set_solver|]. intros H. by apply elem_of_nil in H.
  - constructor.
  - rewrite H. cbn. split; [|by right]. intros [H'|?]; [|done]. by apply elem_of_nil in H'.
Qed.

Lemma keep_first_sub (l : list A) x :
  x ∈ (foldl (keep_first key) (∅, []) l).2 → x ∈ l.
Proof.
  destruct (keep_first_fold l (∅, [])) as (_ & _ & H & _); cbn.
  - intros k'. split; [set_solver|]. intros H. by apply elem_of_nil in H.
  - constructor.
  - intros Hx. destruct (H x Hx) as [H'|?]; [|done]. by apply elem_of_nil in H'.
Qed.

End KeepFirst.

Lemma deduplicateEdges_keep_first edges :
  deduplicateEdges edges = (foldl (keep_first edge_id) (∅, []) edges).2.
Proof. reflexivity. Qed.

Lemma deduplicateEdges_NoDup edges : NoDup (edge_id <$> deduplicateEdges edges).
Proof. rewrite deduplicateEdges_keep_first. apply keep_first_NoDup. Qed.

Lemma uniqueNodes_NoDup potentialNextNodes :
  NoDup (node_id <$> uniqueNodes potentialNextNodes).
Proof. apply (keep_first_NoDup node_id). Qed.

(** * Printed indices *)

Lemma pretty_N_char_digit x : is_digit (pretty_N_char x) = true.
Proof. unfold pretty_N_char. by repeat case_match. Qed.

Lemma pretty_N_go_digits x : ∀ s,
  all_digits s = true → all_digits (pretty_N_go x s) = true.
Proof.
  induction (N.lt_wf_0 x) as [x _ IH]; intros s Hs.
  destruct (decide (x = 0)%N) as [->|Hx]; [by rewrite pretty_N_go_0|].
  rewrite pretty_N_go_step by lia. apply IH.
  - apply N.div_lt; lia.
  - cbn. by rewrite pretty_N_char_digit.
Qed.

Lemma pretty_nat_digits (n : nat) : all_digits (pretty n) = true.
Proof.
  unfold pretty, pretty_nat, pretty, pretty_N.
  case_decide; [done|]. by apply pretty_N_go_digits.
Qed.

Lemma digits_dash_inj s1 : ∀ s2 x y,
  all_digits s1 = true → all_digits s2 = true →
  s1 +:+ "-" +:+ x = s2 +:+ "-" +:+ y → s1 = s2.
Proof.
  induction s1 as [|c s1 IH]; intros [|d s2] x y H1 H2 Heq; cbn in *.
  - done.
  - injection Heq as <- _. done.
  - injection Heq as -> _. done.
  - apply andb_prop in H1 as [_ H1], H2 as [_ H2].
    injection Heq as <- Heq. f_equal. by eapply IH.
Qed.

Lemma indexed_id_inj (p : string) (i j : nat) x y :
  p +:+ pretty i +:+ "-" +:+ x = p +:+ pretty j +:+ "-" +:+ y → i = j.
Proof.
  intros Heq. apply (inj pretty).
  eapply digits_dash_inj; [apply pretty_nat_digits..|].
  induction p as [|c p IH]; cbn in Heq; [done|]. injection Heq as Heq. by apply IH.
Qed.

Lemma indexed_id_not_bare (p : string) (i : nat) x :
  p +:+ pretty i +:+ "-" +:+ x ≠ p +:+ "1".
Proof.
  intros Heq.
  assert (H : pretty i +:+ "-" +:+ x = "1").
  { induction p as [|c p IH]; cbn in Heq; [done|]. injection Heq as Heq. by apply IH. }
  destruct (pretty i) as [|c [|d r]]; cbn in H; discriminate.
Qed.

(** * Properties of the connectivity highlighter *)

Lemma adjacency_add_lookup adj e v :
  default [] (adjacency_add adj e !! v)
  = default [] (adj !! v)
    ++ (if decide (source e = v) then [{| nodeId := target e; edgeId := edge_id e |}] else [])
    ++ (if decide (target e = v) then [{| nodeId := source e; edgeId := edge_id e |}] else []).
Proof.
  unfold adjacency_add.
  set (a1 := if decide (is_Some (adj !! source e)) then adj else <[source e:=[]]> adj).
  set (a2 := if decide (is_Some (a1 !! target e)) then a1 else <[target e:=[]]> a1).
  assert (H1 : ∀ w, default [] (a1 !! w) = default [] (adj !! w)).
  { intros w. unfold a1. case_decide as Hs; [done|].
    destruct (decide (source e = w)) as [<-|Hne].
    - rewrite lookup_insert_eq. destruct (adj !! source e) eqn:E; [|done].
      destruct Hs; eauto.
    - by rewrite lookup_insert_ne. }
  assert (H1s : is_Some (a1 !! source e)).
  { unfold a1. case_decide; [done|]. rewrite lookup_insert_eq; eauto. }
  assert (H2 : ∀ w, default [] (a2 !! w) = default [] (adj !! w)).
  { intros w. rewrite <- H1. unfold a2. case_decide as Hs; [done|].
    destruct (decide (target e = w)) as [<-|Hne].
    - rewrite lookup_insert_eq. destruct (a1 !! target e) eqn:E; [|done].
      destruct Hs; eauto.
    - by rewrite lookup_insert_ne. }
  assert (H2s : is_Some (a2 !! source e)).
  { unfold a2. case_decide; [done|].
    destruct (decide (target e = source e)) as [->|Hne].
    - rewrite lookup_insert_eq; eauto.
    - by rewrite lookup_insert_ne. }
  assert (H2t : is_Some (a2 !! target e)).
  { unfold a2. case_decide; [done|]. rewrite lookup_insert_eq; eauto. }
  rewrite !lookup_alter.
  destruct H2s as [ls Hls], H2t as [lt Hlt].
  specialize (H2 v).
  repeat case_decide; simplify_eq; rewrite ?Hls, ?Hlt in *; simpl in *;
    rewrite ?app_nil_r; try congruence.
  all: try (rewrite Hls in Hlt; simplify_eq; simpl; by rewrite <- app_assoc).
  match goal with H : source e = target e |- _ => rewrite H in Hls end.
  rewrite Hls in Hlt. simplify_eq. by rewrite <- app_assoc.
Qed.

Lemma build_adjacency_snoc edges e :
  build_adjacency (edges ++ [e]) = adjacency_add (build_adjacency edges) e.
Proof. unfold build_adjacency. by rewrite foldl_app. Qed.

Lemma elem_of_neighbors edges v nb :
  nb ∈ default [] (build_adjacency edges !! v) ↔
  ∃ e, e ∈ edges
       ∧ ((source e = v ∧ nb = {| nodeId := target e; edgeId := edge_id e |})
          ∨ (target e = v ∧ nb = {| nodeId := source e; edgeId := edge_id e |})).
Proof.
  induction edges as [|e edges IH] using rev_ind.
  - cbn. rewrite lookup_empty. cbn. split.
    + intros H. by apply elem_of_nil in H.
    + intros (e & H & _). by apply elem_of_nil in H.
  - rewrite build_adjacency_snoc, adjacency_add_lookup, !elem_of_app, IH.
    split.
    + intros [(e' & He' & H)|[H|H]].
      * exists e'. split; [apply elem_of_app; by left | done].
      * case_decide; [|by apply elem_of_nil in H].
        apply list_elem_of_singleton in H. exists e.
        split; [apply elem_of_app; right; by apply list_elem_of_singleton | by left].
      * case_decide; [|by apply elem_of_nil in H].
        apply list_elem_of_singleton in H. exists e.
        split; [apply elem_of_app; right; by apply list_elem_of_singleton | by right].
    + intros (e' & He' & H). apply elem_of_app in He' as [He'|He'].
      * left. by exists e'.
      * apply list_elem_of_singleton in He' as ->. right.
        destruct H as [[<- ->]|[<- ->]].
        -- left. rewrite decide_True by done. by apply list_elem_of_singleton.
        -- right. rewrite decide_True by done. by apply list_elem_of_singleton.
Qed.

Lemma visit_fold l : ∀ st,
  connectedNodeIds (foldl visit_neighbor st l)
    = connectedNodeIds st ∪ list_to_set (nodeId <$> l)
  ∧ connectedEdgeIds (foldl visit_neighbor st l)
    = connectedEdgeIds st ∪ list_to_set (edgeId <$> l)
  ∧ ∃ added, queue (foldl visit_neighbor st l) = queue st ++ added
      ∧ NoDup added
      ∧ ∀ x, x ∈ added ↔ x ∈ nodeId <$> l ∧ x ∉ connectedNodeIds st.
Proof.
  induction l as [|nb l IH]; intros st.
  - cbn. split; [set_solver|]. split; [set_solver|].
    exists []. rewrite app_nil_r. split; [done|]. split; [constructor|].
    intros x. split; [intros H; by apply elem_of_nil in H | intros [H _]; by apply elem_of_nil in H].
  - cbn [foldl fmap list_fmap].
    destruct (IH (visit_neighbor st nb)) as (Hn & He & added & Hq & Hnd & Hadd).
    rewrite Hn, He, Hq. unfold visit_neighbor in *.
    destruct (decide (nodeId nb ∈ connectedNodeIds st)) as [Hin|Hnin]; cbn in *.
    + split; [set_solver|]. split; [set_solver|].
      exists added. split; [done|]. split; [done|].
      intros x. rewrite Hadd. set_solver.
    + split; [set_solver|]. split; [set_solver|].
      exists (nodeId nb :: added). split; [by rewrite <- app_assoc|].
      split.
      * constructor; [|done]. rewrite Hadd. set_solver.
      * intros x. rewrite elem_of_cons, Hadd.
        destruct (decide (x = nodeId nb)) as [->|Hne]; set_solver.
Qed.



Section Traversal.

Variables (nodes : list Node) (adjacency : gmap string (list Neighbor)) (a : string).

Lemma bfs_loop_invariant (P : Bfs → Prop) :
  (∀ st, P st → P (bfs_step nodes adjacency a st)) →
  ∀ fuel st, P st → P (bfs_loop fuel nodes adjacency a st).
Proof.
  intros Hstep fuel. induction fuel as [|fuel IH]; intros st Hst; cbn; [done|].
  destruct (queue st) eqn:Hq; [done|]. by apply IH, Hstep.
Qed.

Lemma bfs_step_inv st : bfs_inv nodes adjacency a st → bfs_inv nodes adjacency a (bfs_step nodes adjacency a st).
Proof.
  intros [Ha Hq Hc He]. unfold bfs_step.
  destruct (queue st) as [|v rest] eqn:Hqueue; [by constructor; rewrite ?Hqueue|].
  assert (Hv : v ∈ connectedNodeIds st) by (apply Hq; left).
  destruct (blocked nodes a v) eqn:Hb.
  - constructor; cbn; [done|..].
    + intros w Hw. apply Hq. by right.
    + intros w Hw. destruct (Hc w Hw) as [Hin|[?|?]]; [|by auto..].
      apply elem_of_cons in Hin as [->|?]; auto.
    + done.
  - set (st' := {| connectedNodeIds := connectedNodeIds st;
                   connectedEdgeIds := connectedEdgeIds st; queue := rest |}).
    destruct (visit_fold (default [] (adjacency !! v)) st')
      as (Hn & Hes & added & Hqa & _ & Hadd).
    cbn in Hn, Hes, Hqa, Hadd.
    constructor; rewrite ?Hn, ?Hes, ?Hqa.
    + set_solver.
    + intros w [Hw|Hw]%elem_of_app.
      * apply elem_of_union; left. apply Hq. by right.
      * apply Hadd in Hw as [Hw _]. apply elem_of_union; right.
        by apply elem_of_list_to_set.
    + intros w Hw. destruct (decide (w ∈ connectedNodeIds st)) as [Hin|Hnin].
      * destruct (Hc w Hin) as [Hwq|[?|Hall]].
        -- apply elem_of_cons in Hwq as [->|?].
           ++ right; right. intros nb Hnb. split.
              ** apply elem_of_union; right. apply elem_of_list_to_set.
                 apply list_elem_of_fmap. eauto.
              ** apply elem_of_union; right. apply elem_of_list_to_set.
                 apply list_elem_of_fmap. eauto.
           ++ left. apply elem_of_app. by left.
        -- by auto.
        -- right; right. intros nb Hnb. destruct (Hall nb Hnb). set_solver.
      * left. apply elem_of_app; right. apply Hadd. split; [|done].
        apply elem_of_union in Hw as [?|Hw]; [done|].
        by apply elem_of_list_to_set in Hw.
    + intros i [Hi|Hi]%elem_of_union.
      * destruct (He i Hi) as (w & nb & ? & ? & ? & ?). exists w, nb.
        split; [set_solver|done].
      * apply elem_of_list_to_set, list_elem_of_fmap in Hi as (nb & -> & Hnb).
        exists v, nb. split; [set_solver|done].
Qed.

Lemma bfs_step_closed (S : string → Prop) st :
  closed nodes adjacency a S →
  (∀ v, v ∈ queue st → v ∈ connectedNodeIds st) →
  (∀ v, v ∈ connectedNodeIds st → S v) →
  ∀ v, v ∈ connectedNodeIds (bfs_step nodes adjacency a st) → S v.
Proof.
  intros [_ Hcl] Hq HS. unfold bfs_step.
  destruct (queue st) as [|v rest] eqn:Hqueue; [done|].
  destruct (blocked nodes a v) eqn:Hb; [done|].
  set (st' := {| connectedNodeIds := connectedNodeIds st;
                 connectedEdgeIds := connectedEdgeIds st; queue := rest |}).
  destruct (visit_fold (default [] (adjacency !! v)) st') as (Hn & _).
  rewrite Hn. cbn. intros w [Hw|Hw]%elem_of_union; [by apply HS|].
  apply elem_of_list_to_set, list_elem_of_fmap in Hw as (nb & -> & Hnb).
  apply (Hcl v nb); [apply HS, Hq; left|done..].
Qed.

Lemma bfs_drained (U : gset string) :
  (∀ v nb, nb ∈ default [] (adjacency !! v) → nodeId nb ∈ U) →
  ∀ fuel st,
    connectedNodeIds st ⊆ U →
    size (U ∖ connectedNodeIds st) + length (queue st) ≤ fuel →
    queue (bfs_loop fuel nodes adjacency a st) = [].
Proof.
  intros HU fuel. induction fuel as [|fuel IH]; intros st Hsub Hm; cbn.
  - destruct (queue st); [done|cbn in Hm; lia].
  - destruct (queue st) as [|v rest] eqn:Hqueue; [done|].
    apply IH; unfold bfs_step; rewrite Hqueue.
    + destruct (blocked nodes a v); [done|].
      destruct (visit_fold (default [] (adjacency !! v))
        {| connectedNodeIds := connectedNodeIds st;
           connectedEdgeIds := connectedEdgeIds st; queue := rest |}) as (Hn & _).
      rewrite Hn. cbn. apply union_subseteq. split; [done|].
      intros w Hw. apply elem_of_list_to_set, list_elem_of_fmap in Hw as (nb & -> & Hnb).
      eauto.
    + cbn in Hm. destruct (blocked nodes a v); [cbn; lia|].
      destruct (visit_fold (default [] (adjacency !! v))
        {| connectedNodeIds := connectedNodeIds st;
           connectedEdgeIds := connectedEdgeIds st; queue := rest |})
        as (Hn & _ & added & Hqa & Hnd & Hadd).
      rewrite Hn, Hqa. cbn in *. rewrite length_app.
      assert (Hsplit : U ∖ connectedNodeIds st
              = (U ∖ (connectedNodeIds st ∪ list_to_set (nodeId <$> default [] (adjacency !! v))))
                ∪ list_to_set added).
      { apply set_eq. intros w. rewrite !elem_of_union, !elem_of_difference,
          elem_of_union, !elem_of_list_to_set, Hadd.
        split.
        - intros [? ?]. destruct (decide (w ∈ nodeId <$> default [] (adjacency !! v))).
          + by right.
          + left. split; [done|]. by intros [?|?].
        - intros [[? Hno]|[Hw ?]].
          + split; [done|]. intros ?. apply Hno. by left.
          + split; [|done]. apply list_elem_of_fmap in Hw as (nb & -> & Hnb). eauto. }
      assert (Hsz : size (U ∖ connectedNodeIds st)
              = size (U ∖ (connectedNodeIds st ∪ list_to_set (nodeId <$> default [] (adjacency !! v))))
                + length added).
      { rewrite Hsplit at 1. rewrite size_union.
        - by rewrite size_list_to_set.
        - intros w Hw1 Hw2. apply elem_of_difference in Hw1 as [_ Hw1].
          apply elem_of_list_to_set, Hadd in Hw2 as [Hw2 _].
          apply Hw1, elem_of_union. right. by apply elem_of_list_to_set. }
      lia.
Qed.

End Traversal.

Lemma size_list_to_set_le (l : list string) :
  size (list_to_set l : gset string) ≤ length l.
Proof.
  induction l as [|x l IH]; cbn.
  - by rewrite size_empty.
  - rewrite size_union_alt, size_singleton.
    assert (size (list_to_set l ∖ {[x]} : gset string) ≤ size (list_to_set l : gset string))
      by (apply subseteq_size; set_solver).
    lia.
Qed.

Lemma recover_fold ns edges : ∀ es i,
  i ∈ foldl (recover_edge ns) es edges ↔
  i ∈ es ∨ ∃ e, e ∈ edges ∧ edge_id e = i ∧ source e ∈ ns ∧ target e ∈ ns.
Proof.
  induction edges as [|e edges IH]; intros es i; cbn.
  - split; [by left|]. intros [?|(e & He & _)]; [done|]. by apply elem_of_nil in He.
  - rewrite IH. unfold recover_edge. split.
    + intros [Hi|(e' & He' & ?)].
      * case_decide as Hd.
        -- apply elem_of_union in Hi as [->%elem_of_singleton|?]; [|by left].
           right. exists e. split; [left|]. by destruct Hd.
        -- by left.
      * right. exists e'. split; [by right|done].
    + intros [Hi|(e' & He' & Hid & Hs & Ht)].
      * left. case_decide; set_solver.
      * apply elem_of_cons in He' as [->|He'].
        -- left. rewrite decide_True by done. set_solver.
        -- right. by exists e'.
Qed.


(** The fuel of [connected] is enough: the loop ends with an empty queue,
    and an empty queue is a fixed point, so more fuel changes nothing. *)
Lemma bfs_loop_terminates nodes edges a :
  queue (bfs_loop (bfs_fuel edges) nodes (build_adjacency edges) a
           {| connectedNodeIds := {[a]}; connectedEdgeIds := ∅; queue := [a] |})
  = [].
Proof.
  apply (bfs_drained nodes (build_adjacency edges) a
           ({[a]} ∪ list_to_set ((source <$> edges) ++ (target <$> edges)))).
  - intros v nb (e & He & [[_ ->]|[_ ->]])%elem_of_neighbors; cbn;
      apply elem_of_union; right; apply elem_of_list_to_set, elem_of_app;
      [right|left]; apply list_elem_of_fmap; eauto.
  - cbn. set_solver.
  - cbn. unfold bfs_fuel.
    pose proof (size_list_to_set_le ((source <$> edges) ++ (target <$> edges))) as Hle.
    rewrite length_app, !length_fmap in Hle.
    assert (size (({[a]} ∪ list_to_set ((source <$> edges) ++ (target <$> edges))) ∖ {[a]} : gset string)
            ≤ size (list_to_set ((source <$> edges) ++ (target <$> edges)) : gset string))
      by (apply subseteq_size; set_solver).
    lia.
Qed.

Lemma bfs_loop_finished fuel nodes adjacency a st :
  queue st = [] → bfs_loop fuel nodes adjacency a st = st.
Proof. intros Hq. destruct fuel; cbn; [done|]. by rewrite Hq. Qed.

Lemma bfs_loop_more_fuel nodes edges a extra :
  bfs_loop (bfs_fuel edges + extra) nodes (build_adjacency edges) a
    {| connectedNodeIds := {[a]}; connectedEdgeIds := ∅; queue := [a] |}
  = bfs_loop (bfs_fuel edges) nodes (build_adjacency edges) a
      {| connectedNodeIds := {[a]}; connectedEdgeIds := ∅; queue := [a] |}.
Proof.
  pose proof (bfs_loop_terminates nodes edges a) as Hdone. revert Hdone.
  generalize (bfs_fuel edges).
  generalize {| connectedNodeIds := {[a]}; connectedEdgeIds := ∅; queue := [a] |}.
  intros st n. revert st. induction n as [|n IH]; intros st Hq; cbn in *.
  - by apply bfs_loop_finished.
  - destruct (queue st); [done|]. by apply IH.
Qed.

Lemma connected_spec nodes edges a :
  let ns := (connected nodes edges a).1 in
  let es := (connected nodes edges a).2 in
  a ∈ ns
  ∧ (∀ e, e ∈ edges →
       (source e ∈ ns → blocked nodes a (source e) = false → target e ∈ ns)
       ∧ (target e ∈ ns → blocked nodes a (target e) = false → source e ∈ ns))
  ∧ (∀ S, closed_under_edges nodes edges a S → ∀ v, v ∈ ns → S v)
  ∧ (∀ i, i ∈ es ↔ ∃ e, e ∈ edges ∧ edge_id e = i ∧ source e ∈ ns ∧ target e ∈ ns).
Proof.
  unfold connected. cbn [fst snd].
  set (adj := build_adjacency edges).
  set (st0 := {| connectedNodeIds := {[a]}; connectedEdgeIds := ∅; queue := [a] |}).
  set (st := bfs_loop (bfs_fuel edges) nodes adj a st0).
  assert (Hinv0 : bfs_inv nodes adj a st0).
  { constructor; cbn.
    - set_solver.
    - intros v ->%list_elem_of_singleton. set_solver.
    - intros v ->%elem_of_singleton. left. by apply list_elem_of_singleton.
    - intros i Hi. set_solver. }
  assert (Hinv : bfs_inv nodes adj a st).
  { apply bfs_loop_invariant; [apply bfs_step_inv | done]. }
  assert (Hq : queue st = []) by apply bfs_loop_terminates.
  destruct Hinv as [Ha Hqs Hc He].
  assert (Hexp : ∀ v, v ∈ connectedNodeIds st → blocked nodes a v = false →
            ∀ nb, nb ∈ default [] (adj !! v) →
              nodeId nb ∈ connectedNodeIds st ∧ edgeId nb ∈ connectedEdgeIds st).
  { intros v Hv Hb. destruct (Hc v Hv) as [Hin|[?|?]]; [|congruence|done].
    rewrite Hq in Hin. by apply elem_of_nil in Hin. }
  split; [done|]. split; [|split].
  - intros e He'. split; intros Hin Hb.
    + apply (Hexp _ Hin Hb {| nodeId := target e; edgeId := edge_id e |}).
      apply elem_of_neighbors. exists e. split; [done|by left].
    + apply (Hexp _ Hin Hb {| nodeId := source e; edgeId := edge_id e |}).
      apply elem_of_neighbors. exists e. split; [done|by right].
  - intros S [HSa HS]. unfold st.
    assert (HP : (λ s, bfs_inv nodes adj a s ∧ ∀ v, v ∈ connectedNodeIds s → S v)
                 (bfs_loop (bfs_fuel edges) nodes adj a st0)).
    { apply bfs_loop_invariant.
      - intros s [H1 H2]. split; [by apply bfs_step_inv|].
        apply bfs_step_closed; [|by destruct H1|done]. split; [done|].
        intros v nb HSv Hb (e & He' & [[<- ->]|[<- ->]])%elem_of_neighbors; cbn;
          by apply (HS e He').
      - split; [done|]. cbn. by intros v ->%elem_of_singleton. }
    apply HP.
  - intros i. rewrite recover_fold. split.
    + intros [Hi|?]; [|done].
      destruct (He i Hi) as (v & nb & Hv & Hb & Hnb & <-).
      destruct (Hexp v Hv Hb nb Hnb) as [Hn _].
      apply elem_of_neighbors in Hnb as (e & He' & [[<- ->]|[<- ->]]); cbn in *;
        by exists e.
    + by right.
Qed.




Lemma blocked_active nodes a : blocked nodes a a = false.
Proof.
  unfold blocked. destruct (find_node a nodes); [|done].
  rewrite String.eqb_refl. cbn. by rewrite andb_false_r.
Qed.


Lemma blocked_company nodes a c :
  is_kind nodes c Kind.company → c ≠ a → blocked nodes a c = true.
Proof.
  unfold is_kind, blocked. destruct (find_node c nodes) as [n|]; [|done].
  cbn. intros [= ->] Hne. cbn. by apply negb_true_iff, String.eqb_neq.
Qed.

Lemma styled_active nodes edges hovered selected a :
  js_or hovered (node_id <$> selected) = Some a → a ≠ "" →
  styledNodesEdges nodes edges hovered selected
  = (style_node (connected nodes edges a).1 <$> nodes,
     style_edge (connected nodes edges a).2 <$> edges).
Proof.
  intros Ha Hne. unfold styledNodesEdges. rewrite Ha. cbn.
  apply String.eqb_neq in Hne. rewrite Hne. cbn.
  by destruct (connected nodes edges a).
Qed.

Lemma styled_node_emphasised ns (nodes : list Node) n :
  n ∈ style_node ns <$> nodes → node_id n ∈ ns → node_emphasised n.
Proof.
  intros (m & -> & _)%list_elem_of_fmap Hin. unfold node_emphasised. cbn.
  by rewrite decide_True.
Qed.

Lemma styled_node_dimmed ns (nodes : list Node) n :
  n ∈ style_node ns <$> nodes → node_id n ∉ ns → node_dimmed n.
Proof.
  intros (m & -> & _)%list_elem_of_fmap Hin. unfold node_dimmed. cbn.
  by rewrite decide_False.
Qed.

Lemma styled_edge_emphasised es (edges : list Edge) e :
  e ∈ style_edge es <$> edges → edge_id e ∈ es → edge_emphasised e.
Proof.
  intros (m & -> & _)%list_elem_of_fmap Hin. unfold edge_emphasised. cbn.
  by rewrite bool_decide_eq_true_2.
Qed.

Lemma styled_edge_dimmed es (edges : list Edge) e :
  e ∈ style_edge es <$> edges → edge_id e ∉ es → edge_dimmed e.
Proof.
  intros (m & -> & _)%list_elem_of_fmap Hin. unfold edge_dimmed. cbn.
  by rewrite bool_decide_eq_false_2.
Qed.

(** The traversal computes the relation [reach]. *)
Lemma connected_reach nodes edges a v :
  v ∈ (connected nodes edges a).1 ↔ reach nodes edges a v.
Proof.
  destruct (connected_spec nodes edges a) as (Ha & Hexp & Hsound & _).
  split.
  - apply (Hsound (reach nodes edges a)). split; [constructor|].
    intros e He. split; intros Hr Hb.
    + eapply reach_step; [exact Hr|done|exact He|by left].
    + eapply reach_step; [exact Hr|done|exact He|by right].
  - induction 1 as [|v w e Hr IH Hb He Hl]; [done|].
    destruct (Hexp e He) as [H1 H2].
    destruct Hl as [[Hs Ht]|[Hs Ht]].
    + rewrite <- Ht. apply H1; by rewrite Hs.
    + rewrite <- Hs. apply H2; by rewrite Ht.
Qed.

(** ** The claims about the highlighter *)

(** C9. With no hovered node and no selected node there is no active node,
    and the memo returns the node list and the edge list as they are: no
    opacity or other emphasis styling is written. *)
Theorem no_active_node_unchanged nodes edges :
  styledNodesEdges nodes edges None None = (nodes, edges).
Proof. reflexivity. Qed.






(** * The assembler's address pass *)

Lemma find_label_Some lbl (nodes : list Node) n :
  find_label lbl nodes = Some n → n ∈ nodes ∧ label (data n) = Some lbl.
Proof.
  unfold find_label. intros H. apply find_some in H as [Hin Heq].
  split; [by apply list_elem_of_In | by apply bool_decide_eq_true in Heq].
Qed.

Lemma find_label_app lbl (nodes more : list Node) n :
  find_label lbl nodes = Some n → find_label lbl (nodes ++ more) = Some n.
Proof.
  unfold find_label. induction nodes as [|m nodes IH]; cbn; [done|].
  by destruct (bool_decide _).
Qed.

Lemma find_label_snoc_new lbl (nodes : list Node) n :
  find_label lbl nodes = None → label (data n) = Some lbl →
  find_label lbl (nodes ++ [n]) = Some n.
Proof.
  unfold find_label. intros Hnone Hl.
  induction nodes as [|m nodes IH]; cbn in *.
  - by rewrite bool_decide_eq_true_2.
  - destruct (bool_decide _); [done|]. by apply IH.
Qed.

Lemma indexed_snoc {A} (l : list A) x : indexed (l ++ [x]) = indexed l ++ [(length l, x)].
Proof. unfold indexed. rewrite imap_app. cbn. by rewrite Nat.add_0_r. Qed.

Lemma addOfficerAddress_label company acc index officer :
  addOfficerAddress company acc (index, officer)
  = match officerAddressLabel officer with
    | None => acc
    | Some addressLabel =>
        let addressNodeId :=
          officerAddressNodeId company acc.1 index officer addressLabel in
        (acc.1 ++ match find_label addressLabel acc.1 with
                  | Some _ => []
                  | None =>
                      if bool_decide (Some addressLabel
                                      = formatAddress (registered_office_address company))
                      then [] else [addressNode addressNodeId addressLabel]
                  end,
         acc.2 ++ [correspondenceEdge (assemblyOfficerId officer index) addressNodeId])
    end.
Proof.
  unfold addOfficerAddress, officerAddressLabel.
  destruct (off_address officer); [|done].
  destruct (formatAddress _); [|done]. by destruct (String.eqb _ _).
Qed.

(** What holds of the address pass after any prefix of the officer list. *)
Lemma address_pass_inv company (officers : list Officer) :
  let N := (foldl (addOfficerAddress company) ([], []) (indexed officers)).1 in
  let E := (foldl (addOfficerAddress company) ([], []) (indexed officers)).2 in
  (∀ n, n ∈ N → ∃ i x,
      i < length officers
      ∧ node_id n = "address-" +:+ pretty i +:+ "-" +:+ x
      ∧ type (data n) = Kind.address
      ∧ label (data n) ≠ formatAddress (registered_office_address company))
  ∧ NoDup (node_id <$> N)
  ∧ (∀ k, k ≤ length officers →
       ∀ lbl n, find_label lbl (addressNodesAfter company officers k) = Some n →
                find_label lbl N = Some n)
  ∧ (∀ i officer addressLabel,
       officers !! i = Some officer →
       officerAddressLabel officer = Some addressLabel →
       let t := officerAddressNodeId company (addressNodesAfter company officers i)
                                     i officer addressLabel in
       correspondenceEdge (assemblyOfficerId officer i) t ∈ E
       ∧ (Some addressLabel = formatAddress (registered_office_address company) →
          t = "address-1")
       ∧ (Some addressLabel ≠ formatAddress (registered_office_address company) →
          ∃ n, find_label addressLabel N = Some n ∧ node_id n = t)).
Proof.
  induction officers as [|o officers IH] using rev_ind.
  - cbn. split; [by intros n Hn%elem_of_nil|]. split; [constructor|].
    split; [|done]. intros k Hk lbl n. unfold addressNodesAfter.
    by rewrite take_nil.
  - cbn zeta in *. destruct IH as (Ha & Hnd & Hstable & Hd).
    rewrite indexed_snoc, foldl_app. cbn [foldl].
    set (acc := foldl (addOfficerAddress company) ([], []) (indexed officers)) in *.
    assert (Hafter : ∀ k, k ≤ length officers →
              addressNodesAfter company (officers ++ [o]) k
              = addressNodesAfter company officers k).
    { intros k Hk. unfold addressNodesAfter. rewrite take_app_le by done. done. }
    assert (Hfull : addressNodesAfter company officers (length officers) = acc.1).
    { unfold addressNodesAfter. by rewrite take_ge. }
    rewrite addOfficerAddress_label, length_app. cbn [length].
    destruct (officerAddressLabel o) as [lbl|] eqn:Hlbl.
    2:{ split; [|split; [done|split]].
        - intros n Hn. destruct (Ha n Hn) as (i & x & ? & ?). exists i, x.
          split; [lia|done].
        - intros k Hk lbl n. destruct (decide (k ≤ length officers)) as [Hle|Hgt].
          + rewrite Hafter by done. by apply (Hstable k).
          + assert (k = S (length officers)) as -> by lia.
            unfold addressNodesAfter. rewrite take_ge by (rewrite length_app; cbn; lia).
            rewrite indexed_snoc, foldl_app. cbn [foldl].
            fold acc. rewrite addOfficerAddress_label, Hlbl. done.
        - intros i officer addressLabel Hi Hal.
          apply lookup_app_Some in Hi as [Hi|[Hlen Hi]].
          + rewrite Hafter by (apply lookup_lt_Some in Hi; lia). by apply Hd.
          + apply list_lookup_singleton_Some in Hi as [_ <-]. congruence. }
    cbn zeta. cbn [fst snd].
    set (t := officerAddressNodeId company acc.1 (length officers) o lbl).
    set (pushed := match find_label lbl acc.1 with
                   | Some _ => []
                   | None => if bool_decide (Some lbl = formatAddress (registered_office_address company))
                             then [] else [addressNode t lbl]
                   end).
    assert (Hpushed : pushed = [] ∨
              (pushed = [addressNode t lbl] ∧ find_label lbl acc.1 = None
               ∧ Some lbl ≠ formatAddress (registered_office_address company)
               ∧ t = "address-" +:+ pretty (length officers) +:+ "-"
                     +:+ default (pretty (length officers)) (js_or (off_officer_id o) None))).
    { unfold pushed, t, officerAddressNodeId. destruct (find_label lbl acc.1); [by left|].
      case_bool_decide; [by left|]. by right. }
    split; [|split; [|split]].
    + intros n [Hn|Hn]%elem_of_app.
      * destruct (Ha n Hn) as (i & x & ? & ?). exists i, x. split; [lia|done].
      * destruct Hpushed as [Hp|(Hp & _ & Hne & Ht)]; rewrite Hp in Hn;
          [by apply elem_of_nil in Hn|].
        apply list_elem_of_singleton in Hn as ->. eexists _, _.
        split; [|split; [exact Ht|split; [done|]]]; [lia|]. cbn. congruence.
    + destruct Hpushed as [Hp|(Hp & _ & _ & Ht)]; rewrite Hp.
      * by rewrite app_nil_r.
      * rewrite fmap_app. apply NoDup_app. split; [done|]. split; [|apply NoDup_singleton].
        intros i (n & -> & Hn)%list_elem_of_fmap Hi.
        apply list_elem_of_singleton in Hi. cbn in Hi.
        destruct (Ha n Hn) as (j & x & Hj & Hid & _).
        rewrite Hid, Ht in Hi. apply indexed_id_inj in Hi. lia.
    + intros k Hk lbl' n. destruct (decide (k ≤ length officers)) as [Hle|Hgt].
      * rewrite Hafter by done. intros Hf. apply find_label_app. by apply (Hstable k).
      * assert (k = S (length officers)) as -> by lia.
        unfold addressNodesAfter. rewrite take_ge by (rewrite length_app; cbn; lia).
        rewrite indexed_snoc, foldl_app. cbn [foldl].
        fold acc. rewrite addOfficerAddress_label, Hlbl. done.
    + intros i officer addressLabel Hi Hal.
      apply lookup_app_Some in Hi as [Hi|[Hlen Hi]].
      * rewrite Hafter by (apply lookup_lt_Some in Hi; lia).
        destruct (Hd i officer addressLabel Hi Hal) as (He & Hc & Hn).
        split; [apply elem_of_app; by left|]. split; [done|].
        intros Hne. destruct (Hn Hne) as (n & Hf & Hid). exists n.
        split; [by apply find_label_app|done].
      * apply list_lookup_singleton_Some in Hi as [Hi <-].
        assert (i = length officers) as -> by lia.
        rewrite Hafter, Hfull by done. rewrite Hlbl in Hal. injection Hal as <-.
        fold t. split; [apply elem_of_app; right; by apply list_elem_of_singleton|].
        split.
        -- intros Hc. unfold t, officerAddressNodeId.
           destruct (find_label lbl acc.1) as [n|] eqn:Hf.
           ++ apply find_label_Some in Hf as [Hn Hl].
              destruct (Ha n Hn) as (_ & _ & _ & _ & _ & Hne). congruence.
           ++ by rewrite bool_decide_eq_true_2.
        -- intros Hne. destruct (find_label lbl acc.1) as [n|] eqn:Hf.
           ++ exists n. split; [by apply find_label_app|].
              unfold t, officerAddressNodeId. by rewrite Hf.
           ++ destruct Hpushed as [Hp|(Hp & _ & _ & _)].
              { unfold pushed in Hp.
                rewrite bool_decide_eq_false_2 in Hp by done. done. }
              rewrite Hp. exists (addressNode t lbl).
              split; [by apply find_label_snoc_new|done].
Qed.

Lemma officerAddressLabel_format officer addressLabel :
  officerAddressLabel officer = Some addressLabel →
  formatAddress (off_address officer) = Some addressLabel ∧ addressLabel ≠ "".
Proof.
  unfold officerAddressLabel. destruct (off_address officer); [|done].
  destruct (formatAddress _) as [l|]; [|done].
  destruct (String.eqb l "") eqn:E; [done|]. intros [= ->].
  split; [done|]. by apply String.eqb_neq.
Qed.

(** * Officer identities *)

Lemma assemblyOfficerId_resolved officer index oid :
  off_officer_id officer = Some oid → oid ≠ "" →
  assemblyOfficerId officer index = "officer-" +:+ oid.
Proof.
  intros Hid Hne%String.eqb_neq. unfold assemblyOfficerId, js_or.
  rewrite Hid. cbn. by rewrite Hne.
Qed.

Lemma assemblyOfficerId_fallback officer index :
  truthy (off_officer_id officer) = false →
  assemblyOfficerId officer index = "officer-" +:+ pretty index.
Proof. intros Hf. unfold assemblyOfficerId, js_or. by rewrite Hf. Qed.

Lemma expansionOfficerId_resolved nodeToExpand officer index oid :
  off_officer_id officer = Some oid → oid ≠ "" →
  expansionOfficerId nodeToExpand officer index = "officer-" +:+ oid.
Proof.
  intros Hid Hne%String.eqb_neq. unfold expansionOfficerId, js_or.
  rewrite Hid. cbn. by rewrite Hne.
Qed.

Lemma expansionOfficerId_fallback nodeToExpand officer index :
  truthy (off_officer_id officer) = false →
  expansionOfficerId nodeToExpand officer index
  = "officer-" +:+ node_id nodeToExpand +:+ "-" +:+ pretty index.
Proof. intros Hf. unfold expansionOfficerId, js_or. by rewrite Hf. Qed.

(** * The assembled node list *)

Lemma prefix_append (p r : string) : String.prefix p (p +:+ r) = true.
Proof.
  induction p as [|c p IH]; simpl; [by destruct r|].
  destruct (ascii_dec c c) as [_|Hn]; [exact IH | by destruct Hn].
Qed.

Lemma synthetic_officer r : synthetic_id ("officer-" +:+ r) = true.
Proof. unfold synthetic_id. by rewrite prefix_append. Qed.

Lemma synthetic_psc r : synthetic_id ("psc-" +:+ r) = true.
Proof. unfold synthetic_id. rewrite (prefix_append "psc-"). by rewrite orb_true_r. Qed.

Lemma synthetic_address r : synthetic_id ("address-" +:+ r) = true.
Proof. unfold synthetic_id. rewrite (prefix_append "address-"). by rewrite orb_true_r. Qed.

(** Company numbers of the registry's format are not shaped like a
    made-up id: each made-up prefix contains a dash. *)
Lemma prefix_lacks c (p : string) : ∀ s,
  String.prefix p s = true → lacks c s = true → lacks c p = true.
Proof.
  induction p as [|a p IH]; intros s; [done|].
  destruct s as [|b s]; [done|]. cbn [String.prefix lacks].
  destruct (ascii_dec a b) as [->|]; [|done].
  intros Hp [Hc Hs]%andb_prop. rewrite Hc. cbn. by apply (IH s).
Qed.

Lemma all_alnum_lacks_dash n : all_alnum n = true → lacks "-" n = true.
Proof.
  induction n as [|c n IH]; [done|]. cbn [all_alnum lacks].
  intros [Hc Hn]%andb_prop. rewrite (IH Hn), andb_true_r.
  destruct (Ascii.eqb_spec "-" c) as [<-|]; [done|reflexivity].
Qed.

Lemma dash_free_not_synthetic n : lacks "-" n = true → synthetic_id n = false.
Proof.
  intros Hn. unfold synthetic_id.
  destruct (String.prefix "officer-" n) eqn:H1.
  { by pose proof (prefix_lacks "-" _ _ H1 Hn). }
  destruct (String.prefix "psc-" n) eqn:H2.
  { by pose proof (prefix_lacks "-" _ _ H2 Hn). }
  destruct (String.prefix "address-" n) eqn:H3; [|done].
  by pose proof (prefix_lacks "-" _ _ H3 Hn).
Qed.

Lemma registry_number_not_synthetic n :
  registry_number n = true → synthetic_id n = false.
Proof.
  intros [_ Hn]%andb_prop. by apply dash_free_not_synthetic, all_alnum_lacks_dash.
Qed.

Lemma addOfficerNode_keep_first (l : list (nat * Officer)) : ∀ acc,
  foldl addOfficerNode acc l
  = foldl (keep_first node_id) acc
          ((λ io, officerNode (assemblyOfficerId io.2 io.1) io.2) <$> l).
Proof. induction l as [|io l IH]; intros acc; cbn; [done|]. by rewrite IH. Qed.

Lemma addPscNode_keep_first (l : list (nat * Psc)) : ∀ acc,
  foldl addPscNode acc l
  = foldl (keep_first node_id) acc ((λ ip, pscNode ip.1 ip.2) <$> l).
Proof. induction l as [|ip l IH]; intros acc; cbn; [done|]. by rewrite IH. Qed.

Lemma officerNodes_spec (officers : list Officer) :
  let officerNodes := (foldl addOfficerNode (∅, []) (indexed officers)).2 in
  NoDup (node_id <$> officerNodes)
  ∧ ∀ n, n ∈ officerNodes → ∃ r, node_id n = "officer-" +:+ r.
Proof.
  cbn zeta. rewrite addOfficerNode_keep_first. split; [apply keep_first_NoDup|].
  intros n Hn%keep_first_sub. apply list_elem_of_fmap in Hn as ([i o] & -> & _).
  cbn. unfold assemblyOfficerId. eauto.
Qed.

Lemma pscNodes_spec (pscs : list Psc) :
  let pscNodes := (foldl addPscNode (∅, []) (indexed pscs)).2 in
  NoDup (node_id <$> pscNodes)
  ∧ ∀ n, n ∈ pscNodes → ∃ r, node_id n = "psc-" +:+ r.
Proof.
  cbn zeta. rewrite addPscNode_keep_first. split; [apply keep_first_NoDup|].
  intros n Hn%keep_first_sub. apply list_elem_of_fmap in Hn as ([i o] & -> & _).
  cbn. eauto.
Qed.

Section AssemblerFacts.

Variable formatDate : option string → string.

Lemma assemble_nodes_NoDup company officers pscs nodes edges :
  assemble formatDate company officers pscs = Some (nodes, edges) →
  synthetic_id (company_number company) = false →
  NoDup (node_id <$> nodes).
Proof.
  unfold assemble. destruct (registered_office_address company) as [roa|] eqn:Hroa; [|done].
  destruct (address_pass_inv company officers) as (Ha & Hnd & _ & _).
  destruct (foldl (addOfficerAddress company) ([], []) (indexed officers))
    as [addrNodes addrEdges] eqn:Hpass.
  cbn [fst snd] in *.
  destruct (officerNodes_spec officers) as (Hond & Ho).
  destruct (pscNodes_spec (default [] pscs)) as (Hpnd & Hp).
  intros [= <- <-] Hsyn. cbn zeta in *.
  set (officerNodes := (foldl addOfficerNode (∅, []) (indexed officers)).2) in *.
  set (pscNodes := (foldl addPscNode (∅, []) (indexed (default [] pscs))).2) in *.
  rewrite fmap_cons, !fmap_app, fmap_cons. cbn [node_id].
  assert (Hcn : ∀ i, synthetic_id i = true → i ≠ company_number company)
    by (intros i Hi ->; congruence).
  apply NoDup_cons. split.
  { intros Hin.
    apply elem_of_app in Hin as [Hin|Hin];
      [|apply elem_of_app in Hin as [Hin|Hin]; [|apply elem_of_cons in Hin as [Hin|Hin]]].
    - apply list_elem_of_fmap in Hin as (n & Hid & Hn). destruct (Ho n Hn) as [r Hr].
      eapply (Hcn _ (synthetic_officer r)). congruence.
    - apply list_elem_of_fmap in Hin as (n & Hid & Hn). destruct (Hp n Hn) as [r Hr].
      eapply (Hcn _ (synthetic_psc r)). congruence.
    - eapply (Hcn _ (synthetic_address "1")). by rewrite Hin.
    - apply list_elem_of_fmap in Hin as (n & Hid & Hn).
      destruct (Ha n Hn) as (j & x & _ & Hr & _).
      eapply (Hcn _ (synthetic_address (pretty j +:+ "-" +:+ x))). congruence. }
  apply NoDup_app. split; [done|]. split.
  { intros i (n & -> & Hn)%list_elem_of_fmap Hin. destruct (Ho n Hn) as [r Hr].
    rewrite Hr in Hin.
    apply elem_of_app in Hin as [Hin|Hin]; [|apply elem_of_cons in Hin as [Hin|Hin]].
    - apply list_elem_of_fmap in Hin as (m & Hid & Hm). destruct (Hp m Hm) as [r' Hr'].
      rewrite Hr' in Hid. discriminate.
    - discriminate.
    - apply list_elem_of_fmap in Hin as (m & Hid & Hm).
      destruct (Ha m Hm) as (j & x & _ & Hr' & _). rewrite Hr' in Hid. discriminate. }
  apply NoDup_app. split; [done|]. split.
  { intros i (n & -> & Hn)%list_elem_of_fmap Hin. destruct (Hp n Hn) as [r Hr].
    rewrite Hr in Hin.
    apply elem_of_cons in Hin as [Hin|Hin].
    - discriminate.
    - apply list_elem_of_fmap in Hin as (m & Hid & Hm).
      destruct (Ha m Hm) as (j & x & _ & Hr' & _). rewrite Hr' in Hid. discriminate. }
  apply NoDup_cons. split; [|done].
  intros (m & Hid & Hm)%list_elem_of_fmap.
  destruct (Ha m Hm) as (j & x & _ & Hr' & _). rewrite Hr' in Hid.
  by apply (indexed_id_not_bare "address-" j x).
Qed.

Lemma assemble_edges_NoDup company officers pscs nodes edges :
  assemble formatDate company officers pscs = Some (nodes, edges) →
  NoDup (edge_id <$> edges).
Proof.
  unfold assemble. destruct (registered_office_address company); [|done].
  destruct (foldl (addOfficerAddress company) _ _). intros [= <- <-].
  apply deduplicateEdges_NoDup.
Qed.

End AssemblerFacts.

(** * The expansion engine *)

Section ExpansionFacts.

Variable formatDate : option string → string.

(** ** Merging a level *)

Lemma mergeNode_NoDup currentNodes nextLevelNodes node :
  NoDup (node_id <$> currentNodes ++ nextLevelNodes) →
  NoDup (node_id <$> currentNodes ++ mergeNode currentNodes nextLevelNodes node).
Proof.
  intros Hnd. unfold mergeNode.
  destruct (some_node (node_id node) currentNodes) eqn:Hc; [done|].
  destruct (some_node (node_id node) nextLevelNodes) eqn:Hn; [done|]. cbn.
  apply some_node_false in Hc, Hn.
  rewrite app_assoc, fmap_app. apply NoDup_app. split; [done|].
  split; [|apply NoDup_singleton].
  intros i Hi ->%list_elem_of_singleton.
  rewrite fmap_app in Hi. apply elem_of_app in Hi as [?|?]; done.
Qed.

Lemma mergeResult_NoDup currentNodes result : ∀ nextLevelNodes,
  NoDup (node_id <$> currentNodes ++ nextLevelNodes) →
  NoDup (node_id <$> currentNodes ++ mergeResult currentNodes nextLevelNodes result).
Proof.
  unfold mergeResult. induction (newNodes result) as [|n l IH]; intros next Hnd; cbn.
  - done.
  - by apply IH, mergeNode_NoDup.
Qed.

Lemma mergeResults_NoDup currentNodes expansionResults : ∀ nextLevelNodes,
  NoDup (node_id <$> currentNodes ++ nextLevelNodes) →
  NoDup (node_id <$> currentNodes
                     ++ foldl (mergeResult currentNodes) nextLevelNodes expansionResults).
Proof.
  induction expansionResults as [|r l IH]; intros next Hnd; cbn.
  - done.
  - by apply IH, mergeResult_NoDup.
Qed.

Lemma expandLevels_NoDup registry levels : ∀ currentNodes currentEdges nodesToExpand ns es,
  NoDup (node_id <$> currentNodes) →
  expandLevels formatDate registry levels currentNodes currentEdges nodesToExpand
  = Returned (ns, es) →
  NoDup (node_id <$> ns).
Proof.
  induction levels as [|levels IH]; intros cn ce frontier ns es Hnd; cbn.
  - by intros [= <- <-].
  - destruct (promiseAll _) as [|results]; [done|].
    assert (Hnext : NoDup (node_id <$> cn ++ foldl (mergeResult cn) [] results)).
    { apply mergeResults_NoDup. by rewrite app_nil_r. }
    destruct (uniqueNodes _); [by intros [= <- <-]|]. by apply IH.
Qed.

Lemma handleExpandNetwork_ok registry st :
  graph_ok (nodes st) (edges st) →
  graph_ok (nodes (handleExpandNetwork formatDate registry st))
           (edges (handleExpandNetwork formatDate registry st)).
Proof.
  intros [Hn He]. unfold handleExpandNetwork.
  destruct (selectedNode st) as [selected|]; [|done].
  destruct (expandLevels _ _ _ _ _ _) as [|[ns es]] eqn:Hexp; [done|]. cbn.
  split; [by eapply expandLevels_NoDup | apply deduplicateEdges_NoDup].
Qed.

(** ** Soft failures *)

Lemma promiseAll_app {A} (ps qs : list (Fetched A)) :
  promiseAll (ps ++ qs)
  = match promiseAll ps, promiseAll qs with
    | Returned l, Returned k => Returned (l ++ k)
    | _, _ => Threw
    end.
Proof.
  induction ps as [|[|a] ps IH]; cbn.
  - by destruct (promiseAll qs).
  - done.
  - rewrite IH. destruct (promiseAll ps); [done|]. by destruct (promiseAll qs).
Qed.

Lemma expandSingleNode_no_data registry node currentNodes currentEdges :
  neighborFetch registry node = FetchNoData →
  expandSingleNode formatDate registry node currentNodes currentEdges
  = Returned noExpansion.
Proof.
  unfold neighborFetch, expandSingleNode.
  destruct (type (data node)), (js_or (officer_id (data node)) None);
    try done.
  - destruct (fetch_company _ _) as [|p]; [done|]. by destruct (cp_officers p).
  - destruct (fetch_company _ _) as [|p]; [done|]. by destruct (cp_officers p).
  - by destruct (fetch_appointments _ _) as [|[|]].
  - by destruct (search_address _ _) as [|[|]].
  - by destruct (search_address _ _) as [|[|]].
Qed.

Lemma expandSingleNode_threw registry node currentNodes currentEdges :
  neighborFetch registry node = FetchThrew →
  expandSingleNode formatDate registry node currentNodes currentEdges = Threw.
Proof.
  unfold neighborFetch, expandSingleNode.
  destruct (type (data node)), (js_or (officer_id (data node)) None);
    try done.
  - destruct (fetch_company _ _) as [|p]; [done|]. by destruct (cp_officers p).
  - destruct (fetch_company _ _) as [|p]; [done|]. by destruct (cp_officers p).
  - by destruct (fetch_appointments _ _) as [|[|]].
  - by destruct (search_address _ _) as [|[|]].
  - by destruct (search_address _ _) as [|[|]].
Qed.

(** The one fetch that sits in a [try]/[catch]: a company-details request
    that rejects is treated like an answer without a company. *)
Lemma resolveAppointment_caught registry registry' currentNodes item :
  fetch_company registry (at_company_number (appointed_to item)) = Threw →
  fetch_company registry' (at_company_number (appointed_to item)) = Returned noData →
  resolveAppointment registry currentNodes item
  = resolveAppointment registry' currentNodes item.
Proof.
  intros Ht Hr. unfold resolveAppointment. rewrite Ht, Hr.
  by destruct (find_node _ _).
Qed.

(** ** Address expansion *)

Lemma addLocatedCompany_fold nodeToExpand currentNodes items : ∀ acc,
  (∀ n, n ∈ newNodes acc → node_id n ∉ node_id <$> currentNodes) →
  (∀ e, e ∈ newEdges acc → target e ∉ node_id <$> currentNodes) →
  let r := foldl (addLocatedCompany formatDate nodeToExpand currentNodes) acc items in
  (∀ n, n ∈ newNodes r → node_id n ∉ node_id <$> currentNodes)
  ∧ (∀ e, e ∈ newEdges r → target e ∉ node_id <$> currentNodes).
Proof.
  induction items as [|c items IH]; intros acc Hn He; cbn; [done|].
  apply IH; unfold addLocatedCompany.
  - destruct (find_node (company_number c) currentNodes) eqn:Hf; [done|].
    destruct (some_node _ _); [done|]. cbn.
    intros n [? | ->%list_elem_of_singleton]%elem_of_app; [by apply Hn|].
    cbn. by apply find_node_None.
  - destruct (find_node (company_number c) currentNodes) eqn:Hf; [done|].
    destruct (some_node _ _); [done|]. cbn.
    intros e [? | ->%list_elem_of_singleton]%elem_of_app; [by apply He|].
    cbn. by apply find_node_None.
Qed.

End ExpansionFacts.

(** * The claims about assembly and expansion *)

(** ** C1: the dedup invariant *)

(** The assembly of a payload whose company number has the registry's
    format, eight letters or digits, is a produced graph. *)
Lemma registry_seed_produced formatDate company officers pscs nodes edges :
  registry_number (company_number company) = true →
  assemble formatDate company officers pscs = Some (nodes, edges) →
  produced formatDate nodes edges.
Proof.
  intros Hn Hasm. eapply produced_assemble; [|exact Hasm].
  by apply registry_number_not_synthetic.
Qed.

(** C1. Every graph produced by the assembly of a seed payload, or obtained
    from such a graph by any number of expansion calls, has no two nodes
    with the same id and no two edges with the same id. The company number
    of the payload is one the registry issues, eight letters or digits
    ([registry_seed_produced]); all that is used of this is that the number
    does not begin with [officer-], [psc-] or [address-]. *)
Theorem dedup_invariant formatDate nodes edges :
  produced formatDate nodes edges → graph_ok nodes edges.
Proof.
  induction 1 as [company officers pscs nodes edges Hsyn Hasm|registry st _ IH].
  - split; [by eapply assemble_nodes_NoDup | by eapply assemble_edges_NoDup].
  - by apply handleExpandNetwork_ok.
Qed.

Lemma dedup_invariant_witness :
  graph_ok
    (nodes (handleExpandNetwork exampleFormatDate sharedAddressRegistry (seedState 2)))
    (edges (handleExpandNetwork exampleFormatDate sharedAddressRegistry (seedState 2))).
Proof.
  apply (dedup_invariant exampleFormatDate).
  apply (produced_expand exampleFormatDate sharedAddressRegistry (seedState 2)).
  apply (produced_assemble exampleFormatDate seedCompany [janeDoe] None);
    reflexivity.
Defined.

(** The format of the number matters: the root company's node takes the
    company number as it comes, so a payload whose number is no registry
    number but equals a made-up id, here [address-1], would give two nodes
    of that id. *)
Lemma made_up_number_collides :
  ¬ (∀ company officers pscs nodes edges,
       assemble exampleFormatDate company officers pscs = Some (nodes, edges) →
       graph_ok nodes edges).
Proof.
  intros H.
  destruct (H collidingCompany [] None _ _ eq_refl) as [Hnd _].
  cbn in Hnd. apply NoDup_cons in Hnd as [Hnotin _].
  apply Hnotin. left.
Qed.

(** ** C2: the address projection *)

(** C2, as amended. In the assembly step the six-field projection
    [formatAddress] is the key of the officers' address nodes: two officers
    whose correspondence addresses have a non-empty projection get the same
    address-node identity exactly when the two projections are equal
    strings, and each officer's correspondence edge targets that identity. *)
Theorem assembly_address_identity company officers i j oi oj li lj ti tj :
  officers !! i = Some oi → officers !! j = Some oj →
  officerAddressLabel oi = Some li → officerAddressLabel oj = Some lj →
  assemblyAddressId company officers i = Some ti →
  assemblyAddressId company officers j = Some tj →
  (ti = tj ↔ formatAddress (off_address oi) = formatAddress (off_address oj))
  ∧ correspondenceEdge (assemblyOfficerId oi i) ti
      ∈ (foldl (addOfficerAddress company) ([], []) (indexed officers)).2
  ∧ correspondenceEdge (assemblyOfficerId oj j) tj
      ∈ (foldl (addOfficerAddress company) ([], []) (indexed officers)).2.
Proof.
  intros Hi Hj Hli Hlj Hti Htj.
  unfold assemblyAddressId in Hti, Htj. rewrite Hi in Hti. rewrite Hj in Htj.
  cbn in Hti, Htj. rewrite Hli in Hti. rewrite Hlj in Htj. cbn in Hti, Htj.
  injection Hti as <-. injection Htj as <-.
  destruct (officerAddressLabel_format _ _ Hli) as [-> _].
  destruct (officerAddressLabel_format _ _ Hlj) as [-> _].
  destruct (address_pass_inv company officers) as (Ha & Hnd & _ & Hd).
  destruct (Hd i oi li Hi Hli) as (Hei & Hci & Hni).
  destruct (Hd j oj lj Hj Hlj) as (Hej & Hcj & Hnj).
  split; [|done]. split.
  - intros Heq.
    destruct (decide (Some li = formatAddress (registered_office_address company)))
      as [Hic|Hic],
      (decide (Some lj = formatAddress (registered_office_address company)))
      as [Hjc|Hjc].
    + congruence.
    + destruct (Hnj Hjc) as (n & [Hn _]%find_label_Some & Hid).
      destruct (Ha n Hn) as (k & x & _ & Hform & _).
      rewrite <- Heq, (Hci Hic), Hform in Hid.
      by destruct (indexed_id_not_bare "address-" k x).
    + destruct (Hni Hic) as (n & [Hn _]%find_label_Some & Hid).
      destruct (Ha n Hn) as (k & x & _ & Hform & _).
      rewrite Heq, (Hcj Hjc), Hform in Hid.
      by destruct (indexed_id_not_bare "address-" k x).
    + destruct (Hni Hic) as (n & [Hn Hl]%find_label_Some & Hid).
      destruct (Hnj Hjc) as (m & [Hm Hl']%find_label_Some & Hid').
      assert (n = m) as ->; [|congruence].
      eapply (NoDup_fmap_inj_on node_id); [exact Hnd|done..|congruence].
  - intros [= ->].
    destruct (decide (Some lj = formatAddress (registered_office_address company)))
      as [Hc|Hc].
    + by rewrite (Hci Hc), (Hcj Hc).
    + destruct (Hni Hc) as (n & Hf & <-). destruct (Hnj Hc) as (m & Hf' & <-).
      congruence.
Qed.

Lemma assembly_address_identity_witness :
  ("address-0-ann" = "address-0-ann"
   ↔ formatAddress (Some millLane) = formatAddress (Some millLane))
  ∧ correspondenceEdge "officer-ann" "address-0-ann"
      ∈ (foldl (addOfficerAddress seedCompany) ([], []) (indexed threeDirectors)).2
  ∧ correspondenceEdge "officer-cy" "address-0-ann"
      ∈ (foldl (addOfficerAddress seedCompany) ([], []) (indexed threeDirectors)).2.
Proof.
  apply (assembly_address_identity seedCompany threeDirectors 0 2
           (mkOfficer "Ann Lee" (Some "ann") (Some millLane))
           (mkOfficer "Cy Dow" (Some "cy") (Some millLane))
           "7 Mill Lane, Leeds, LS1 1AA" "7 Mill Lane, Leeds, LS1 1AA"
           "address-0-ann" "address-0-ann"); reflexivity.
Defined.

(** C2 as stated fails in officer expansion, which matches an appointment's
    address against the graph by the two-field label (line 1, locality): the
    seed company's registered office and the office of 33333333 differ in
    their postcode, hence in their six-field projection, and both companies
    are linked to the one address node [address-1]. *)
Lemma address_projection_counterexample :
  formatAddress (Some highStreet) ≠ formatAddress (Some highStreetOtherPostcode)
  ∧ shortAddressLabel highStreet = shortAddressLabel highStreetOtherPostcode
  ∧ mkEdge "00000006" "address-1" (Some "Registered Office") slate None
      ∈ edges (handleExpandNetwork exampleFormatDate otherPostcodeRegistry (seedState 1))
  ∧ mkEdge "33333333" "address-1" (Some "Registered Office") slate None
      ∈ edges (handleExpandNetwork exampleFormatDate otherPostcodeRegistry (seedState 1)).
Proof.
  split; [discriminate|]. split; [reflexivity|].
  split; vm_compute; [do 1 right; left | do 3 right; left].
Qed.

(** ** C5: officer identities *)

(** C5 fails at assembly. For an officer without a resolvable registry id at
    position 0 of company 00000006, the assembler makes the node
    [officer-0], without the parent's id, where company expansion computes
    [officer-00000006-0]; expanding the root company afterwards adds the same
    officer a second time. *)
Theorem assembly_fallback_officer_id :
  assemblyOfficerId unnamedOfficer 0 = "officer-0"
  ∧ expansionOfficerId seedRootNode unnamedOfficer 0 = "officer-00000006-0"
  ∧ node_id <$> (default ([], []) (assemble exampleFormatDate seedCompany
                                           [unnamedOfficer] None)).1
    = ["00000006"; "officer-0"; "address-1"]
  ∧ node_id <$> nodes (handleExpandNetwork exampleFormatDate seedRegistry
        {| nodes := (default ([], []) (assemble exampleFormatDate seedCompany
                                                [unnamedOfficer] None)).1;
           edges := (default ([], []) (assemble exampleFormatDate seedCompany
                                                [unnamedOfficer] None)).2;
           selectedNode := Some seedRootNode; expansionLevel := 1;
           loading := false; isDialogOpen := true; error := None;
           console := [] |})
    = ["00000006"; "officer-0"; "address-1"; "officer-00000006-0"].
Proof. repeat split; vm_compute; reflexivity. Qed.

(** ** C6: one address node per formatted address *)

(** C6 fails across sibling expansions. Companies 11111111 and 22222222 are
    expanded in the same level; Ann Lee (first on one board) and Cy Dow
    (second on the other) have the same formatted address, and the graph
    ends up with two address nodes of that label, one per officer. *)
Theorem sibling_address_nodes :
  formatAddress (Some millLane) = Some "7 Mill Lane, Leeds, LS1 1AA"
  ∧ node_id <$> filter (λ n, label (data n) = Some "7 Mill Lane, Leeds, LS1 1AA")
        (nodes (handleExpandNetwork exampleFormatDate sharedAddressRegistry
                                    (seedState 2)))
    = ["address-7-mill-lane,-leeds,--0"; "address-7-mill-lane,-leeds,--1"]
  ∧ correspondenceEdge "officer-ann" "address-7-mill-lane,-leeds,--0"
      ∈ edges (handleExpandNetwork exampleFormatDate sharedAddressRegistry
                                   (seedState 2))
  ∧ correspondenceEdge "officer-cy" "address-7-mill-lane,-leeds,--1"
      ∈ edges (handleExpandNetwork exampleFormatDate sharedAddressRegistry
                                   (seedState 2)).
Proof.
  split; [reflexivity|]. split; [vm_compute; reflexivity|].
  split; vm_compute; [do 5 right; left | do 8 right; left].
Qed.

Section ExpansionClaims.

Variable formatDate : option string → string.

(** ** C7: a frontier node whose fetch fails *)

(** C7, as amended. When the first fetch of a frontier node is answered
    without the list the branch reads (the error payload of the API routes),
    the node contributes no node, edge or neighbour, and the expansion ends
    as it would without that node in the frontier: the other nodes' results
    are merged. *)
Theorem soft_fetch_failure_absorbed registry levels currentNodes currentEdges
    before node after :
  neighborFetch registry node = FetchNoData →
  expandSingleNode formatDate registry node currentNodes currentEdges
  = Returned noExpansion
  ∧ expandLevels formatDate registry levels currentNodes currentEdges
      (before ++ node :: after)
    = expandLevels formatDate registry levels currentNodes currentEdges
      (before ++ after).
Proof.
  intros Hsoft.
  pose proof (expandSingleNode_no_data formatDate registry node) as Hnone.
  split; [by apply Hnone|].
  destruct levels as [|levels]; [done|]. cbn [expandLevels].
  rewrite !fmap_app, !promiseAll_app. rewrite fmap_cons. cbn [promiseAll].
  rewrite (Hnone _ _ Hsoft).
  destruct (promiseAll (_ <$> before)) as [|r1]; [done|].
  destruct (promiseAll (_ <$> after)) as [|r2]; [done|].
  rewrite !fmap_app, !fmap_cons, !concat_app, !foldl_app. cbn.
  done.
Qed.

(** ** C8: an expansion that throws *)

(** C8, as amended. When the expansion throws, the node list and the edge
    list stay as they were; the failure goes to the console only: the
    handler completes, the error state is not touched, and [loading] and the
    dialog are reset. *)
Theorem failed_expansion_keeps_graph registry st selected :
  selectedNode st = Some selected →
  expandLevels formatDate registry (expansionLevel st) (nodes st) (edges st)
               [selected] = Threw →
  nodes (handleExpandNetwork formatDate registry st) = nodes st
  ∧ edges (handleExpandNetwork formatDate registry st) = edges st
  ∧ error (handleExpandNetwork formatDate registry st) = error st
  ∧ console (handleExpandNetwork formatDate registry st)
    = console st ++ ["Failed to expand"]
  ∧ loading (handleExpandNetwork formatDate registry st) = false.
Proof.
  intros Hsel Hthrew. unfold handleExpandNetwork. by rewrite Hsel, Hthrew.
Qed.

(** ** C10: address expansion and known companies *)

(** C10. When an address node is expanded and the location search returns a
    company whose number is already a node id of the graph, the expansion
    creates no node of that id and no edge that targets it, whatever edges
    the graph has: no registered-at edge is added for a known company. *)
Theorem address_expansion_skips_known registry nodeToExpand currentNodes
    currentEdges items company :
  type (data nodeToExpand) = Kind.address →
  search_address registry (label (data nodeToExpand)) = Returned (Some items) →
  company ∈ items →
  company_number company ∈ node_id <$> currentNodes →
  ∃ r, expandSingleNode formatDate registry nodeToExpand currentNodes currentEdges
       = Returned r
       ∧ (∀ n, n ∈ newNodes r → node_id n ≠ company_number company)
       ∧ (∀ e, e ∈ newEdges r → target e ≠ company_number company).
Proof.
  intros Hkind Hsearch _ Hknown. unfold expandSingleNode.
  rewrite Hkind, Hsearch. eexists. split; [reflexivity|].
  destruct (addLocatedCompany_fold formatDate nodeToExpand currentNodes items
              noExpansion) as [Hn He].
  - by intros n Hn%elem_of_nil.
  - by intros e He%elem_of_nil.
  - split.
    + intros n Hin Heq. apply (Hn n Hin). by rewrite Heq.
    + intros e Hin Heq. apply (He e Hin). by rewrite Heq.
Qed.

End ExpansionClaims.

Lemma soft_fetch_failure_absorbed_witness :
  expandSingleNode exampleFormatDate flakyRegistry rootAddressNode seedGraph.1
                   seedGraph.2
  = Returned noExpansion
  ∧ expandLevels exampleFormatDate flakyRegistry 1 seedGraph.1 seedGraph.2
      ([janeNode] ++ rootAddressNode :: [])
    = expandLevels exampleFormatDate flakyRegistry 1 seedGraph.1 seedGraph.2
      ([janeNode] ++ []).
Proof.
  apply (soft_fetch_failure_absorbed exampleFormatDate flakyRegistry 1
           seedGraph.1 seedGraph.2 [janeNode] rootAddressNode []).
  reflexivity.
Defined.

(** C7 as stated fails when the fetch itself rejects: the first fetch of a
    branch is awaited outside any [try], [Promise.all] rejects with it, and
    the handler's [catch] drops the whole expansion. Company 11111111 alone
    expands to a new officer; in a frontier with 22222222, whose fetch
    rejects, nothing is merged. *)
Lemma hard_fetch_failure_counterexample :
  neighborFetch flakyRegistry company2Node = FetchThrew
  ∧ (node_id <$> (default ([], [])
       (match expandLevels exampleFormatDate flakyRegistry 1
                           [janeNode; company1Node; company2Node] []
                           [company1Node] with
        | Returned g => Some g
        | Threw => None
        end)).1
     = ["officer-abc"; "11111111"; "22222222"; "officer-ann"])
  ∧ expandLevels exampleFormatDate flakyRegistry 1
                 [janeNode; company1Node; company2Node] []
                 [company1Node; company2Node] = Threw
  ∧ nodes (handleExpandNetwork exampleFormatDate flakyRegistry (seedState 2))
    = nodes (seedState 2).
Proof. repeat split; vm_compute; reflexivity. Qed.

Lemma failed_expansion_keeps_graph_witness :
  nodes (handleExpandNetwork exampleFormatDate flakyRegistry (seedState 2))
  = nodes (seedState 2)
  ∧ edges (handleExpandNetwork exampleFormatDate flakyRegistry (seedState 2))
    = edges (seedState 2)
  ∧ error (handleExpandNetwork exampleFormatDate flakyRegistry (seedState 2))
    = error (seedState 2)
  ∧ console (handleExpandNetwork exampleFormatDate flakyRegistry (seedState 2))
    = console (seedState 2) ++ ["Failed to expand"]
  ∧ loading (handleExpandNetwork exampleFormatDate flakyRegistry (seedState 2))
    = false.
Proof.
  apply (failed_expansion_keeps_graph exampleFormatDate flakyRegistry
           (seedState 2) janeNode); reflexivity.
Defined.

(** C8 as stated fails in its last part: after an expansion that throws, the
    error state that the component shows is still empty; the message is in
    the console only. *)
Lemma failed_expansion_counterexample :
  expandLevels exampleFormatDate flakyRegistry 2 seedGraph.1 seedGraph.2
               [janeNode] = Threw
  ∧ error (handleExpandNetwork exampleFormatDate flakyRegistry (seedState 2))
    = None
  ∧ console (handleExpandNetwork exampleFormatDate flakyRegistry (seedState 2))
    = ["Failed to expand"].
Proof. repeat split; vm_compute; reflexivity. Qed.

Lemma address_expansion_skips_known_witness :
  ∃ r, expandSingleNode exampleFormatDate locationRegistry rootAddressNode
                        seedGraph.1 seedGraph.2
       = Returned r
       ∧ (∀ n, n ∈ newNodes r → node_id n ≠ company_number seedCompany)
       ∧ (∀ e, e ∈ newEdges r → target e ≠ company_number seedCompany).
Proof.
  apply (address_expansion_skips_known exampleFormatDate locationRegistry
           rootAddressNode seedGraph.1 seedGraph.2
           [seedCompany; mkCompany "44444444" highStreet] seedCompany).
  - reflexivity.
  - reflexivity.
  - left.
  - vm_compute. left.
Defined.

(** * More on the highlighter *)

Lemma styled_node_emphasised_iff ns (nodes : list Node) n :
  n ∈ style_node ns <$> nodes → (node_emphasised n ↔ node_id n ∈ ns).
Proof.
  intros (m & -> & _)%list_elem_of_fmap. unfold node_emphasised. cbn.
  case_decide; split; done.
Qed.

Lemma styled_edge_emphasised_iff es (edges : list Edge) e :
  e ∈ style_edge es <$> edges → (edge_emphasised e ↔ edge_id e ∈ es).
Proof.
  intros (m & -> & _)%list_elem_of_fmap. unfold edge_emphasised. cbn.
  case_bool_decide; split; done.
Qed.

Lemma blocked_other nodes a b v :
  blocked nodes a v = false → v ≠ a → blocked nodes b v = false.
Proof.
  unfold blocked. destruct (find_node v nodes) as [n|]; [|done].
  intros Hb Hne. apply String.eqb_neq in Hne. rewrite Hne in Hb. cbn in Hb.
  rewrite andb_true_r in Hb. by rewrite Hb.
Qed.

Lemma links_sym e x y : links e x y → links e y x.
Proof. intros [?|?]; [by right|by left]. Qed.

Lemma reach_back nodes edges a w :
  reach nodes edges a w →
  ∀ b, blocked nodes b w = false → reach nodes edges b w → reach nodes edges b a.
Proof.
  induction 1 as [|v w e Hr IH Hb He Hl]; intros b Hbw Hrw; [done|].
  assert (Hrv : reach nodes edges b v).
  { eapply reach_step; [exact Hrw|done|exact He|by apply links_sym]. }
  destruct (decide (v = a)) as [->|Hne]; [done|].
  apply IH; [by eapply blocked_other|done].
Qed.

(** X1. With a node active, a node of the graph is drawn emphasised exactly
    when it is reachable from the active node along edges, taken in either
    direction, without passing through a company other than the active
    node. *)
Theorem emphasised_iff_reachable nodes edges hovered selected a n :
  js_or hovered (node_id <$> selected) = Some a → a ≠ "" →
  n ∈ (styledNodesEdges nodes edges hovered selected).1 →
  (node_emphasised n ↔ reach nodes edges a (node_id n)).
Proof.
  intros Hact Hne. rewrite (styled_active _ _ _ _ _ Hact Hne). cbn [fst].
  intros Hn. rewrite (styled_node_emphasised_iff _ _ _ Hn).
  apply connected_reach.
Qed.

Lemma emphasised_iff_reachable_witness :
  node_emphasised (style_node {["O1"; "C"]} (exampleNode "C" Kind.company))
  ↔ reach blockingNodes blockingEdges "O1" "C".
Proof.
  apply (emphasised_iff_reachable blockingNodes blockingEdges (Some "O1") None
           "O1" (style_node {["O1"; "C"]} (exampleNode "C" Kind.company))).
  - reflexivity.
  - discriminate.
  - vm_compute. left.
Defined.

(** X2. In a graph with unique edge ids and a node active, an edge is drawn
    emphasised exactly when both its ends are reachable from the active
    node: the final pass over the edges makes this an equivalence. *)
Theorem edge_emphasised_iff_ends nodes edges hovered selected a e :
  js_or hovered (node_id <$> selected) = Some a → a ≠ "" →
  NoDup (edge_id <$> edges) →
  e ∈ (styledNodesEdges nodes edges hovered selected).2 →
  (edge_emphasised e
   ↔ reach nodes edges a (source e) ∧ reach nodes edges a (target e)).
Proof.
  intros Hact Hne Hnd. rewrite (styled_active _ _ _ _ _ Hact Hne). cbn [snd].
  intros He. rewrite (styled_edge_emphasised_iff _ _ _ He).
  apply list_elem_of_fmap in He as (m & -> & Hm). cbn.
  destruct (connected_spec nodes edges a) as (_ & _ & _ & Hes).
  rewrite Hes, <- !connected_reach. split.
  - intros (e' & He' & Hid & Hs & Ht).
    assert (e' = m) as -> by by eapply (NoDup_fmap_inj_on edge_id).
    done.
  - intros [Hs Ht]. by exists m.
Qed.

Lemma edge_emphasised_iff_ends_witness :
  edge_emphasised (style_edge {["e-C-O1"]} (exampleEdge "C" "O2"))
  ↔ reach blockingNodes blockingEdges "O1" "C"
    ∧ reach blockingNodes blockingEdges "O1" "O2".
Proof.
  apply (edge_emphasised_iff_ends blockingNodes blockingEdges (Some "O1") None
           "O1" (style_edge {["e-C-O1"]} (exampleEdge "C" "O2"))).
  - reflexivity.
  - discriminate.
  - apply NoDup_cons. split; [|apply NoDup_singleton].
    intros H%list_elem_of_singleton. discriminate H.
  - vm_compute. right; left.
Defined.

(** X3. Emphasis is mutual: [b] is among the nodes connected to the active
    node [a] exactly when [a] is among the nodes connected to the active
    node [b], whatever the kinds of the two nodes. *)
Theorem emphasis_symmetric nodes edges a b :
  b ∈ (connected nodes edges a).1 ↔ a ∈ (connected nodes edges b).1.
Proof.
  rewrite !connected_reach. split; intros Hr.
  - apply (reach_back _ _ _ _ Hr); [apply blocked_active|constructor].
  - apply (reach_back _ _ _ _ Hr); [apply blocked_active|constructor].
Qed.

(** X4. Every node joined to the active node by an edge is emphasised, and
    so is the joining edge: the stopping rule never applies to the active
    node itself, company or not. *)
Theorem active_neighbours_emphasised nodes edges hovered selected a e w :
  js_or hovered (node_id <$> selected) = Some a → a ≠ "" →
  e ∈ edges → links e a w →
  (∀ n, n ∈ (styledNodesEdges nodes edges hovered selected).1 →
        node_id n = a ∨ node_id n = w → node_emphasised n)
  ∧ (∀ e', e' ∈ (styledNodesEdges nodes edges hovered selected).2 →
           edge_id e' = edge_id e → edge_emphasised e').
Proof.
  intros Hact Hne He Hl. rewrite (styled_active _ _ _ _ _ Hact Hne). cbn [fst snd].
  destruct (connected_spec nodes edges a) as (Ha & Hexp & _ & Hes).
  assert (Hw : w ∈ (connected nodes edges a).1).
  { destruct (Hexp e He) as [H1 H2]. destruct Hl as [[Hs Ht]|[Hs Ht]].
    - rewrite <- Ht. apply H1; rewrite Hs; [done|apply blocked_active].
    - rewrite <- Hs. apply H2; rewrite Ht; [done|apply blocked_active]. }
  split.
  - intros n Hn [Hid|Hid]; eapply styled_node_emphasised; eauto; by rewrite Hid.
  - intros e' He' Hid. eapply styled_edge_emphasised; [done|]. rewrite Hid.
    apply Hes. exists e. split; [done|]. split; [done|].
    destruct Hl as [[-> ->]|[-> ->]]; done.
Qed.

Lemma active_neighbours_emphasised_witness :
  (∀ n, n ∈ (styledNodesEdges blockingNodes blockingEdges (Some "C") None).1 →
        node_id n = "C" ∨ node_id n = "O2" → node_emphasised n)
  ∧ (∀ e', e' ∈ (styledNodesEdges blockingNodes blockingEdges (Some "C") None).2 →
           edge_id e' = edge_id (exampleEdge "C" "O2") → edge_emphasised e').
Proof.
  apply (active_neighbours_emphasised blockingNodes blockingEdges (Some "C") None
           "C" (exampleEdge "C" "O2") "O2").
  - reflexivity.
  - discriminate.
  - right; left.
  - by left.
Defined.

(** X5. When no edge of the graph touches the active node, for instance
    when the selected node is no longer part of the graph, every other node
    and every edge is dimmed. *)
Theorem isolated_active_dims_rest nodes edges hovered selected a :
  js_or hovered (node_id <$> selected) = Some a → a ≠ "" →
  (∀ e, e ∈ edges → ¬ touches e a) →
  (∀ n, n ∈ (styledNodesEdges nodes edges hovered selected).1 →
        node_id n ≠ a → node_dimmed n)
  ∧ (∀ e, e ∈ (styledNodesEdges nodes edges hovered selected).2 → edge_dimmed e).
Proof.
  intros Hact Hne Hiso. rewrite (styled_active _ _ _ _ _ Hact Hne). cbn [fst snd].
  destruct (connected_spec nodes edges a) as (_ & _ & Hsound & Hes).
  assert (Hns : ∀ v, v ∈ (connected nodes edges a).1 → v = a).
  { apply (Hsound (λ v, v = a)). split; [done|].
    intros e He. split; intros Hx _; destruct (Hiso e He); [by left|by right]. }
  split.
  - intros n Hn Hid. eapply styled_node_dimmed; [done|]. intros Hin.
    by apply Hid, Hns.
  - intros e He. eapply styled_edge_dimmed; [done|].
    rewrite Hes. intros (e' & He' & _ & Hs & _).
    apply (Hiso e' He'). left. by apply Hns.
Qed.

Lemma isolated_active_dims_rest_witness :
  (∀ n, n ∈ (styledNodesEdges blockingNodes blockingEdges (Some "gone") None).1 →
        node_id n ≠ "gone" → node_dimmed n)
  ∧ (∀ e, e ∈ (styledNodesEdges blockingNodes blockingEdges (Some "gone") None).2 →
          edge_dimmed e).
Proof.
  apply (isolated_active_dims_rest blockingNodes blockingEdges (Some "gone") None
           "gone").
  - reflexivity.
  - discriminate.
  - intros e He [Ht|Ht];
      apply elem_of_cons in He as [-> | He];
      try (apply list_elem_of_singleton in He as ->); discriminate Ht.
Defined.

(** * More on the helpers *)

Lemma find_app_first {A} (f : A → bool) (l1 l2 : list A) :
  List.find f (l1 ++ l2)
  = match List.find f l1 with Some x => Some x | None => List.find f l2 end.
Proof. induction l1 as [|x l1 IH]; cbn; [done|]. by destruct (f x). Qed.

Section KeepFirstMore.

Context {A : Type} (key : A → string).

Lemma keep_first_acc (l : list A) : ∀ acc,
  (foldl (keep_first key) acc l).2
  = acc.2 ++ (foldl (keep_first key) (acc.1, []) l).2.
Proof.
  induction l as [|x l IH]; intros acc; cbn.
  - by rewrite app_nil_r.
  - unfold keep_first at 2 4. cbn [fst snd]. case_decide.
    + apply IH.
    + rewrite IH. cbn [fst snd].
      rewrite (IH ({[key x]} ∪ acc.1, [] ++ [x])). cbn [fst snd].
      by rewrite <- app_assoc.
Qed.

Lemma keep_first_unique (l : list A) : ∀ s acc,
  NoDup (key <$> l) → (∀ x, x ∈ l → key x ∉ s) →
  (foldl (keep_first key) (s, acc) l).2 = acc ++ l.
Proof.
  induction l as [|x l IH]; intros s acc Hnd Hs; cbn.
  - by rewrite app_nil_r.
  - apply NoDup_cons in Hnd as [Hx Hnd]. unfold keep_first at 2. cbn [fst snd].
    rewrite decide_False by (apply Hs; left).
    rewrite IH; [by rewrite <- app_assoc|done|].
    intros y Hy Hin. apply elem_of_union in Hin as [Heq%elem_of_singleton|Hin].
    + apply Hx. rewrite <- Heq. apply list_elem_of_fmap. eauto.
    + apply (Hs y); [by right|done].
Qed.

Lemma keep_first_find (l : list A) k : ∀ acc,
  (∀ k', k' ∈ acc.1 ↔ k' ∈ key <$> acc.2) →
  List.find (λ x, String.eqb (key x) k) (foldl (keep_first key) acc l).2
  = match List.find (λ x, String.eqb (key x) k) acc.2 with
    | Some x => Some x
    | None => List.find (λ x, String.eqb (key x) k) l
    end.
Proof.
  induction l as [|x l IH]; intros acc Hacc; cbn [foldl].
  - cbn. by destruct (find _ _).
  - rewrite IH.
    + unfold keep_first. case_decide as Hin; cbn [fst snd].
      * destruct (find _ acc.2) as [y|] eqn:Hf; [done|]. cbn.
        destruct (String.eqb (key x) k) eqn:Hk; [|done].
        apply String.eqb_eq in Hk. subst k.
        apply Hacc, list_elem_of_fmap in Hin as (y & Hy & Hyin).
        apply list_elem_of_In in Hyin.
        pose proof (find_none _ _ Hf y Hyin) as Hn. cbn in Hn.
        rewrite <- Hy, String.eqb_refl in Hn. done.
      * rewrite find_app_first. destruct (find _ acc.2); [done|]. cbn.
        by destruct (String.eqb (key x) k).
    + unfold keep_first. case_decide; [done|]. cbn. intros k'.
      rewrite fmap_app, elem_of_app, elem_of_union, elem_of_singleton, Hacc. cbn.
      rewrite list_elem_of_singleton. tauto.
Qed.

Lemma keep_first_find_start (l : list A) k :
  List.find (λ x, String.eqb (key x) k) (foldl (keep_first key) (∅, []) l).2
  = List.find (λ x, String.eqb (key x) k) l.
Proof.
  rewrite keep_first_find; [done|]. cbn. intros k'.
  split; [set_solver|]. by intros H%elem_of_nil.
Qed.

End KeepFirstMore.

Lemma deduplicateEdges_unique edges :
  NoDup (edge_id <$> edges) → deduplicateEdges edges = edges.
Proof.
  intros Hnd. rewrite deduplicateEdges_keep_first.
  rewrite (keep_first_unique edge_id edges ∅ []); [done..|set_solver].
Qed.

Lemma deduplicateEdges_app edges more :
  NoDup (edge_id <$> edges) →
  ∃ rest, deduplicateEdges (edges ++ more) = edges ++ rest.
Proof.
  intros Hnd. rewrite deduplicateEdges_keep_first, foldl_app.
  rewrite keep_first_acc. eexists. f_equal.
  by apply deduplicateEdges_unique.
Qed.

(** X6. [deduplicateEdges] is idempotent: a deduplicated list is returned
    as it is. *)
Theorem deduplicateEdges_idempotent edges :
  deduplicateEdges (deduplicateEdges edges) = deduplicateEdges edges.
Proof. apply deduplicateEdges_unique, deduplicateEdges_NoDup. Qed.

(** X7. [deduplicateEdges] keeps, for every id, the first edge that carries
    it: looking an id up gives the same edge before and after, no id is
    lost, and no edge is invented. *)
Theorem deduplicateEdges_first_wins edges i :
  find_edge i (deduplicateEdges edges) = find_edge i edges
  ∧ (i ∈ edge_id <$> deduplicateEdges edges ↔ i ∈ edge_id <$> edges).
Proof.
  split.
  - apply (keep_first_find_start edge_id).
  - rewrite deduplicateEdges_keep_first. apply keep_first_keys.
Qed.

(** ** The address formatter *)

Lemma filter_Boolean_nonempty parts s :
  s ∈ filter_Boolean parts → s ≠ "".
Proof.
  unfold filter_Boolean. rewrite list_elem_of_omap.
  intros (p & _ & Hp). destruct (truthy p) eqn:Ht; [|done]. subst p.
  cbn in Ht. intros ->. done.
Qed.

Lemma join_empty sep parts :
  (∀ s, s ∈ parts → s ≠ "") → (join sep parts = "" ↔ parts = []).
Proof.
  intros Hne. split; [|by intros ->].
  destruct parts as [|p rest]; [done|]. intros Hj.
  assert (Hp : p ≠ "") by (apply Hne; left).
  destruct rest; cbn in Hj; [done|]. destruct p; [done|discriminate].
Qed.

Lemma filter_Boolean_nil parts :
  filter_Boolean parts = [] ↔ ∀ p, p ∈ parts → truthy p = false.
Proof.
  unfold filter_Boolean. induction parts as [|q parts IH]; cbn.
  - split; [by intros _ p Hp%elem_of_nil|done].
  - destruct (truthy q) eqn:Hq.
    + destruct q as [s|]; [|done]. cbn. split; [done|].
      intros H. specialize (H (Some s)). rewrite Hq in H.
      discriminate H. left.
    + replace (if truthy q then q else None) with (@None string)
        by by rewrite Hq.
      cbn. rewrite IH. split.
      * intros H p [->|Hp]%elem_of_cons; auto.
      * intros H p Hp. apply H. by right.
Qed.

Lemma formatAddress_blank a :
  formatAddress (Some a) = Some "" ↔ blankAddress a.
Proof.
  unfold blankAddress.
  set (parts := [address_line_1 a; address_line_2 a; locality a; region a;
                 postal_code a; country a]).
  assert (Hf : formatAddress (Some a) = Some (join ", " (filter_Boolean parts)))
    by reflexivity.
  rewrite Hf. clear Hf.
  assert (Hiff : join ", " (filter_Boolean parts) = ""
                 ↔ ∀ p, p ∈ parts → truthy p = false).
  { rewrite join_empty by apply filter_Boolean_nonempty.
    apply filter_Boolean_nil. }
  split.
  - intros Hj. assert (Hj' : join ", " (filter_Boolean parts) = "") by congruence.
    destruct Hiff as [Hto _]. specialize (Hto Hj').
    repeat split; apply Hto; unfold parts; set_solver.
  - intros (H1 & H2 & H3 & H4 & H5 & H6). f_equal. destruct Hiff as [_ Hfrom].
    apply Hfrom.
    intros p Hp. unfold parts in Hp.
    repeat (apply elem_of_cons in Hp as [-> | Hp]; [done|]).
    by apply elem_of_nil in Hp.
Qed.

(** X8. The formatted address is the empty string exactly when no component
    of the record is a non-empty string; the assembler and the company
    expansion then treat the officer as having no address. *)
Theorem formatAddress_empty_iff a :
  formatAddress (Some a) = Some "" ↔ blankAddress a.
Proof. apply formatAddress_blank. Qed.

(** X9. When line 2, region, postal code and country are all absent or
    empty, the six-field projection and the two-field label (line 1,
    locality) are the same string, so the two ways of matching addresses
    agree on such records. *)
Theorem formatAddress_short a :
  truthy (address_line_2 a) = false → truthy (region a) = false →
  truthy (postal_code a) = false → truthy (country a) = false →
  formatAddress (Some a) = Some (shortAddressLabel a).
Proof.
  intros H2 H4 H5 H6. unfold formatAddress, shortAddressLabel, filter_Boolean.
  cbn. rewrite H2, H4, H5, H6.
  by destruct (truthy (address_line_1 a)), (address_line_1 a),
       (truthy (locality a)), (locality a).
Qed.

Lemma formatAddress_short_witness :
  formatAddress (Some {| address_line_1 := Some "1 High St"; address_line_2 := Some "";
                         locality := Some "London"; region := None;
                         postal_code := None; country := None |})
  = Some (shortAddressLabel
            {| address_line_1 := Some "1 High St"; address_line_2 := Some "";
               locality := Some "London"; region := None;
               postal_code := None; country := None |}).
Proof.
  apply (formatAddress_short
           {| address_line_1 := Some "1 High St"; address_line_2 := Some "";
              locality := Some "London"; region := None;
              postal_code := None; country := None |}); reflexivity.
Defined.

(** * More on the assembler *)

Lemma address_pass_edges company (officers : list Officer) :
  let N := (foldl (addOfficerAddress company) ([], []) (indexed officers)).1 in
  let E := (foldl (addOfficerAddress company) ([], []) (indexed officers)).2 in
  ∀ e, e ∈ E →
    ∃ i officer, officers !! i = Some officer
      ∧ source e = assemblyOfficerId officer i
      ∧ (target e = "address-1" ∨ target e ∈ node_id <$> N).
Proof.
  induction officers as [|o officers IH] using rev_ind.
  - cbn. by intros e He%elem_of_nil.
  - cbn zeta in *. rewrite indexed_snoc, foldl_app. cbn [foldl].
    set (acc := foldl (addOfficerAddress company) ([], []) (indexed officers)) in *.
    rewrite addOfficerAddress_label.
    assert (Hold : ∀ e, e ∈ acc.2 → ∀ more,
              ∃ i officer, (officers ++ [o]) !! i = Some officer
                ∧ source e = assemblyOfficerId officer i
                ∧ (target e = "address-1" ∨ target e ∈ node_id <$> acc.1 ++ more)).
    { intros e He more. destruct (IH e He) as (i & officer & Hi & Hs & Ht).
      exists i, officer. split; [by apply lookup_app_l_Some|]. split; [done|].
      destruct Ht as [?|Ht]; [by left|right].
      rewrite fmap_app. apply elem_of_app. by left. }
    destruct (officerAddressLabel o) as [lbl|] eqn:Hlbl.
    2:{ intros e He. destruct (Hold e He []) as (i & officer & ? & ? & Ht).
        rewrite app_nil_r in Ht. eauto. }
    cbn [fst snd]. intros e [He|He]%elem_of_app; [by apply Hold|].
    apply list_elem_of_singleton in He as ->. cbn.
    exists (length officers), o. split.
    { rewrite lookup_app_r by done. by rewrite Nat.sub_diag. }
    split; [done|]. unfold officerAddressNodeId.
    destruct (find_label lbl acc.1) as [n|] eqn:Hf.
    + right. apply find_label_Some in Hf as [Hn _]. rewrite app_nil_r.
      apply list_elem_of_fmap. eauto.
    + case_bool_decide; [by left|]. right.
      rewrite fmap_app. apply elem_of_app. right. cbn. left.
Qed.

Lemma keep_first_key_NoDup_id {A} (key : A → string) (l : list A) :
  NoDup (key <$> l) → (foldl (keep_first key) (∅, []) l).2 = l.
Proof.
  intros Hnd. rewrite (keep_first_unique key l ∅ []); [done..|set_solver].
Qed.

Lemma imap_indexed {A B} (f : nat → A → B) (l : list A) :
  (λ ix, f ix.1 ix.2) <$> indexed l = imap f l.
Proof.
  unfold indexed. rewrite fmap_imap. apply imap_ext. by intros.
Qed.

Lemma append_inv_head (p x y : string) : p +:+ x = p +:+ y → x = y.
Proof. induction p as [|c p IH]; cbn; [done|]. intros [= H]. by apply IH. Qed.

Lemma pscNodes_all (pscs : list Psc) :
  (foldl addPscNode (∅, []) (indexed pscs)).2 = imap pscNode pscs.
Proof.
  rewrite addPscNode_keep_first, imap_indexed.
  apply keep_first_key_NoDup_id.
  rewrite fmap_imap. unfold compose. cbn.
  apply NoDup_alt. intros i j x Hi Hj.
  apply list_lookup_imap_Some in Hi as (p & _ & ->).
  apply list_lookup_imap_Some in Hj as (q & _ & Heq).
  unfold compose in Heq. cbn [pscNode node_id] in Heq.
  apply append_inv_head in Heq. by apply (inj pretty) in Heq.
Qed.

Lemma elem_of_assembled i (cn ra : Node) (ON PN AN : list Node) :
  i ∈ node_id <$> [cn] ++ ON ++ PN ++ [ra] ++ AN
  ↔ i = node_id cn ∨ i ∈ node_id <$> ON ∨ i ∈ node_id <$> PN
    ∨ i = node_id ra ∨ i ∈ node_id <$> AN.
Proof.
  rewrite !fmap_app, !elem_of_app. cbn. rewrite !list_elem_of_singleton. tauto.
Qed.

Lemma filter_none {A} (P : A → Prop) `{∀ x, Decision (P x)} (l : list A) :
  (∀ x, x ∈ l → ¬ P x) → filter P l = [].
Proof.
  induction l as [|x l IH]; intros Hl; [done|].
  rewrite filter_cons, decide_False by (apply Hl; left).
  apply IH. intros y Hy. apply Hl. by right.
Qed.

Lemma filter_all {A} (P : A → Prop) `{∀ x, Decision (P x)} (l : list A) :
  (∀ x, x ∈ l → P x) → filter P l = l.
Proof.
  induction l as [|x l IH]; intros Hl; [done|].
  rewrite filter_cons, decide_True by (apply Hl; left).
  f_equal. apply IH. intros y Hy. apply Hl. by right.
Qed.

Lemma officerNodes_kinds (officers : list Officer) :
  ∀ n, n ∈ (foldl addOfficerNode (∅, []) (indexed officers)).2 →
       ¬ type (data n) = Kind.psc.
Proof.
  rewrite addOfficerNode_keep_first.
  intros n Hn%keep_first_sub. apply list_elem_of_fmap in Hn as ([i o] & -> & _).
  done.
Qed.

Section AssemblerMore.

Variable formatDate : option string → string.

Lemma assemble_parts company officers pscs nodes edges :
  assemble formatDate company officers pscs = Some (nodes, edges) →
  ∃ companyNode rootAddress,
    node_id companyNode = company_number company
    ∧ type (data companyNode) = Kind.company
    ∧ node_id rootAddress = "address-1"
    ∧ type (data rootAddress) = Kind.address
    ∧ nodes = [companyNode]
              ++ (foldl addOfficerNode (∅, []) (indexed officers)).2
              ++ (foldl addPscNode (∅, []) (indexed (default [] pscs))).2
              ++ [rootAddress]
              ++ (foldl (addOfficerAddress company) ([], []) (indexed officers)).1
    ∧ edges = deduplicateEdges
        (((λ node, mkEdge (company_number company) (node_id node)
                          (role (data node)) slate None)
            <$> (foldl addOfficerNode (∅, []) (indexed officers)).2)
         ++ ((λ node, mkEdge (company_number company) (node_id node)
                             (Some "PSC") amber None)
               <$> (foldl addPscNode (∅, []) (indexed (default [] pscs))).2)
         ++ [mkEdge (company_number company) "address-1"
                    (Some "Registered Office") slate None]
         ++ (foldl (addOfficerAddress company) ([], []) (indexed officers)).2).
Proof.
  unfold assemble. destruct (registered_office_address company) as [roa|]; [|done].
  destruct (foldl (addOfficerAddress company) _ _) as [N E].
  intros Heq. injection Heq as <- <-. eexists _, _.
  repeat split; reflexivity.
Qed.

(** X10. Address-reuse law. An officer whose formatted address equals the
    company's formatted registered office is linked to the root address
    slot [address-1], and the address pass creates no node for that
    address. *)
Theorem address_reuse company officers i officer addressLabel :
  officers !! i = Some officer →
  officerAddressLabel officer = Some addressLabel →
  Some addressLabel = formatAddress (registered_office_address company) →
  assemblyAddressId company officers i = Some "address-1"
  ∧ correspondenceEdge (assemblyOfficerId officer i) "address-1"
      ∈ (foldl (addOfficerAddress company) ([], []) (indexed officers)).2
  ∧ ∀ n, n ∈ (foldl (addOfficerAddress company) ([], []) (indexed officers)).1 →
         label (data n) ≠ Some addressLabel.
Proof.
  intros Hi Hl Hc.
  destruct (address_pass_inv company officers) as (Ha & _ & _ & Hd).
  destruct (Hd i officer addressLabel Hi Hl) as (He & Ht & _).
  unfold assemblyAddressId. rewrite Hi. cbn. rewrite Hl. cbn.
  rewrite (Ht Hc) in *. split; [done|]. split; [done|].
  intros n Hn Hlab. destruct (Ha n Hn) as (_ & _ & _ & _ & _ & Hne).
  congruence.
Qed.

Lemma assemble_no_dangling company officers pscs nodes edges :
  assemble formatDate company officers pscs = Some (nodes, edges) →
  endpoints_exist nodes edges.
Proof.
  intros Hasm.
  destruct (assemble_parts _ _ _ _ _ Hasm)
    as (cn & ra & Hcn & _ & Hra & _ & -> & ->).
  intros e He%keep_first_sub.
  set (ON := (foldl addOfficerNode (∅, []) (indexed officers)).2) in *.
  set (PN := (foldl addPscNode (∅, []) (indexed (default [] pscs))).2) in *.
  set (AN := (foldl (addOfficerAddress company) ([], []) (indexed officers)).1) in *.
  assert (Hroot : company_number company
                  ∈ node_id <$> [cn] ++ ON ++ PN ++ [ra] ++ AN).
  { apply elem_of_assembled. by left. }
  assert (Haddr1 : "address-1" ∈ node_id <$> [cn] ++ ON ++ PN ++ [ra] ++ AN).
  { apply elem_of_assembled. by do 3 right; left. }
  apply elem_of_app in He as [He|He];
    [|apply elem_of_app in He as [He|He]; [|apply elem_of_app in He as [He|He]]].
  - apply list_elem_of_fmap in He as (n & -> & Hn). cbn [source target mkEdge].
    split; [done|]. apply elem_of_assembled. right; left.
    apply list_elem_of_fmap. eauto.
  - apply list_elem_of_fmap in He as (n & -> & Hn). cbn [source target mkEdge].
    split; [done|]. apply elem_of_assembled. do 2 right; left.
    apply list_elem_of_fmap. eauto.
  - apply list_elem_of_singleton in He as ->. done.
  - destruct (address_pass_edges company officers e He)
      as (i & officer & Hi & Hs & Ht).
    split.
    + rewrite Hs. apply elem_of_assembled. right; left.
      unfold ON. rewrite addOfficerNode_keep_first.
      apply keep_first_keys. rewrite <- list_fmap_compose.
      apply list_elem_of_fmap. exists (i, officer). split; [done|].
      unfold indexed. apply list_elem_of_lookup. exists i.
      rewrite list_lookup_imap, Hi. done.
    + destruct Ht as [->|Ht]; [done|].
      apply elem_of_assembled. by do 4 right.
Qed.

(** X11. The assembled graph has no dangling edge: the source and the
    target of every edge are ids of assembled nodes. *)
Theorem assemble_endpoints_exist company officers pscs nodes edges :
  assemble formatDate company officers pscs = Some (nodes, edges) →
  endpoints_exist nodes edges.
Proof. apply assemble_no_dangling. Qed.

(** X12. No PSC is ever dropped or merged: the PSC nodes of the assembled
    graph are one per entry of the PSC list, in order, the [i]th with id
    [psc-i]. *)
Theorem assemble_psc_nodes company officers pscs nodes edges :
  assemble formatDate company officers pscs = Some (nodes, edges) →
  filter (λ n, type (data n) = Kind.psc) nodes = imap pscNode (default [] pscs).
Proof.
  intros Hasm.
  destruct (assemble_parts _ _ _ _ _ Hasm)
    as (cn & ra & _ & Hcnk & _ & Hrak & -> & _).
  destruct (address_pass_inv company officers) as (Ha & _).
  rewrite pscNodes_all, !filter_app.
  replace (filter _ [cn]) with (@nil Node).
  2:{ cbn. rewrite decide_False; [done|]. by rewrite Hcnk. }
  replace (filter _ [ra]) with (@nil Node).
  2:{ cbn. rewrite decide_False; [done|]. by rewrite Hrak. }
  rewrite (filter_none _ _ (officerNodes_kinds officers)).
  rewrite (filter_none _ (foldl (addOfficerAddress company) _ _).1).
  2:{ intros n Hn. destruct (Ha n Hn) as (_ & _ & _ & _ & Hk & _). by rewrite Hk. }
  cbn [app]. rewrite app_nil_r.
  apply filter_all. intros n Hn.
  apply elem_of_lookup_imap in Hn as (i & p & -> & _). done.
Qed.

(** X13. Officer dedup is by computed id and the first occurrence wins: the
    officer nodes of the assembled graph have pairwise distinct ids, and the
    node found under an id is the one made from the first officer of the
    list that computes to this id. *)
Theorem assemble_officer_first_wins company officers pscs nodes edges i :
  assemble formatDate company officers pscs = Some (nodes, edges) →
  NoDup (node_id <$> filter (λ n, type (data n) = Kind.officer) nodes)
  ∧ find_node i (filter (λ n, type (data n) = Kind.officer) nodes)
    = find_node i (allOfficerNodes officers).
Proof.
  intros Hasm.
  destruct (assemble_parts _ _ _ _ _ Hasm)
    as (cn & ra & _ & Hcnk & _ & Hrak & -> & _).
  destruct (address_pass_inv company officers) as (Ha & _).
  assert (Hfilter : filter (λ n, type (data n) = Kind.officer)
                      ([cn] ++ (foldl addOfficerNode (∅, []) (indexed officers)).2
                       ++ (foldl addPscNode (∅, []) (indexed (default [] pscs))).2
                       ++ [ra]
                       ++ (foldl (addOfficerAddress company) ([], [])
                                 (indexed officers)).1)
                    = (foldl addOfficerNode (∅, []) (indexed officers)).2).
  { rewrite !filter_app.
    rewrite (filter_none _ [cn]) by (intros n ->%list_elem_of_singleton; by rewrite Hcnk).
    rewrite (filter_none _ [ra]) by (intros n ->%list_elem_of_singleton; by rewrite Hrak).
    rewrite (filter_none _ (foldl addPscNode _ _).2).
    2:{ rewrite pscNodes_all. intros n Hn.
        apply elem_of_lookup_imap in Hn as (k & p & -> & _). done. }
    rewrite (filter_none _ (foldl (addOfficerAddress company) _ _).1).
    2:{ intros n Hn. destruct (Ha n Hn) as (_ & _ & _ & _ & Hk & _). by rewrite Hk. }
    cbn [app]. rewrite app_nil_r. apply filter_all.
    rewrite addOfficerNode_keep_first.
    intros n Hn%keep_first_sub. apply list_elem_of_fmap in Hn as ([k o] & -> & _).
    done. }
  rewrite Hfilter. split; [apply officerNodes_spec|].
  rewrite addOfficerNode_keep_first. unfold find_node.
  rewrite (keep_first_find_start node_id). unfold allOfficerNodes.
  by rewrite <- (imap_indexed
    (λ index officer, officerNode (assemblyOfficerId officer index) officer)).
Qed.

(** X14. An officer whose address record is absent, or has no non-empty
    component, contributes no address node and no correspondence edge, in
    the assembler and in company expansion alike. *)
Theorem blank_address_contributes_nothing company acc currentNodes officerId
    index officer expansion :
  (∀ a, off_address officer = Some a → blankAddress a) →
  addOfficerAddress company acc (index, officer) = acc
  ∧ addNewOfficerAddress currentNodes officerId index officer expansion
    = expansion.
Proof.
  intros Hblank. unfold addOfficerAddress, addNewOfficerAddress.
  destruct (off_address officer) as [a|] eqn:Ha; [|done].
  rewrite (proj2 (formatAddress_blank a) (Hblank a eq_refl)). done.
Qed.

(** X15. The role shown for a PSC is never empty and never contains a
    hyphen: it is the first nature of control with its hyphens turned into
    spaces, or ["Significant Control"]. *)
Theorem pscRole_shape p :
  ∃ r, pscRole p = Some r ∧ r ≠ "" ∧ lacks "-" r = true.
Proof.
  unfold pscRole, js_or.
  destruct (dashes_to_spaces <$> natures_of_control p ≫= head) as [r|] eqn:Hr;
    cbn [truthy]; [|by eexists].
  destruct (String.eqb r "") eqn:He; cbn; [by eexists|].
  exists r. split; [done|]. split; [by apply String.eqb_neq|].
  apply fmap_Some in Hr as (s & _ & ->). clear.
  induction s as [|c s IH]; [done|]. cbn [dashes_to_spaces lacks].
  rewrite IH, andb_true_r. destruct (Ascii.eqb c "-") eqn:Hc; [done|].
  rewrite Ascii.eqb_sym. by rewrite Hc.
Qed.

End AssemblerMore.

Lemma assemble_endpoints_exist_witness :
  endpoints_exist seedGraph.1 seedGraph.2.
Proof.
  apply (assemble_endpoints_exist exampleFormatDate seedCompany [janeDoe] None).
  reflexivity.
Defined.

Lemma address_reuse_witness :
  assemblyAddressId seedCompany [mkOfficer "Ann Lee" (Some "ann") (Some highStreet)] 0
  = Some "address-1"
  ∧ correspondenceEdge "officer-ann" "address-1"
      ∈ (foldl (addOfficerAddress seedCompany) ([], [])
               (indexed [mkOfficer "Ann Lee" (Some "ann") (Some highStreet)])).2
  ∧ ∀ n, n ∈ (foldl (addOfficerAddress seedCompany) ([], [])
                    (indexed [mkOfficer "Ann Lee" (Some "ann") (Some highStreet)])).1 →
         label (data n) ≠ Some "1 High St, London, AB1 2CD".
Proof.
  apply (address_reuse seedCompany
           [mkOfficer "Ann Lee" (Some "ann") (Some highStreet)] 0
           (mkOfficer "Ann Lee" (Some "ann") (Some highStreet))
           "1 High St, London, AB1 2CD"); reflexivity.
Defined.

Lemma assemble_psc_nodes_witness :
  filter (λ n, type (data n) = Kind.psc) pscGraph.1
  = imap pscNode (default [] (Some examplePscs)).
Proof.
  apply (assemble_psc_nodes exampleFormatDate seedCompany [janeDoe]
           (Some examplePscs) pscGraph.1 pscGraph.2).
  reflexivity.
Defined.

Lemma assemble_officer_first_wins_witness :
  NoDup (node_id <$> filter (λ n, type (data n) = Kind.officer) seedGraph.1)
  ∧ find_node "officer-abc" (filter (λ n, type (data n) = Kind.officer) seedGraph.1)
    = find_node "officer-abc" (allOfficerNodes [janeDoe]).
Proof.
  apply (assemble_officer_first_wins exampleFormatDate seedCompany [janeDoe] None
           seedGraph.1 seedGraph.2 "officer-abc").
  reflexivity.
Defined.

Lemma blank_address_contributes_nothing_witness :
  addOfficerAddress seedCompany ([], []) (0, janeDoe) = ([], [])
  ∧ addNewOfficerAddress [] "officer-abc" 0 janeDoe noExpansion = noExpansion.
Proof.
  apply (blank_address_contributes_nothing seedCompany ([], []) [] "officer-abc"
           0 janeDoe noExpansion).
  intros a Ha. discriminate Ha.
Defined.

(** * More on the expansion engine *)

Lemma foldl_invariant {A B} (P : A → Prop) (f : A → B → A) (l : list B) :
  ∀ a, P a → (∀ a x, P a → x ∈ l → P (f a x)) → P (foldl f a l).
Proof.
  induction l as [|x l IH]; intros a Ha Hf; cbn; [done|].
  apply IH.
  - apply Hf; [done|left].
  - intros b y Hb Hy. apply Hf; [done|by right].
Qed.

Lemma mergeNode_ids currentNodes nextLevelNodes node i :
  i ∈ node_id <$> currentNodes ++ mergeNode currentNodes nextLevelNodes node
  ↔ i ∈ node_id <$> currentNodes ++ nextLevelNodes ∨ i = node_id node.
Proof.
  unfold mergeNode.
  destruct (some_node (node_id node) currentNodes) eqn:Hc.
  { apply some_node_true in Hc. split; [by left|].
    intros [?| ->]; [done|]. rewrite fmap_app. apply elem_of_app. by left. }
  destruct (some_node (node_id node) nextLevelNodes) eqn:Hn.
  { apply some_node_true in Hn. split; [by left|].
    intros [?| ->]; [done|]. rewrite fmap_app. apply elem_of_app. by right. }
  cbn [orb]. rewrite app_assoc, fmap_app, elem_of_app. cbn.
  by rewrite list_elem_of_singleton.
Qed.

Lemma mergeResult_ids currentNodes result i : ∀ nextLevelNodes,
  i ∈ node_id <$> currentNodes ++ mergeResult currentNodes nextLevelNodes result
  ↔ i ∈ node_id <$> currentNodes ++ nextLevelNodes
    ∨ i ∈ node_id <$> newNodes result.
Proof.
  unfold mergeResult. induction (newNodes result) as [|n l IH]; intros next; cbn.
  - split; [by left|]. intros [?|H]; [done|]. by apply elem_of_nil in H.
  - rewrite IH, mergeNode_ids, elem_of_cons. tauto.
Qed.

Lemma mergeResults_ids currentNodes expansionResults i : ∀ nextLevelNodes,
  i ∈ node_id <$> currentNodes
                  ++ foldl (mergeResult currentNodes) nextLevelNodes expansionResults
  ↔ i ∈ node_id <$> currentNodes ++ nextLevelNodes
    ∨ ∃ r, r ∈ expansionResults ∧ i ∈ node_id <$> newNodes r.
Proof.
  induction expansionResults as [|r l IH]; intros next; cbn.
  - split; [by left|]. intros [?|(r & Hr & _)]; [done|]. by apply elem_of_nil in Hr.
  - rewrite IH, mergeResult_ids. split.
    + intros [[?|?]|(r' & Hr' & ?)]; [by left| |].
      * right. exists r. split; [left|done].
      * right. exists r'. split; [by right|done].
    + intros [?|(r' & Hr' & ?)]; [by left; left|].
      apply elem_of_cons in Hr' as [-> |Hr']; [by left; right|].
      right. by exists r'.
Qed.

Lemma promiseAll_Returned {A} (ps : list (Fetched A)) (l : list A) :
  promiseAll ps = Returned l → ps = Returned <$> l.
Proof.
  revert l. induction ps as [|[|a] ps IH]; intros l; cbn.
  - by intros [= <-].
  - done.
  - destruct (promiseAll ps) as [|k]; [done|]. intros [= <-]. cbn.
    f_equal. by apply IH.
Qed.

Section ExpansionMore.

Variable formatDate : option string → string.

Lemma expandLevels_one registry currentNodes currentEdges node :
  expandLevels formatDate registry 1 currentNodes currentEdges [node]
  = match expandSingleNode formatDate registry node currentNodes currentEdges with
    | Threw => Threw
    | Returned r =>
        Returned (currentNodes ++ mergeResult currentNodes [] r,
                  currentEdges ++ newEdges r)
    end.
Proof.
  cbn. destruct (expandSingleNode _ _ _ _ _) as [|r]; [done|]. cbn.
  rewrite !app_nil_r. by destruct (uniqueNodes _).
Qed.

Lemma expandLevels_prefix registry levels :
  ∀ currentNodes currentEdges nodesToExpand ns es,
  expandLevels formatDate registry levels currentNodes currentEdges nodesToExpand
  = Returned (ns, es) →
  currentNodes `prefix_of` ns ∧ currentEdges `prefix_of` es.
Proof.
  induction levels as [|levels IH]; intros cn ce frontier ns es; cbn.
  - by intros [= <- <-].
  - destruct (promiseAll _) as [|results]; [done|].
    destruct (uniqueNodes _).
    + intros [= <- <-]. split; by apply prefix_app_r.
    + intros H. apply IH in H as [H1 H2]. split.
      * etrans; [|exact H1]. by apply prefix_app_r.
      * etrans; [|exact H2]. by apply prefix_app_r.
Qed.

Lemma resolveAppointment_item registry currentNodes item :
  ar_item (resolveAppointment registry currentNodes item) = item.
Proof.
  unfold resolveAppointment. destruct (find_node _ _); [done|].
  by destruct (fetch_company _ _).
Qed.

Lemma resolveAppointment_existing registry currentNodes item :
  ar_existingNode (resolveAppointment registry currentNodes item)
  = find_node (at_company_number (appointed_to item)) currentNodes.
Proof.
  unfold resolveAppointment. destruct (find_node _ _); [done|].
  by destruct (fetch_company _ _).
Qed.

Lemma find_address_Some lbl (nodes : list Node) n :
  find_address lbl nodes = Some n →
  n ∈ nodes ∧ type (data n) = Kind.address ∧ label (data n) = Some lbl.
Proof.
  unfold find_address. intros H. apply find_some in H as [Hin Heq].
  apply andb_prop in Heq as [H1 H2].
  split; [by apply list_elem_of_In|].
  split; [by apply bool_decide_eq_true in H1 | by apply bool_decide_eq_true in H2].
Qed.

Lemma branch_inv_start nodeToExpand currentNodes :
  branch_inv nodeToExpand currentNodes noExpansion.
Proof.
  split; [by intros n Hn%elem_of_nil|].
  split; [by intros e He%elem_of_nil | by intros n Hn%elem_of_nil].
Qed.

Lemma ids_known (currentNodes newer : list Node) n :
  n ∈ currentNodes → node_id n ∈ node_id <$> currentNodes ++ newer.
Proof.
  intros Hn. rewrite fmap_app. apply elem_of_app. left.
  by apply list_elem_of_fmap_2.
Qed.

Lemma ids_new (currentNodes newer : list Node) n :
  n ∈ newer → node_id n ∈ node_id <$> currentNodes ++ newer.
Proof.
  intros Hn. rewrite fmap_app. apply elem_of_app. right.
  by apply list_elem_of_fmap_2.
Qed.

Lemma ids_snoc (currentNodes newer : list Node) n i :
  i = node_id n → i ∈ node_id <$> currentNodes ++ (newer ++ [n]).
Proof.
  intros ->. rewrite !fmap_app, !elem_of_app. right. right. cbn. left.
Qed.

Lemma ids_grow (currentNodes newer more : list Node) i :
  i ∈ node_id <$> currentNodes ++ newer →
  i ∈ node_id <$> currentNodes ++ (newer ++ more).
Proof. rewrite !fmap_app, !elem_of_app. tauto. Qed.

Lemma branch_inv_extend nodeToExpand currentNodes acc r moreNodes moreEdges
    moreNeighbors :
  newNodes r = newNodes acc ++ moreNodes →
  newEdges r = newEdges acc ++ moreEdges →
  allNeighbors r = allNeighbors acc ++ moreNeighbors →
  branch_inv nodeToExpand currentNodes acc →
  (∀ n, n ∈ moreNodes → allowedNew (type (data nodeToExpand)) (type (data n))) →
  (∀ e, e ∈ moreEdges →
     (source e = node_id nodeToExpand
      ∨ source e ∈ node_id <$> currentNodes ++ (newNodes acc ++ moreNodes))
     ∧ target e ∈ node_id <$> currentNodes ++ (newNodes acc ++ moreNodes)) →
  (∀ n, n ∈ moreNeighbors →
     node_id n ∈ node_id <$> currentNodes ++ (newNodes acc ++ moreNodes)) →
  branch_inv nodeToExpand currentNodes r.
Proof.
  intros HN HE HA (Hk & He & Hn) Hk' He' Hn'. unfold branch_inv, wellLinked.
  rewrite HN, HE, HA. split; [|split].
  - intros n [?|?]%elem_of_app; auto.
  - intros e [Hin|Hin]%elem_of_app; [|by apply He'].
    destruct (He e Hin) as [[?|?] ?].
    + split; [by left|by apply ids_grow].
    + split; [right|]; by apply ids_grow.
  - intros n [Hin|Hin]%elem_of_app; [|by apply Hn'].
    by apply ids_grow, Hn.
Qed.

Lemma pushEdgeIfAbsent_inv nodeToExpand currentNodes currentEdges acc existingNode
    tgt lbl :
  branch_inv nodeToExpand currentNodes acc →
  existingNode ∈ currentNodes → node_id existingNode = tgt →
  branch_inv nodeToExpand currentNodes
    (pushEdgeIfAbsent currentEdges acc existingNode
       (mkEdge (node_id nodeToExpand) tgt lbl slate None)).
Proof.
  intros Hinv Hex Hid.
  set (e := mkEdge (node_id nodeToExpand) tgt lbl slate None).
  unfold pushEdgeIfAbsent.
  destruct (some_edge (edge_id e) currentEdges
            || some_edge (edge_id e) (newEdges acc)).
  - eapply (branch_inv_extend _ _ acc _ [] [] [existingNode]);
      [cbn; by rewrite app_nil_r|cbn; by rewrite app_nil_r|reflexivity
      |exact Hinv|..].
    + by intros n Hn%elem_of_nil.
    + by intros e' He%elem_of_nil.
    + intros n ->%list_elem_of_singleton. by apply ids_known.
  - eapply (branch_inv_extend _ _ acc _ [] [e] [existingNode]);
      [cbn; by rewrite app_nil_r|reflexivity|reflexivity|exact Hinv|..].
    + by intros n Hn%elem_of_nil.
    + intros e' ->%list_elem_of_singleton. cbn. split; [by left|].
      rewrite <- Hid. by apply ids_known.
    + intros n ->%list_elem_of_singleton. by apply ids_known.
Qed.

Lemma addAppointment_inv registry nodeToExpand currentNodes currentEdges acc item :
  type (data nodeToExpand) = Kind.officer →
  branch_inv nodeToExpand currentNodes acc →
  branch_inv nodeToExpand currentNodes
    (addAppointment formatDate nodeToExpand currentNodes currentEdges acc
       (resolveAppointment registry currentNodes item)).
Proof.
  intros Hkind Hinv. unfold addAppointment.
  rewrite resolveAppointment_existing, resolveAppointment_item.
  destruct (find_node _ currentNodes) as [ex|] eqn:Hf.
  { apply find_node_Some in Hf as [Hin Hid]. by apply pushEdgeIfAbsent_inv. }
  destruct (some_node _ (newNodes acc)) eqn:Hsome; [done|].
  eapply (branch_inv_extend _ _ acc _ [_] (_ :: _) [_]);
    [reflexivity|cbn; reflexivity|reflexivity|exact Hinv|..].
  - intros n ->%list_elem_of_singleton. by rewrite Hkind.
  - intros e [-> |He]%elem_of_cons.
    + cbn. split; [by left|]. by apply ids_snoc.
    + destruct (app_address item) as [addr|]; [|by apply elem_of_nil in He].
      destruct (find_address _ currentNodes) as [ea|] eqn:Hfa;
        [|by apply elem_of_nil in He].
      apply list_elem_of_singleton in He as ->. cbn.
      apply find_address_Some in Hfa as [Hea _].
      split; [right|by apply ids_known].
      by apply ids_snoc.
  - intros n ->%list_elem_of_singleton. by apply ids_snoc.
Qed.

Lemma addNewOfficerAddress_inv nodeToExpand currentNodes officerId index officer acc :
  type (data nodeToExpand) = Kind.company →
  officerId ∈ node_id <$> currentNodes ++ newNodes acc →
  branch_inv nodeToExpand currentNodes acc →
  branch_inv nodeToExpand currentNodes
    (addNewOfficerAddress currentNodes officerId index officer acc).
Proof.
  intros Hkind Hoff Hinv. unfold addNewOfficerAddress.
  destruct (off_address officer); [|done].
  destruct (formatAddress _) as [lbl|]; [|done].
  destruct (String.eqb lbl ""); [done|].
  destruct (find_address lbl currentNodes) as [ea|] eqn:Hfa.
  { apply find_address_Some in Hfa as [Hea _].
    eapply (branch_inv_extend _ _ acc _ [] [_] []);
      [cbn; by rewrite app_nil_r|reflexivity|cbn; by rewrite app_nil_r
      |exact Hinv|..].
    - by intros n Hn%elem_of_nil.
    - intros e ->%list_elem_of_singleton. cbn.
      split; [right; by apply ids_grow|by apply ids_known].
    - by intros n Hn%elem_of_nil. }
  destruct (find_address lbl (newNodes acc)) as [na|] eqn:Hfn.
  { apply find_address_Some in Hfn as [Hna _].
    eapply (branch_inv_extend _ _ acc _ [] [_] []);
      [cbn; by rewrite app_nil_r|reflexivity|cbn; by rewrite app_nil_r
      |exact Hinv|..].
    - by intros n Hn%elem_of_nil.
    - intros e ->%list_elem_of_singleton. cbn.
      split; [right; by apply ids_grow|]. apply ids_new, elem_of_app. by left.
    - by intros n Hn%elem_of_nil. }
  eapply (branch_inv_extend _ _ acc _ [_] [_] [_]);
    [reflexivity|reflexivity|reflexivity|exact Hinv|..].
  - intros n ->%list_elem_of_singleton. rewrite Hkind. by right.
  - intros e ->%list_elem_of_singleton. cbn.
    split; [right; by apply ids_grow|]. by apply ids_snoc.
  - intros n ->%list_elem_of_singleton. by apply ids_snoc.
Qed.

Lemma addCompanyOfficer_inv nodeToExpand currentNodes currentEdges acc io :
  type (data nodeToExpand) = Kind.company →
  branch_inv nodeToExpand currentNodes acc →
  branch_inv nodeToExpand currentNodes
    (addCompanyOfficer nodeToExpand currentNodes currentEdges acc io).
Proof.
  intros Hkind Hinv. destruct io as [index officer]. unfold addCompanyOfficer.
  destruct (find_node _ currentNodes) as [ex|] eqn:Hf.
  { apply find_node_Some in Hf as [Hin Hid]. by apply pushEdgeIfAbsent_inv. }
  destruct (some_node _ (newNodes acc)) eqn:Hsome; [done|].
  apply addNewOfficerAddress_inv; [done|..].
  { cbn. by apply ids_snoc. }
  eapply (branch_inv_extend _ _ acc _ [_] [_] [_]);
    [reflexivity|reflexivity|reflexivity|exact Hinv|..].
  - intros n ->%list_elem_of_singleton. rewrite Hkind. by left.
  - intros e ->%list_elem_of_singleton. cbn.
    split; [by left|]. by apply ids_snoc.
  - intros n ->%list_elem_of_singleton. by apply ids_snoc.
Qed.

Lemma addLocatedCompany_inv nodeToExpand currentNodes acc company :
  type (data nodeToExpand) = Kind.address →
  branch_inv nodeToExpand currentNodes acc →
  branch_inv nodeToExpand currentNodes
    (addLocatedCompany formatDate nodeToExpand currentNodes acc company).
Proof.
  intros Hkind Hinv. unfold addLocatedCompany.
  destruct (find_node _ currentNodes) as [ex|] eqn:Hf.
  { apply find_node_Some in Hf as [Hin Hid].
    eapply (branch_inv_extend _ _ acc _ [] [] [_]);
      [cbn; by rewrite app_nil_r|cbn; by rewrite app_nil_r|reflexivity
      |exact Hinv|..].
    - by intros n Hn%elem_of_nil.
    - by intros e He%elem_of_nil.
    - intros n ->%list_elem_of_singleton. by apply ids_known. }
  destruct (some_node _ (newNodes acc)) eqn:Hsome; [done|].
  eapply (branch_inv_extend _ _ acc _ [_] [_] [_]);
    [reflexivity|reflexivity|reflexivity|exact Hinv|..].
  - intros n ->%list_elem_of_singleton. by rewrite Hkind.
  - intros e ->%list_elem_of_singleton. cbn.
    split; [by left|]. by apply ids_snoc.
  - intros n ->%list_elem_of_singleton. by apply ids_snoc.
Qed.

Lemma expandSingleNode_inv registry nodeToExpand currentNodes currentEdges r :
  expandSingleNode formatDate registry nodeToExpand currentNodes currentEdges
  = Returned r →
  branch_inv nodeToExpand currentNodes r.
Proof.
  unfold expandSingleNode.
  destruct (type (data nodeToExpand)) eqn:Hkind.
  - destruct (fetch_company _ _) as [|p]; [done|].
    destruct (cp_officers p) as [officers|].
    2:{ intros [= <-]; apply branch_inv_start. }
    intros [= <-].
    apply foldl_invariant; [apply branch_inv_start|].
    intros acc io Hacc _. by apply addCompanyOfficer_inv.
  - destruct (js_or _ _) as [oid|].
    2:{ intros [= <-]. apply branch_inv_start. }
    destruct (fetch_appointments _ _) as [|[items|]]; [done| |].
    2:{ intros [= <-]. apply branch_inv_start. }
    intros [= <-]. rewrite foldl_fmap.
    apply foldl_invariant; [apply branch_inv_start|].
    intros acc item Hacc _. by apply addAppointment_inv.
  - intros [= <-]; apply branch_inv_start.
  - destruct (search_address _ _) as [|[items|]]; [done| |].
    2:{ intros [= <-]. apply branch_inv_start. }
    intros [= <-].
    apply foldl_invariant; [apply branch_inv_start|].
    intros acc c Hacc _. by apply addLocatedCompany_inv.
Qed.

(** X16. A node that has no expansion branch, a PSC or an officer without a
    registry id, is never fetched for: whatever the registry and the depth,
    expanding it leaves the node list as it is and only deduplicates the
    edge list. *)
Theorem not_expandable registry st selected :
  selectedNode st = Some selected →
  type (data selected) = Kind.psc
  ∨ (type (data selected) = Kind.officer
     ∧ truthy (officer_id (data selected)) = false) →
  nodes (handleExpandNetwork formatDate registry st) = nodes st
  ∧ edges (handleExpandNetwork formatDate registry st)
    = deduplicateEdges (edges st)
  ∧ console (handleExpandNetwork formatDate registry st) = console st.
Proof.
  intros Hsel Hkind. unfold handleExpandNetwork. rewrite Hsel.
  assert (Hnone : ∀ cn ce,
            expandSingleNode formatDate registry selected cn ce
            = Returned noExpansion).
  { intros cn ce. unfold expandSingleNode, js_or.
    destruct Hkind as [Hk|[Hk Ht]]; rewrite Hk; [|by rewrite Ht].
    reflexivity. }
  assert (Hlev : expandLevels formatDate registry (expansionLevel st)
                   (nodes st) (edges st) [selected]
                 = Returned (nodes st, edges st)).
  { destruct (expansionLevel st) as [|levels]; [done|]. cbn.
    rewrite Hnone. cbn. by rewrite !app_nil_r. }
  by rewrite Hlev.
Qed.

(** X17. Expansion only appends: the nodes of the graph before the call are
    an unchanged prefix of the node list after it, and so are the edges when
    their ids were unique. No existing node or edge is removed, replaced or
    moved. *)
Theorem expansion_appends registry st :
  nodes st `prefix_of` nodes (handleExpandNetwork formatDate registry st)
  ∧ (NoDup (edge_id <$> edges st) →
     edges st `prefix_of` edges (handleExpandNetwork formatDate registry st)).
Proof.
  unfold handleExpandNetwork.
  destruct (selectedNode st) as [selected|]; [|done].
  destruct (expandLevels _ _ _ _ _ _) as [|[ns es]] eqn:Hexp; [done|].
  apply expandLevels_prefix in Hexp as [Hn [more ->]]. cbn.
  split; [done|]. intros Hnd.
  destruct (deduplicateEdges_app (edges st) more Hnd) as [rest ->].
  by apply prefix_app_r.
Qed.

Lemma elem_of_concat {A} (x : A) (ls : list (list A)) :
  x ∈ concat ls ↔ ∃ l, l ∈ ls ∧ x ∈ l.
Proof.
  induction ls as [|l ls IH]; cbn.
  - split; [by intros ?%elem_of_nil|]. by intros (l & ?%elem_of_nil & _).
  - rewrite elem_of_app, IH. split.
    + intros [H|(l' & H1 & H2)]; [exists l; split; [left|done]|].
      exists l'. split; [by right|done].
    + intros (l' & [->|H1]%elem_of_cons & H2); [by left|]. right. by exists l'.
Qed.

Lemma expandLevels_endpoints registry levels :
  ∀ currentNodes currentEdges nodesToExpand ns es,
  endpoints_exist currentNodes currentEdges →
  (∀ n, n ∈ nodesToExpand → node_id n ∈ node_id <$> currentNodes) →
  expandLevels formatDate registry levels currentNodes currentEdges nodesToExpand
  = Returned (ns, es) →
  endpoints_exist ns es.
Proof.
  induction levels as [|levels IH]; intros cn ce frontier ns es Hend Hfr; cbn.
  { by intros [= <- <-]. }
  destruct (promiseAll _) as [|results] eqn:Hp; [done|].
  apply promiseAll_Returned in Hp.
  assert (Hres : ∀ r, r ∈ results → ∃ node, node ∈ frontier ∧ branch_inv node cn r).
  { intros r Hr.
    assert (Hin : Returned r ∈ (Returned <$> results : list (Fetched Expansion)))
      by by apply list_elem_of_fmap_2.
    rewrite <- Hp in Hin. apply list_elem_of_fmap in Hin as (node & Heq & Hnode).
    exists node. split; [done|]. symmetry in Heq.
    by apply expandSingleNode_inv in Heq. }
  set (cn' := cn ++ foldl (mergeResult cn) [] results).
  set (ce' := ce ++ concat (newEdges <$> results)).
  assert (Hold : ∀ i, i ∈ node_id <$> cn → i ∈ node_id <$> cn').
  { intros i Hi. unfold cn'. rewrite fmap_app. apply elem_of_app. by left. }
  assert (Hnew : ∀ r i, r ∈ results → i ∈ node_id <$> cn ++ newNodes r →
                 i ∈ node_id <$> cn').
  { intros r i Hr Hi. unfold cn'. apply mergeResults_ids.
    rewrite fmap_app in Hi. apply elem_of_app in Hi as [Hi|Hi].
    - left. rewrite app_nil_r. done.
    - right. by exists r. }
  assert (Hend' : endpoints_exist cn' ce').
  { intros e [He|He]%elem_of_app.
    - destruct (Hend e He). split; by apply Hold.
    - apply elem_of_concat in He as (l & Hl & He).
      apply list_elem_of_fmap in Hl as (r & -> & Hr).
      destruct (Hres r Hr) as (node & Hnode & _ & Hlink & _).
      destruct (Hlink e He) as [Hs Ht]. split; [|by apply (Hnew r)].
      destruct Hs as [->|Hs]; [by apply Hold, Hfr|by apply (Hnew r)]. }
  assert (Hfr' : ∀ n, n ∈ uniqueNodes (concat (allNeighbors <$> results)) →
                 node_id n ∈ node_id <$> cn').
  { intros n Hn. apply (keep_first_sub node_id) in Hn.
    apply elem_of_concat in Hn as (l & Hl & Hn).
    apply list_elem_of_fmap in Hl as (r & -> & Hr).
    destruct (Hres r Hr) as (node & Hnode & _ & _ & Hnb).
    apply (Hnew r); [done|]. by apply Hnb. }
  fold cn' ce'.
  destruct (uniqueNodes _) as [|n front] eqn:Hu.
  - by intros [= <- <-].
  - by apply IH.
Qed.

Lemma endpoints_exist_check (nodes : list Node) (edges : list Edge) :
  forallb (λ e, some_node (source e) nodes && some_node (target e) nodes) edges
  = true →
  endpoints_exist nodes edges.
Proof.
  intros H e He. apply list_elem_of_In in He.
  rewrite forallb_forall in H. specialize (H e He).
  apply andb_prop in H as [H1 H2]. split; by apply some_node_true.
Qed.

(** X18. What a one-hop expansion can create is fixed by the kind of the
    expanded node: an officer yields only company nodes, a company only
    officer and address nodes, an address only company nodes, and a PSC
    nothing. In particular no expansion ever creates a PSC node. *)
Theorem expansion_kinds registry nodeToExpand currentNodes currentEdges r n :
  expandSingleNode formatDate registry nodeToExpand currentNodes currentEdges
  = Returned r →
  n ∈ newNodes r →
  allowedNew (type (data nodeToExpand)) (type (data n)).
Proof.
  intros Hr Hn. apply expandSingleNode_inv in Hr as [Hkinds _]. by apply Hkinds.
Qed.

(** X19. Expansion never leaves a dangling edge: when the selected node is
    a node of the graph and every edge of the graph joins two of its nodes,
    the same holds for the graph after [handleExpandNetwork], at any depth
    and for any registry. *)
Theorem expansion_keeps_endpoints registry st :
  (∀ selected, selectedNode st = Some selected →
     node_id selected ∈ node_id <$> nodes st) →
  endpoints_exist (nodes st) (edges st) →
  endpoints_exist (nodes (handleExpandNetwork formatDate registry st))
                  (edges (handleExpandNetwork formatDate registry st)).
Proof.
  intros Hsel Hend. unfold handleExpandNetwork.
  destruct (selectedNode st) as [selected|]; [|done].
  destruct (expandLevels _ _ _ _ _ _) as [|[ns es]] eqn:Hexp; [done|].
  apply expandLevels_endpoints in Hexp; [|done|].
  - cbn. intros e He. rewrite deduplicateEdges_keep_first in He.
    apply keep_first_sub in He. by apply Hexp.
  - intros n ->%list_elem_of_singleton. by apply Hsel.
Qed.

End ExpansionMore.

Lemma not_expandable_witness :
  nodes (handleExpandNetwork exampleFormatDate flakyRegistry
           {| nodes := blockingNodes; edges := blockingEdges;
              selectedNode := Some (exampleNode "O1" Kind.officer);
              expansionLevel := 2; loading := false; isDialogOpen := true;
              error := None; console := [] |})
  = blockingNodes
  ∧ edges (handleExpandNetwork exampleFormatDate flakyRegistry
           {| nodes := blockingNodes; edges := blockingEdges;
              selectedNode := Some (exampleNode "O1" Kind.officer);
              expansionLevel := 2; loading := false; isDialogOpen := true;
              error := None; console := [] |})
    = deduplicateEdges blockingEdges
  ∧ console (handleExpandNetwork exampleFormatDate flakyRegistry
           {| nodes := blockingNodes; edges := blockingEdges;
              selectedNode := Some (exampleNode "O1" Kind.officer);
              expansionLevel := 2; loading := false; isDialogOpen := true;
              error := None; console := [] |})
    = [].
Proof.
  apply (not_expandable exampleFormatDate flakyRegistry
           {| nodes := blockingNodes; edges := blockingEdges;
              selectedNode := Some (exampleNode "O1" Kind.officer);
              expansionLevel := 2; loading := false; isDialogOpen := true;
              error := None; console := [] |}
           (exampleNode "O1" Kind.officer)).
  - reflexivity.
  - right. split; reflexivity.
Defined.

Lemma expansion_kinds_witness :
  allowedNew (type (data company1Node))
             (type (data (addressNode "address-7-mill-lane,-leeds,--0"
                                      "7 Mill Lane, Leeds, LS1 1AA"))).
Proof.
  eapply (expansion_kinds exampleFormatDate sharedAddressRegistry
            company1Node [] [] _
            (addressNode "address-7-mill-lane,-leeds,--0"
                         "7 Mill Lane, Leeds, LS1 1AA")).
  - vm_compute. reflexivity.
  - apply list_elem_of_In. vm_compute. right. left. reflexivity.
Defined.

Lemma expansion_keeps_endpoints_witness :
  endpoints_exist
    (nodes (handleExpandNetwork exampleFormatDate sharedAddressRegistry (seedState 2)))
    (edges (handleExpandNetwork exampleFormatDate sharedAddressRegistry (seedState 2))).
Proof.
  apply (expansion_keeps_endpoints exampleFormatDate sharedAddressRegistry
           (seedState 2)).
  - intros selected [= <-]. apply some_node_true. vm_compute. reflexivity.
  - apply endpoints_exist_check. vm_compute. reflexivity.
Defined.

(** * Running an expansion a second time *)

Lemma extends_refl acc : extends acc acc.
Proof. split; exists []; by rewrite app_nil_r. Qed.

Lemma extends_trans a b c : extends a b → extends b c → extends a c.
Proof.
  intros [[m1 H1] [e1 H2]] [[m2 H3] [e2 H4]]. split.
  - exists (m1 ++ m2). by rewrite H3, H1, app_assoc.
  - exists (e1 ++ e2). by rewrite H4, H2, app_assoc.
Qed.

Lemma covered_extends currentNodes currentEdges acc r key edgeKey :
  extends acc r → covered currentNodes currentEdges acc key edgeKey →
  covered currentNodes currentEdges r key edgeKey.
Proof.
  intros [[mn Hn] [me He]] [Hk Hek]. unfold covered. rewrite Hn, He.
  rewrite !fmap_app, !elem_of_app in *. tauto.
Qed.

Lemma edged_extend p nodeToExpand acc r moreNodes moreEdges :
  newNodes r = newNodes acc ++ moreNodes →
  newEdges r = newEdges acc ++ moreEdges →
  (∀ n, n ∈ moreNodes → p (node_id n) = true →
     "e-" +:+ node_id nodeToExpand +:+ "-" +:+ node_id n ∈ edge_id <$> moreEdges) →
  edged p nodeToExpand acc → edged p nodeToExpand r.
Proof.
  intros Hn He Hmore Hacc n Hin Hp. rewrite He, fmap_app, elem_of_app.
  rewrite Hn in Hin. apply elem_of_app in Hin as [Hin|Hin].
  - left. by apply Hacc.
  - right. by apply Hmore.
Qed.

Lemma foldl_cover {B} (f : Expansion → B → Expansion) (I : Expansion → Prop)
    (cov : Expansion → B → Prop) :
  (∀ acc x, I acc → I (f acc x) ∧ cov (f acc x) x) →
  (∀ acc x y, cov acc y → cov (f acc x) y) →
  ∀ l acc, I acc → ∀ x, x ∈ l → cov (foldl f acc l) x.
Proof.
  intros Hstep Hmono.
  assert (Hkeep : ∀ l acc y, cov acc y → cov (foldl f acc l) y).
  { induction l as [|x l IH]; intros acc y Hy; cbn; [done|]. by apply IH, Hmono. }
  induction l as [|x0 l IH]; intros acc Hacc x Hx; cbn.
  { by apply elem_of_nil in Hx. }
  destruct (Hstep acc x0 Hacc) as [HI Hc].
  apply elem_of_cons in Hx as [->|Hx]; [by apply Hkeep|by apply IH].
Qed.

Lemma some_edge_false i (edges : list Edge) :
  some_edge i edges = false ↔ i ∉ edge_id <$> edges.
Proof.
  rewrite <- some_edge_true. destruct (some_edge i edges); split; congruence.
Qed.

Lemma find_node_known i (nodes : list Node) :
  i ∈ node_id <$> nodes → ∃ n, find_node i nodes = Some n.
Proof.
  intros Hi. destruct (find_node i nodes) as [n|] eqn:Hf; [by exists n|].
  by apply find_node_None in Hf.
Qed.

Lemma pushEdgeIfAbsent_extends currentEdges acc existingNode e :
  extends acc (pushEdgeIfAbsent currentEdges acc existingNode e).
Proof.
  unfold pushEdgeIfAbsent, extends. cbn. split; [exists []; by rewrite app_nil_r|].
  destruct (_ || _); [exists []; by rewrite app_nil_r|by exists [e]].
Qed.

Lemma pushEdgeIfAbsent_covered currentNodes currentEdges acc existingNode e :
  existingNode ∈ currentNodes →
  covered currentNodes currentEdges
    (pushEdgeIfAbsent currentEdges acc existingNode e)
    (node_id existingNode) (edge_id e).
Proof.
  intros Hex. unfold pushEdgeIfAbsent, covered. cbn.
  split; [by apply ids_known|]. rewrite fmap_app, elem_of_app.
  destruct (some_edge (edge_id e) currentEdges) eqn:H1; cbn [orb].
  { left. by apply some_edge_true. }
  destruct (some_edge (edge_id e) (newEdges acc)) eqn:H2.
  { right. by apply some_edge_true. }
  right. rewrite fmap_app, elem_of_app. right. cbn. left.
Qed.

Lemma pushEdgeIfAbsent_edged p nodeToExpand currentEdges acc existingNode e :
  edged p nodeToExpand acc →
  edged p nodeToExpand (pushEdgeIfAbsent currentEdges acc existingNode e).
Proof.
  intros Hacc.
  destruct (pushEdgeIfAbsent_extends currentEdges acc existingNode e)
    as [_ [me Hme]].
  eapply (edged_extend p nodeToExpand acc _ [] me); [|done| |done].
  - by rewrite app_nil_r.
  - by intros ? ?%elem_of_nil.
Qed.

Lemma pushEdgeIfAbsent_known currentEdges acc existingNode e :
  edge_id e ∈ edge_id <$> currentEdges →
  newNodes (pushEdgeIfAbsent currentEdges acc existingNode e) = newNodes acc
  ∧ newEdges (pushEdgeIfAbsent currentEdges acc existingNode e) = newEdges acc.
Proof.
  intros Hin%some_edge_true. unfold pushEdgeIfAbsent. cbn. by rewrite Hin.
Qed.

Lemma officer_prefix_of_slug addressLabel index :
  String.prefix "officer-" (slugAddressId addressLabel index) = false.
Proof. reflexivity. Qed.

Lemma addNewOfficerAddress_extends currentNodes officerId index officer acc :
  extends acc (addNewOfficerAddress currentNodes officerId index officer acc).
Proof.
  unfold addNewOfficerAddress.
  destruct (off_address officer); [|apply extends_refl].
  destruct (formatAddress _) as [lbl|]; [|apply extends_refl].
  destruct (String.eqb lbl ""); [apply extends_refl|].
  destruct (find_address lbl currentNodes).
  { split; cbn; [exists []; by rewrite app_nil_r|by eexists]. }
  destruct (find_address lbl (newNodes acc)).
  { split; cbn; [exists []; by rewrite app_nil_r|by eexists]. }
  split; cbn; by eexists.
Qed.

Lemma addNewOfficerAddress_edged nodeToExpand currentNodes officerId index
    officer acc :
  edged (String.prefix "officer-") nodeToExpand acc →
  edged (String.prefix "officer-") nodeToExpand
        (addNewOfficerAddress currentNodes officerId index officer acc).
Proof.
  intros Hacc. unfold addNewOfficerAddress.
  destruct (off_address officer); [|done].
  destruct (formatAddress _) as [lbl|]; [|done].
  destruct (String.eqb lbl ""); [done|].
  destruct (find_address lbl currentNodes).
  { eapply (edged_extend _ nodeToExpand acc _ []); cbn;
      [by rewrite app_nil_r|reflexivity| |done]. by intros ? ?%elem_of_nil. }
  destruct (find_address lbl (newNodes acc)).
  { eapply (edged_extend _ nodeToExpand acc _ []); cbn;
      [by rewrite app_nil_r|reflexivity| |done]. by intros ? ?%elem_of_nil. }
  eapply (edged_extend _ nodeToExpand acc _ [_]); cbn; [reflexivity..| |done].
  intros ? ->%list_elem_of_singleton. cbn. by rewrite officer_prefix_of_slug.
Qed.

Section Rerun.

Variable formatDate : option string → string.

(** ** Officer branch *)

Lemma addAppointment_extends registry nodeToExpand currentNodes currentEdges
    acc item :
  extends acc (addAppointment formatDate nodeToExpand currentNodes currentEdges acc
                 (resolveAppointment registry currentNodes item)).
Proof.
  unfold addAppointment.
  destruct (ar_existingNode _); [apply pushEdgeIfAbsent_extends|].
  destruct (some_node _ _); [apply extends_refl|].
  split; cbn; by eexists.
Qed.

Lemma addAppointment_cover registry nodeToExpand currentNodes currentEdges
    acc item :
  edged (λ _, true) nodeToExpand acc →
  edged (λ _, true) nodeToExpand
    (addAppointment formatDate nodeToExpand currentNodes currentEdges acc
       (resolveAppointment registry currentNodes item))
  ∧ covered currentNodes currentEdges
      (addAppointment formatDate nodeToExpand currentNodes currentEdges acc
         (resolveAppointment registry currentNodes item))
      (at_company_number (appointed_to item))
      ("e-" +:+ node_id nodeToExpand +:+ "-"
       +:+ at_company_number (appointed_to item)).
Proof.
  intros Hacc. unfold addAppointment.
  rewrite resolveAppointment_existing, resolveAppointment_item.
  destruct (find_node _ currentNodes) as [ex|] eqn:Hf.
  { apply find_node_Some in Hf as [Hin Hid].
    split; [by apply pushEdgeIfAbsent_edged|].
    pose proof (pushEdgeIfAbsent_covered currentNodes currentEdges acc ex
             (mkEdge (node_id nodeToExpand)
                     (at_company_number (appointed_to item))
                     (app_officer_role item) slate None) Hin) as Hc.
    by rewrite Hid in Hc. }
  destruct (some_node _ (newNodes acc)) eqn:Hsome.
  { split; [done|]. apply some_node_true in Hsome.
    split.
    - rewrite fmap_app, elem_of_app. by right.
    - rewrite fmap_app, elem_of_app. right.
      apply list_elem_of_fmap in Hsome as (n & Hid & Hn). rewrite Hid.
      by apply Hacc. }
  split.
  - eapply (edged_extend _ nodeToExpand acc _ [_] (_ :: _)); cbn;
      [reflexivity..| |done].
    intros ? ->%list_elem_of_singleton _. cbn. left.
  - split; cbn.
    + by apply ids_snoc.
    + rewrite !fmap_app, !elem_of_app. right. right. cbn. left.
Qed.

Lemma addAppointment_known registry nodeToExpand currentNodes currentEdges
    acc item :
  at_company_number (appointed_to item) ∈ node_id <$> currentNodes →
  "e-" +:+ node_id nodeToExpand +:+ "-" +:+ at_company_number (appointed_to item)
  ∈ edge_id <$> currentEdges →
  nothingNew acc →
  nothingNew (addAppointment formatDate nodeToExpand currentNodes currentEdges acc
                (resolveAppointment registry currentNodes item)).
Proof.
  intros Hk He [Hn Hed]. unfold addAppointment.
  rewrite resolveAppointment_existing, resolveAppointment_item.
  destruct (find_node_known _ _ Hk) as [ex ->].
  destruct (pushEdgeIfAbsent_known currentEdges acc ex
              (mkEdge (node_id nodeToExpand)
                      (at_company_number (appointed_to item))
                      (app_officer_role item) slate None) He) as [H1 H2].
  split; congruence.
Qed.

(** ** Company branch *)

Lemma expansionOfficerId_prefix nodeToExpand officer index :
  String.prefix "officer-" (expansionOfficerId nodeToExpand officer index) = true.
Proof.
  unfold expansionOfficerId. destruct (js_or _ _); apply prefix_append.
Qed.

Lemma addCompanyOfficer_extends nodeToExpand currentNodes currentEdges acc io :
  extends acc (addCompanyOfficer nodeToExpand currentNodes currentEdges acc io).
Proof.
  destruct io as [index officer]. unfold addCompanyOfficer.
  destruct (find_node _ currentNodes); [apply pushEdgeIfAbsent_extends|].
  destruct (some_node _ _); [apply extends_refl|].
  eapply extends_trans; [|apply addNewOfficerAddress_extends].
  split; cbn; by eexists.
Qed.

Lemma addCompanyOfficer_cover nodeToExpand currentNodes currentEdges acc io :
  edged (String.prefix "officer-") nodeToExpand acc →
  edged (String.prefix "officer-") nodeToExpand
    (addCompanyOfficer nodeToExpand currentNodes currentEdges acc io)
  ∧ covered currentNodes currentEdges
      (addCompanyOfficer nodeToExpand currentNodes currentEdges acc io)
      (expansionOfficerId nodeToExpand io.2 io.1)
      ("e-" +:+ node_id nodeToExpand +:+ "-"
       +:+ expansionOfficerId nodeToExpand io.2 io.1).
Proof.
  intros Hacc. destruct io as [index officer]. unfold addCompanyOfficer.
  cbn [fst snd].
  destruct (find_node _ currentNodes) as [ex|] eqn:Hf.
  { apply find_node_Some in Hf as [Hin Hid].
    split; [by apply pushEdgeIfAbsent_edged|].
    pose proof (pushEdgeIfAbsent_covered currentNodes currentEdges acc ex
             (mkEdge (node_id nodeToExpand)
                     (expansionOfficerId nodeToExpand officer index)
                     (officer_role officer) slate None) Hin) as Hc.
    by rewrite Hid in Hc. }
  destruct (some_node _ (newNodes acc)) eqn:Hsome.
  { split; [done|]. apply some_node_true in Hsome.
    split.
    - rewrite fmap_app, elem_of_app. by right.
    - rewrite fmap_app, elem_of_app. right.
      apply list_elem_of_fmap in Hsome as (n & Hid & Hn). rewrite Hid.
      apply Hacc; [done|]. rewrite <- Hid. apply expansionOfficerId_prefix. }
  split.
  - apply addNewOfficerAddress_edged.
    eapply (edged_extend _ nodeToExpand acc _ [_] [_]); cbn;
      [reflexivity..| |done].
    intros ? ->%list_elem_of_singleton _. cbn. left.
  - eapply covered_extends; [apply addNewOfficerAddress_extends|].
    split; cbn.
    + by apply ids_snoc.
    + rewrite !fmap_app, !elem_of_app. right. right. cbn. left.
Qed.

Lemma addCompanyOfficer_known nodeToExpand currentNodes currentEdges acc io :
  expansionOfficerId nodeToExpand io.2 io.1 ∈ node_id <$> currentNodes →
  "e-" +:+ node_id nodeToExpand +:+ "-" +:+ expansionOfficerId nodeToExpand io.2 io.1
  ∈ edge_id <$> currentEdges →
  nothingNew acc →
  nothingNew (addCompanyOfficer nodeToExpand currentNodes currentEdges acc io).
Proof.
  destruct io as [index officer]. cbn [fst snd].
  intros Hk He [Hn Hed]. unfold addCompanyOfficer.
  destruct (find_node_known _ _ Hk) as [ex ->].
  destruct (pushEdgeIfAbsent_known currentEdges acc ex
              (mkEdge (node_id nodeToExpand)
                      (expansionOfficerId nodeToExpand officer index)
                      (officer_role officer) slate None) He) as [H1 H2].
  split; congruence.
Qed.

(** ** Address branch *)

Lemma addLocatedCompany_cover nodeToExpand currentNodes acc company :
  company_number company
  ∈ node_id <$> currentNodes
                ++ newNodes (addLocatedCompany formatDate nodeToExpand currentNodes
                               acc company).
Proof.
  unfold addLocatedCompany.
  destruct (find_node _ currentNodes) as [ex|] eqn:Hf.
  { apply find_node_Some in Hf as [Hin Hid]. cbn. rewrite <- Hid.
    by apply ids_known. }
  destruct (some_node _ (newNodes acc)) eqn:Hsome.
  { apply some_node_true in Hsome. rewrite fmap_app, elem_of_app. by right. }
  cbn. by apply ids_snoc.
Qed.

Lemma addLocatedCompany_grows nodeToExpand currentNodes acc company i :
  i ∈ node_id <$> currentNodes ++ newNodes acc →
  i ∈ node_id <$> currentNodes
                  ++ newNodes (addLocatedCompany formatDate nodeToExpand currentNodes
                                 acc company).
Proof.
  unfold addLocatedCompany.
  destruct (find_node _ currentNodes); [done|].
  destruct (some_node _ (newNodes acc)); [done|].
  cbn. apply ids_grow.
Qed.

Lemma addLocatedCompany_known nodeToExpand currentNodes acc company :
  company_number company ∈ node_id <$> currentNodes →
  nothingNew acc →
  nothingNew (addLocatedCompany formatDate nodeToExpand currentNodes acc company).
Proof.
  intros Hk Hacc. unfold addLocatedCompany.
  by destruct (find_node_known _ _ Hk) as [ex ->].
Qed.

(** ** The three branches together *)

Lemma edged_start p nodeToExpand : edged p nodeToExpand noExpansion.
Proof. by intros ? ?%elem_of_nil. Qed.

Lemma expandSingleNode_rerun registry nodeToExpand currentNodes currentEdges r
    currentNodes' currentEdges' :
  expandSingleNode formatDate registry nodeToExpand currentNodes currentEdges
  = Returned r →
  (∀ i, i ∈ node_id <$> currentNodes ++ newNodes r → i ∈ node_id <$> currentNodes') →
  (∀ i, i ∈ edge_id <$> currentEdges ++ newEdges r → i ∈ edge_id <$> currentEdges') →
  ∃ r', expandSingleNode formatDate registry nodeToExpand currentNodes' currentEdges'
        = Returned r'
        ∧ nothingNew r'.
Proof.
  unfold expandSingleNode. intros Hr Hnodes Hedges.
  destruct (type (data nodeToExpand)).
  - (* company *)
    destruct (fetch_company registry (node_id nodeToExpand)) as [|payload]; [done|].
    destruct (cp_officers payload) as [officers|]; [|by exists noExpansion].
    injection Hr as <-. eexists. split; [reflexivity|].
    apply (foldl_invariant nothingNew); [done|].
    intros acc io Hacc Hio.
    pose proof (foldl_cover
      (addCompanyOfficer nodeToExpand currentNodes currentEdges)
      (edged (String.prefix "officer-") nodeToExpand)
      (λ acc io, covered currentNodes currentEdges acc
                   (expansionOfficerId nodeToExpand io.2 io.1)
                   ("e-" +:+ node_id nodeToExpand +:+ "-"
                    +:+ expansionOfficerId nodeToExpand io.2 io.1))) as Hcov.
    destruct (Hcov (addCompanyOfficer_cover nodeToExpand currentNodes currentEdges)
                   (λ acc x y, covered_extends _ _ _ _ _ _
                      (addCompanyOfficer_extends nodeToExpand currentNodes
                         currentEdges acc x))
                   (indexed officers) noExpansion
                   (edged_start _ nodeToExpand) io Hio) as [Hk He].
    apply addCompanyOfficer_known; [by apply Hnodes|by apply Hedges|done].
  - (* officer *)
    destruct (js_or (officer_id (data nodeToExpand)) None) as [oid|];
      [|by exists noExpansion].
    destruct (fetch_appointments registry oid) as [|[items|]];
      [done| |by exists noExpansion].
    injection Hr as <-. eexists. split; [reflexivity|].
    rewrite foldl_fmap in Hnodes, Hedges. rewrite foldl_fmap.
    apply (foldl_invariant nothingNew); [done|].
    intros acc item Hacc Hitem.
    pose proof (foldl_cover
      (λ acc item, addAppointment formatDate nodeToExpand currentNodes currentEdges
                     acc (resolveAppointment registry currentNodes item))
      (edged (λ _, true) nodeToExpand)
      (λ acc item, covered currentNodes currentEdges acc
                     (at_company_number (appointed_to item))
                     ("e-" +:+ node_id nodeToExpand +:+ "-"
                      +:+ at_company_number (appointed_to item)))) as Hcov.
    destruct (Hcov (addAppointment_cover registry nodeToExpand currentNodes
                      currentEdges)
                   (λ acc x y, covered_extends _ _ _ _ _ _
                      (addAppointment_extends registry nodeToExpand currentNodes
                         currentEdges acc x))
                   items noExpansion
                   (edged_start _ nodeToExpand) item Hitem) as [Hk He].
    apply addAppointment_known; [by apply Hnodes|by apply Hedges|done].
  - (* psc *)
    by exists noExpansion.
  - (* address *)
    destruct (search_address registry (label (data nodeToExpand))) as [|[items|]];
      [done| |by exists noExpansion].
    injection Hr as <-. eexists. split; [reflexivity|].
    apply (foldl_invariant nothingNew); [done|].
    intros acc company Hacc Hcompany.
    apply addLocatedCompany_known; [|done]. apply Hnodes.
    apply (foldl_cover
             (addLocatedCompany formatDate nodeToExpand currentNodes)
             (λ _, True)
             (λ acc company, company_number company
                             ∈ node_id <$> currentNodes ++ newNodes acc));
      [| |done|done].
    + intros a x _. split; [done|]. apply addLocatedCompany_cover.
    + intros a x y. apply addLocatedCompany_grows.
Qed.

Lemma handleExpandNetwork_one registry st selected :
  selectedNode st = Some selected → expansionLevel st = 1 →
  let st' := handleExpandNetwork formatDate registry st in
  selectedNode st' = Some selected ∧ expansionLevel st' = 1
  ∧ match expandSingleNode formatDate registry selected (nodes st) (edges st) with
    | Threw => nodes st' = nodes st ∧ edges st' = edges st
    | Returned r =>
        nodes st' = nodes st ++ mergeResult (nodes st) [] r
        ∧ edges st' = deduplicateEdges (edges st ++ newEdges r)
    end.
Proof.
  intros Hsel Hdepth. cbn zeta. unfold handleExpandNetwork.
  rewrite Hsel, Hdepth, expandLevels_one.
  by destruct (expandSingleNode _ _ _ _ _) as [|r].
Qed.

(** X20. At depth 1, the default, expanding the same selection twice in a
    row changes nothing the second time: for any registry, answering the
    second time as it did the first, the second call of
    [handleExpandNetwork] returns the node list and the edge list that the
    first call left. *)
Theorem expansion_idempotent registry st :
  expansionLevel st = 1 →
  nodes (handleExpandNetwork formatDate registry
           (handleExpandNetwork formatDate registry st))
  = nodes (handleExpandNetwork formatDate registry st)
  ∧ edges (handleExpandNetwork formatDate registry
             (handleExpandNetwork formatDate registry st))
    = edges (handleExpandNetwork formatDate registry st).
Proof.
  intros Hdepth.
  destruct (selectedNode st) as [selected|] eqn:Hsel.
  2: { unfold handleExpandNetwork. by rewrite !Hsel. }
  destruct (handleExpandNetwork_one registry st selected Hsel Hdepth)
    as (Hsel1 & Hdepth1 & H1).
  destruct (handleExpandNetwork_one registry _ selected Hsel1 Hdepth1)
    as (_ & _ & H2).
  destruct (expandSingleNode formatDate registry selected (nodes st) (edges st))
    as [|r] eqn:Hr.
  { destruct H1 as [Hn He]. rewrite Hn, He, Hr in H2. by rewrite Hn, He. }
  destruct H1 as [Hn He]. rewrite Hn, He in H2.
  destruct (expandSingleNode_rerun registry selected (nodes st) (edges st) r
              (nodes st ++ mergeResult (nodes st) [] r)
              (deduplicateEdges (edges st ++ newEdges r)) Hr)
    as (r' & Hr' & Hn' & He').
  - intros i Hi. apply mergeResult_ids. rewrite app_nil_r.
    rewrite fmap_app in Hi. by apply elem_of_app in Hi.
  - intros i Hi. rewrite deduplicateEdges_keep_first. by apply keep_first_keys.
  - rewrite Hr' in H2. destruct H2 as [H2n H2e].
    rewrite H2n, H2e, Hn, He. unfold mergeResult at 2. rewrite Hn', He'. cbn.
    rewrite !app_nil_r.
    split; [done|]. apply deduplicateEdges_unique, deduplicateEdges_NoDup.
Qed.

End Rerun.

Lemma expansion_idempotent_witness :
  nodes (handleExpandNetwork exampleFormatDate sharedAddressRegistry
           (handleExpandNetwork exampleFormatDate sharedAddressRegistry
              (seedState 1)))
  = nodes (handleExpandNetwork exampleFormatDate sharedAddressRegistry (seedState 1))
  ∧ edges (handleExpandNetwork exampleFormatDate sharedAddressRegistry
             (handleExpandNetwork exampleFormatDate sharedAddressRegistry
                (seedState 1)))
    = edges (handleExpandNetwork exampleFormatDate sharedAddressRegistry
               (seedState 1)).
Proof.
  apply (expansion_idempotent exampleFormatDate sharedAddressRegistry (seedState 1)).
  reflexivity.
Defined.

(** * The routes *)

Lemma split_nonempty sep s : split sep s ≠ [].
Proof.
  destruct s as [|c s]; cbn; [done|].
  destruct (Ascii.eqb c sep); [done|]. by destruct (split sep s).
Qed.

Lemma split_lacks sep p : lacks sep p = true → split sep p = [p].
Proof.
  induction p as [|c p IH]; cbn [lacks split]; [done|].
  intros [Hc Hp]%andb_prop. rewrite Ascii.eqb_sym.
  apply negb_true_iff in Hc. rewrite Hc, (IH Hp). done.
Qed.

Lemma split_app sep p rest :
  lacks sep p = true →
  split sep (p +:+ String sep rest) = p :: split sep rest.
Proof.
  induction p as [|c p IH]; simpl.
  - intros _. by rewrite Ascii.eqb_refl.
  - intros [Hc Hp]%andb_prop. rewrite Ascii.eqb_sym.
    apply negb_true_iff in Hc. rewrite Hc. by rewrite (IH Hp).
Qed.

Lemma split_parts_lack sep s part :
  part ∈ split sep s → lacks sep part = true.
Proof.
  revert part. induction s as [|c s IH]; cbn [split]; intros part.
  - by intros ->%list_elem_of_singleton.
  - destruct (Ascii.eqb c sep) eqn:Hc.
    + intros [-> | Hin]%elem_of_cons; [done|by apply IH].
    + destruct (split sep s) as [|p ps]; cbn.
      * intros ->%list_elem_of_singleton. cbn [lacks].
        rewrite Ascii.eqb_sym, Hc. done.
      * intros [-> | Hin]%elem_of_cons.
        -- cbn [lacks]. rewrite Ascii.eqb_sym, Hc. cbn [negb andb].
           apply IH. left.
        -- apply IH. by right.
Qed.

Lemma officerIdOfLink_appointments id :
  lacks "/" id = true →
  officerIdOfLink (Some ("/officers/" +:+ id +:+ "/appointments")) = Some id.
Proof.
  intros Hid. unfold officerIdOfLink. cbn -[split].
  change ("/officers/" +:+ id +:+ "/appointments")
    with ("" +:+ String "/" ("officers" +:+ String "/"
            (id +:+ String "/" "appointments"))).
  rewrite (split_app "/" ""), (split_app "/" "officers"), (split_app "/" id);
    done.
Qed.

Lemma catchAll_message {A} fallback (m : Thrown A) message code :
  fallback ≠ "" → catchAll fallback m = JsonError message code →
  code = 500 ∧ message ≠ "".
Proof.
  intros Hfb. destruct m as [msg|a]; cbn; [|done].
  intros [= <- <-]. split; [done|]. unfold js_or. cbn.
  destruct (String.eqb msg "") eqn:He; cbn; [done|]. by apply String.eqb_neq.
Qed.

Lemma fetchFromCompaniesHouse_no_key {A} apiKey (response : Upstream A) :
  truthy apiKey = false →
  fetchFromCompaniesHouse apiKey response = Throw "API Key missing".
Proof. intros H. unfold fetchFromCompaniesHouse. by rewrite H. Qed.

Lemma fetchFromCompaniesHouse_Ok {A} apiKey (response : Upstream A) body :
  fetchFromCompaniesHouse apiKey response = Ok body ↔
  truthy apiKey = true ∧ response = Body body.
Proof.
  unfold fetchFromCompaniesHouse. destruct (truthy apiKey).
  - destruct response; split; try done.
    + by intros [_ ?].
    + by intros [_ ?].
    + by intros [= ->].
    + by intros [_ [= ->]].
  - split; [done|]. by intros [? _].
Qed.

(** X21. An officer whose registry record links to
    [/officers/<id>/appointments], with [<id>] non-empty and free of
    slashes, is identified by that id from the route to the graph: the
    company route hands out [<id>] as [officer_id], and both the seed
    assembly and a company expansion name the node [officer-<id>], whatever
    the position of the officer in the list and whichever company is
    expanded. *)
Theorem route_officer_node_id (officer : RegistryOfficer) id nodeToExpand
    (index : nat) :
  ro_appointments officer = Some ("/officers/" +:+ id +:+ "/appointments") →
  id ≠ "" → lacks "/" id = true →
  off_officer_id (routeOfficer officer) = Some id
  ∧ assemblyOfficerId (routeOfficer officer) index = "officer-" +:+ id
  ∧ expansionOfficerId nodeToExpand (routeOfficer officer) index
    = "officer-" +:+ id.
Proof.
  intros Hlink Hne Hid.
  assert (Hoid : off_officer_id (routeOfficer officer) = Some id).
  { cbn. rewrite Hlink. by apply officerIdOfLink_appointments. }
  split; [done|]. split.
  - by apply assemblyOfficerId_resolved.
  - by apply expansionOfficerId_resolved.
Qed.

(** X22. The officer id that the company route extracts from a link never
    contains a slash, so it is one path segment of the appointments url
    that the client builds from it. *)
Theorem officer_id_has_no_slash appointmentsLink id :
  officerIdOfLink appointmentsLink = Some id → lacks "/" id = true.
Proof.
  unfold officerIdOfLink. destruct (truthy appointmentsLink); [|done].
  destruct appointmentsLink as [link|]; [|done]. cbn.
  intros Hlook. apply (split_parts_lack "/" link).
  by apply list_elem_of_lookup_2 in Hlook.
Qed.

(** X23. The company route is all or nothing. It answers with data only if
    the server has an API key and all three registry requests succeeded,
    and then the payload holds the profile, one officer per listed officer
    and a PSC list (never an absent [officers] or [pscs]); in every other
    case it answers with status 500 and a non-empty error message. *)
Theorem company_route_all_or_nothing apiKey ch id :
  match companyRoute apiKey ch id with
  | Json payload =>
      truthy apiKey = true
      ∧ ∃ profile officers pscs,
          ch_company ch id = Body profile
          ∧ ch_officers ch id = Body officers
          ∧ ch_pscs ch id = Body pscs
          ∧ payload = {| cp_company := Some profile;
                         cp_officers := Some (routeOfficer <$> default [] officers);
                         cp_pscs := Some (default [] pscs) |}
  | JsonError message code => code = 500 ∧ message ≠ ""
  end.
Proof.
  destruct (companyRoute apiKey ch id) as [payload|message code] eqn:Hroute.
  - unfold companyRoute in Hroute.
    destruct (fetchFromCompaniesHouse apiKey (ch_company ch id))
      as [|profile] eqn:H1; [done|].
    destruct (fetchFromCompaniesHouse apiKey (ch_officers ch id))
      as [|officers] eqn:H2; [done|].
    destruct (fetchFromCompaniesHouse apiKey (ch_pscs ch id))
      as [|pscs] eqn:H3; [done|].
    cbn in Hroute. injection Hroute as <-.
    apply fetchFromCompaniesHouse_Ok in H1 as [Hkey H1].
    apply fetchFromCompaniesHouse_Ok in H2 as [_ H2].
    apply fetchFromCompaniesHouse_Ok in H3 as [_ H3].
    split; [done|]. by exists profile, officers, pscs.
  - by apply catchAll_message in Hroute.
Qed.

(** X24. Without an API key no route hands out data or depends on the
    registry: the company and appointments routes, and the two search
    routes for a non-empty parameter, all answer 500 [API Key missing]. *)
Theorem routes_without_key apiKey ch :
  truthy apiKey = false →
  (∀ id, companyRoute apiKey ch id = JsonError "API Key missing" 500)
  ∧ (∀ id, appointmentsRoute apiKey ch id = JsonError "API Key missing" 500)
  ∧ (∀ q, truthy q = true →
       searchRoute apiKey ch q = JsonError "API Key missing" 500)
  ∧ (∀ location, truthy location = true →
       addressRoute apiKey ch location = JsonError "API Key missing" 500).
Proof.
  intros Hkey. repeat split.
  - intros id. unfold companyRoute.
    by rewrite (fetchFromCompaniesHouse_no_key apiKey (ch_company ch id) Hkey).
  - intros id. unfold appointmentsRoute.
    by rewrite (fetchFromCompaniesHouse_no_key apiKey (ch_appointments ch id) Hkey).
  - intros q Hq. unfold searchRoute, js_or. rewrite Hq.
    destruct q as [q|]; [|done].
    by rewrite (fetchFromCompaniesHouse_no_key apiKey (ch_search ch q) Hkey).
  - intros location Hl. unfold addressRoute, js_or. rewrite Hl.
    destruct location as [location|]; [|done].
    by rewrite (fetchFromCompaniesHouse_no_key apiKey
                  (ch_advanced_search ch location) Hkey).
Qed.

Lemma route_officer_node_id_witness :
  off_officer_id (routeOfficer annLee) = Some "ann"
  ∧ assemblyOfficerId (routeOfficer annLee) 4 = "officer-ann"
  ∧ expansionOfficerId company1Node (routeOfficer annLee) 4 = "officer-ann".
Proof.
  apply (route_officer_node_id annLee "ann" company1Node 4); done.
Defined.

Lemma officer_id_has_no_slash_witness : lacks "/" "ann" = true.
Proof.
  apply (officer_id_has_no_slash (Some "/officers/ann/appointments") "ann").
  reflexivity.
Defined.

Lemma routes_without_key_witness :
  (∀ id, companyRoute (Some "") seedCompaniesHouse id
         = JsonError "API Key missing" 500)
  ∧ (∀ id, appointmentsRoute (Some "") seedCompaniesHouse id
           = JsonError "API Key missing" 500)
  ∧ (∀ q, truthy q = true →
       searchRoute (Some "") seedCompaniesHouse q
       = JsonError "API Key missing" 500)
  ∧ (∀ location, truthy location = true →
       addressRoute (Some "") seedCompaniesHouse location
       = JsonError "API Key missing" 500).
Proof.
  apply (routes_without_key (Some "") seedCompaniesHouse). reflexivity.
Defined.

(** * The seed fetch *)

Section SeedFetchFacts.

Variable formatDate : option string → string.
Variable isNaN_Number : string → bool.
Variable typeErrorMessage : string → string.

Lemma assemble_root company officers pscs nodes edges :
  assemble formatDate company officers pscs = Some (nodes, edges) →
  ∃ rest, nodes = companyNode formatDate company :: rest.
Proof.
  unfold assemble.
  destruct (registered_office_address company) as [roa|] eqn:Hroa; [|done].
  destruct (foldl (addOfficerAddress company) _ _) as [N E].
  intros [= <- <-]. eexists. unfold companyNode. rewrite Hroa. reflexivity.
Qed.

Lemma buildGraph_Ok payload root graph :
  buildGraph formatDate typeErrorMessage payload = Ok (root, graph) →
  ∃ company officers,
    truthy (seed_error payload) = false
    ∧ seed_company payload = Some company
    ∧ seed_officers payload = Some officers
    ∧ assemble formatDate company officers (seed_pscs payload) = Some graph
    ∧ root = companyNode formatDate company.
Proof.
  unfold buildGraph, js_or.
  destruct (truthy (seed_error payload)) eqn:Herr.
  { by destruct (seed_error payload). }
  destruct (seed_company payload) as [company|]; [|done].
  destruct (seed_officers payload) as [officers|]; [|done].
  destruct (assemble _ _ _ _) as [g|] eqn:Hasm; [|done].
  intros [= <- <-]. by exists company, officers.
Qed.

Lemma thrown_message_shown message :
  ∃ shown, js_or (Some message) (Some "Failed to load data") = Some shown
           ∧ shown ≠ "".
Proof.
  unfold js_or. cbn. destruct (String.eqb message "") eqn:He; cbn.
  - by eexists.
  - exists message. split; [done|]. by apply String.eqb_neq.
Qed.

Lemma fetchData_cases api query st :
  query ≠ "" →
  (∃ company officers pscs ns es,
     assemble formatDate company officers pscs = Some (ns, es)
     ∧ fetchData formatDate isNaN_Number typeErrorMessage api query st
       = {| nodes := ns; edges := es;
            selectedNode := Some (companyNode formatDate company);
            expansionLevel := expansionLevel st; loading := false;
            isDialogOpen := isDialogOpen st; error := None;
            console := console st |})
  ∨ (∃ message,
       fetchData formatDate isNaN_Number typeErrorMessage api query st
       = {| nodes := nodes st; edges := edges st;
            selectedNode := selectedNode st;
            expansionLevel := expansionLevel st; loading := false;
            isDialogOpen := isDialogOpen st;
            error := js_or (Some message) (Some "Failed to load data");
            console := console st ++ ["Failed to fetch graph data"] |}).
Proof.
  intros Hq%String.eqb_neq. unfold fetchData. rewrite Hq.
  destruct (resolveCompanyNumber isNaN_Number api query) as [m|number];
    [right; by exists m|].
  cbn [mbind Thrown_bind].
  destruct (api_company api number) as [m|payload]; [right; by exists m|].
  cbn [mbind Thrown_bind].
  destruct (buildGraph _ _ payload) as [m|[root [ns es]]] eqn:Hbuild;
    [right; by exists m|].
  apply buildGraph_Ok in Hbuild as (company & officers & _ & _ & _ & Hasm & ->).
  left. by exists company, officers, (seed_pscs payload), ns, es.
Qed.

(** X25. The seed fetch is atomic. For a non-empty query it ends with
    [loading] off and either the whole graph replaced by an assembled
    graph, its root company selected and the error cleared, or graph and
    selection exactly as before and a non-empty error message to show;
    never a partial graph, and never a failure without a message. *)
Theorem fetchData_atomic api query st :
  query ≠ "" →
  let st' := fetchData formatDate isNaN_Number typeErrorMessage api query st in
  loading st' = false
  ∧ ((∃ company officers pscs graph,
        assemble formatDate company officers pscs = Some graph
        ∧ nodes st' = graph.1 ∧ edges st' = graph.2
        ∧ selectedNode st' = Some (companyNode formatDate company)
        ∧ error st' = None ∧ console st' = console st)
     ∨ (nodes st' = nodes st ∧ edges st' = edges st
        ∧ selectedNode st' = selectedNode st
        ∧ ∃ message, error st' = Some message ∧ message ≠ "")).
Proof.
  intros Hq. cbn zeta.
  destruct (fetchData_cases api query st Hq)
    as [(company & officers & pscs & ns & es & Hasm & ->)|[m ->]]; cbn.
  - split; [done|]. left. by exists company, officers, pscs, (ns, es).
  - split; [done|]. right. repeat split.
    destruct (thrown_message_shown m) as (shown & Hs & Hne). by exists shown.
Qed.

(** X26. A query of eight characters that reads as a number is taken as the
    company number itself: the search endpoint plays no part, and the
    outcome is decided by the company endpoint's answer for that very
    number. *)
Theorem fetchData_direct_lookup api api' query st :
  String.length query = 8 → isNaN_Number query = false →
  api_company api query = api_company api' query →
  fetchData formatDate isNaN_Number typeErrorMessage api query st
  = fetchData formatDate isNaN_Number typeErrorMessage api' query st.
Proof.
  intros Hlen Hnum Hsame. unfold fetchData, resolveCompanyNumber.
  rewrite Hlen, Hnum. cbn. by rewrite Hsame.
Qed.

(** X27. After a seed fetch that ended without error, the graph is ready
    for expansion and highlighting: the selected node is the root company
    and is a node of the graph, every edge joins two nodes of the graph and
    edge ids are unique. *)
Theorem fetchData_ready api query st :
  query ≠ "" →
  let st' := fetchData formatDate isNaN_Number typeErrorMessage api query st in
  error st' = None →
  (∃ selected, selectedNode st' = Some selected
               ∧ type (data selected) = Kind.company
               ∧ selected ∈ nodes st')
  ∧ endpoints_exist (nodes st') (edges st')
  ∧ NoDup (edge_id <$> edges st').
Proof.
  intros Hq. cbn zeta.
  destruct (fetchData_cases api query st Hq)
    as [(company & officers & pscs & ns & es & Hasm & ->)|[m ->]];
    cbn [nodes edges selectedNode error].
  - intros _. split; [|split].
    + exists (companyNode formatDate company). split; [done|]. split; [done|].
      destruct (assemble_root _ _ _ _ _ Hasm) as [rest ->]. left.
    + by eapply assemble_no_dangling.
    + by eapply assemble_edges_NoDup.
  - intros Herr. destruct (thrown_message_shown m) as (shown & Hs & _).
    congruence.
Qed.

(** X28. Route and seed fetch together, for a direct lookup whose answer
    comes from the company route: when the route answers with an error,
    because the key is missing or any registry request failed, exactly
    that message is shown and the graph is untouched; when it answers with
    data, the fetch fails only if the profile lacks a registered office,
    and otherwise the assembled graph of the payload is shown. *)
Theorem fetchData_via_route apiKey ch api query st :
  String.length query = 8 → isNaN_Number query = false →
  api_company api query = Ok (seedPayloadOf (companyRoute apiKey ch query)) →
  let st' := fetchData formatDate isNaN_Number typeErrorMessage api query st in
  match companyRoute apiKey ch query with
  | JsonError message _ =>
      error st' = Some message ∧ nodes st' = nodes st ∧ edges st' = edges st
  | Json payload =>
      ∃ company officers,
        cp_company payload = Some company ∧ cp_officers payload = Some officers
        ∧ match assemble formatDate company officers (cp_pscs payload) with
          | Some graph =>
              error st' = None ∧ nodes st' = graph.1 ∧ edges st' = graph.2
          | None =>
              registered_office_address company = None
              ∧ nodes st' = nodes st ∧ edges st' = edges st
          end
  end.
Proof.
  intros Hlen Hnum Hroute. cbn zeta.
  assert (Hq : String.eqb query "" = false) by by destruct query.
  unfold fetchData, resolveCompanyNumber. rewrite Hq, Hlen, Hnum. cbn.
  rewrite Hroute. cbn.
  destruct (companyRoute apiKey ch query) as [payload|message code] eqn:Hr.
  - unfold companyRoute in Hr.
    destruct (fetchFromCompaniesHouse apiKey (ch_company ch query))
      as [|profile]; [done|].
    destruct (fetchFromCompaniesHouse apiKey (ch_officers ch query))
      as [|officers]; [done|].
    destruct (fetchFromCompaniesHouse apiKey (ch_pscs ch query))
      as [|pscs]; [done|].
    cbn in Hr. injection Hr as <-. cbn.
    exists profile, (routeOfficer <$> default [] officers).
    split; [done|]. split; [done|].
    unfold buildGraph, js_or. cbn.
    destruct (assemble _ _ _ _) as [[ns es]|] eqn:Hasm; cbn; [done|].
    split; [|done]. unfold assemble in Hasm.
    destruct (registered_office_address profile); [|done].
    by destruct (foldl (addOfficerAddress profile) _ _).
  - apply catchAll_message in Hr as [_ Hne]; [|done].
    unfold buildGraph, js_or. cbn.
    apply String.eqb_neq in Hne. rewrite Hne. cbn. by rewrite Hne.
Qed.

End SeedFetchFacts.

Lemma fetchData_atomic_witness :
  let st' := fetchData exampleFormatDate exampleIsNaN exampleTypeError
               (exampleApi (Some "key") seedCompaniesHouse) "00000006"
               emptyState in
  loading st' = false
  ∧ ((∃ company officers pscs graph,
        assemble exampleFormatDate company officers pscs = Some graph
        ∧ nodes st' = graph.1 ∧ edges st' = graph.2
        ∧ selectedNode st' = Some (companyNode exampleFormatDate company)
        ∧ error st' = None ∧ console st' = console emptyState)
     ∨ (nodes st' = nodes emptyState ∧ edges st' = edges emptyState
        ∧ selectedNode st' = selectedNode emptyState
        ∧ ∃ message, error st' = Some message ∧ message ≠ "")).
Proof.
  apply (fetchData_atomic exampleFormatDate exampleIsNaN exampleTypeError
           (exampleApi (Some "key") seedCompaniesHouse) "00000006" emptyState).
  done.
Defined.

Lemma fetchData_direct_lookup_witness :
  fetchData exampleFormatDate exampleIsNaN exampleTypeError
    (exampleApi (Some "key") seedCompaniesHouse) "00000006" emptyState
  = fetchData exampleFormatDate exampleIsNaN exampleTypeError
      {| api_search := λ _, Ok {| sp_error := None;
                                  sp_items := Some [mkCompany "99999999" millLane] |};
         api_company := api_company (exampleApi (Some "key") seedCompaniesHouse) |}
      "00000006" emptyState.
Proof.
  apply (fetchData_direct_lookup exampleFormatDate exampleIsNaN exampleTypeError
           (exampleApi (Some "key") seedCompaniesHouse)
           {| api_search := λ _, Ok {| sp_error := None;
                                       sp_items := Some [mkCompany "99999999" millLane] |};
              api_company := api_company (exampleApi (Some "key") seedCompaniesHouse) |}
           "00000006" emptyState); reflexivity.
Defined.

Lemma fetchData_ready_witness :
  let st' := fetchData exampleFormatDate exampleIsNaN exampleTypeError
               (exampleApi (Some "key") seedCompaniesHouse) "00000006"
               emptyState in
  (∃ selected, selectedNode st' = Some selected
               ∧ type (data selected) = Kind.company
               ∧ selected ∈ nodes st')
  ∧ endpoints_exist (nodes st') (edges st')
  ∧ NoDup (edge_id <$> edges st').
Proof.
  apply (fetchData_ready exampleFormatDate exampleIsNaN exampleTypeError
           (exampleApi (Some "key") seedCompaniesHouse) "00000006" emptyState).
  - done.
  - vm_compute. reflexivity.
Defined.

Lemma fetchData_via_route_witness :
  let st' := fetchData exampleFormatDate exampleIsNaN exampleTypeError
               (exampleApi None seedCompaniesHouse) "00000006" seedState0 in
  error st' = Some "API Key missing"
  ∧ nodes st' = nodes seedState0 ∧ edges st' = edges seedState0.
Proof.
  apply (fetchData_via_route exampleFormatDate exampleIsNaN exampleTypeError
           None seedCompaniesHouse (exampleApi None seedCompaniesHouse)
           "00000006" seedState0); reflexivity.
Defined.

(** * Refreshing a node's details *)

Lemma find_node_fmap (f : Node → Node) i (nodes : list Node) :
  (∀ n, node_id (f n) = node_id n) →
  find_node i (f <$> nodes) = f <$> find_node i nodes.
Proof.
  intros Hid. unfold find_node. induction nodes as [|n nodes IH]; cbn; [done|].
  rewrite Hid. by destruct (String.eqb (node_id n) i).
Qed.

Lemma blocked_fmap (f : Node → Node) (nodes : list Node) a i :
  (∀ n, node_id (f n) = node_id n) →
  (∀ n, type (data (f n)) = type (data n)) →
  blocked (f <$> nodes) a i = blocked nodes a i.
Proof.
  intros Hid Hty. unfold blocked. rewrite (find_node_fmap f i nodes Hid).
  destruct (find_node i nodes) as [n|]; cbn; [|done]. by rewrite Hty.
Qed.

Lemma bfs_loop_ext (nodes nodes' : list Node) adjacency a fuel :
  (∀ i, blocked nodes a i = blocked nodes' a i) →
  ∀ st, bfs_loop fuel nodes adjacency a st = bfs_loop fuel nodes' adjacency a st.
Proof.
  intros Hb. induction fuel as [|fuel IH]; intros st; cbn; [done|].
  destruct (queue st) as [|currId rest] eqn:Hq; [done|].
  rewrite IH. f_equal. unfold bfs_step. rewrite Hq. by rewrite Hb.
Qed.

Lemma connected_ext (nodes nodes' : list Node) edges a :
  (∀ i, blocked nodes a i = blocked nodes' a i) →
  connected nodes edges a = connected nodes' edges a.
Proof. intros Hb. unfold connected. by rewrite (bfs_loop_ext nodes nodes'). Qed.

Lemma updateNode_if_id updatedData (selected : option Node) n :
  node_id match selected with
          | Some s => if String.eqb (node_id n) (node_id s)
                      then updateNode updatedData n else n
          | None => n
          end = node_id n.
Proof. destruct selected as [s|]; [|done]. by destruct (String.eqb _ _). Qed.

Lemma updateNode_if_type updatedData (selected : option Node) n :
  type (data match selected with
             | Some s => if String.eqb (node_id n) (node_id s)
                         then updateNode updatedData n else n
             | None => n
             end) = type (data n).
Proof. destruct selected as [s|]; [|done]. by destruct (String.eqb _ _). Qed.

Lemma updateNode_if_style updatedData (selected : option Node) n :
  node_style match selected with
             | Some s => if String.eqb (node_id n) (node_id s)
                         then updateNode updatedData n else n
             | None => n
             end = node_style n.
Proof. destruct selected as [s|]; [|done]. by destruct (String.eqb _ _). Qed.

(** X29. Refreshing the details of the selected node ([onNodeUpdate])
    leaves the picture as it is: the node list keeps its ids and kinds in
    order, the selection keeps its id, and for any hovered node the
    highlighter gives every node the same style and returns the same
    edges as before the refresh. *)
Theorem onNodeUpdate_keeps_highlight updatedData st hoveredNodeId :
  let st' := onNodeUpdate updatedData st in
  node_id <$> nodes st' = node_id <$> nodes st
  ∧ (λ n, type (data n)) <$> nodes st' = (λ n, type (data n)) <$> nodes st
  ∧ node_id <$> selectedNode st' = node_id <$> selectedNode st
  ∧ (λ n, (node_id n, node_style n))
      <$> (styledNodesEdges (nodes st') (edges st') hoveredNodeId
             (selectedNode st')).1
    = (λ n, (node_id n, node_style n))
        <$> (styledNodesEdges (nodes st) (edges st) hoveredNodeId
               (selectedNode st)).1
  ∧ (styledNodesEdges (nodes st') (edges st') hoveredNodeId (selectedNode st')).2
    = (styledNodesEdges (nodes st) (edges st) hoveredNodeId (selectedNode st)).2.
Proof.
  cbn zeta. unfold onNodeUpdate. cbn [nodes edges selectedNode].
  set (f := λ node : Node,
         match selectedNode st with
         | Some selected =>
             if String.eqb (node_id node) (node_id selected)
             then updateNode updatedData node else node
         | None => node
         end).
  assert (Hid : ∀ n, node_id (f n) = node_id n)
    by (intros n; apply updateNode_if_id).
  assert (Hty : ∀ n, type (data (f n)) = type (data n))
    by (intros n; apply updateNode_if_type).
  assert (Hst : ∀ n, node_style (f n) = node_style n)
    by (intros n; apply updateNode_if_style).
  assert (Hsel : node_id <$> (updateNode updatedData <$> selectedNode st)
                 = node_id <$> selectedNode st)
    by by destruct (selectedNode st).
  split; [|split; [|split; [done|]]].
  - rewrite <- list_fmap_compose. apply list_fmap_ext. intros i n _. apply Hid.
  - rewrite <- list_fmap_compose. apply list_fmap_ext. intros i n _. apply Hty.
  - unfold styledNodesEdges. rewrite Hsel.
    destruct (truthy (js_or hoveredNodeId (node_id <$> selectedNode st))).
    2: { cbn. split; [|done]. rewrite <- list_fmap_compose.
         apply list_fmap_ext. intros i n _. cbn. by rewrite Hid, Hst. }
    destruct (js_or hoveredNodeId (node_id <$> selectedNode st)) as [a|].
    2: { cbn. split; [|done]. rewrite <- list_fmap_compose.
         apply list_fmap_ext. intros i n _. cbn. by rewrite Hid, Hst. }
    rewrite (connected_ext (f <$> nodes st) (nodes st) (edges st) a)
      by (intros i; by apply blocked_fmap).
    destruct (connected (nodes st) (edges st) a) as [ns es]. cbn.
    split; [|done]. rewrite <- !list_fmap_compose.
    apply list_fmap_ext. intros i n _. cbn. by rewrite Hid.
Qed.
